(** * The LIR inliner of Jit/codegen/inliner.cpp

    A shallow embedding of [LIRInliner] (legality checker, callee resolver,
    call-site splicer, argument resolver and return-value merger) and the
    properties of it that the specification states. *)

From Stdlib Require Import ZArith.
From stdpp Require Import gmap strings list.

(** ** Outcomes

    [JIT_CHECK], [JIT_DCHECK] (debug build) and [std::vector::at] end the
    process when they fail; a pointer that designates no object has no
    behaviour at all. A computation of the pass either completes or ends
    in one of these ways. *)

Inductive Failure :=
| CheckFailed      (* a JIT_CHECK failed *)
| DCheckFailed     (* a JIT_DCHECK failed *)
| OutOfRange       (* std::vector::at threw std::out_of_range *)
| Dangling.        (* a block or instruction reference designates nothing *)

Inductive Outcome (A : Type) :=
| Ok (a : A)
| Abort (why : Failure).
Arguments Ok {A} a.
Arguments Abort {A} why.

Global Instance Outcome_ret : MRet Outcome := λ A a, Ok a.

Global Instance Outcome_bind : MBind Outcome := λ A B k m,
  match m with
  | Ok a => k a
  | Abort w => Abort w
  end.

Definition of_option {A} (w : Failure) (o : option A) : Outcome A :=
  match o with
  | Some a => Ok a
  | None => Abort w
  end.

(** ** IR data model *)

Module LIR.

(** Instructions and basic blocks are heap objects in the source and are
    named by their address; here by a number. *)
Definition InstrId := nat.
Definition BlockId := nat.

(** Modelled from the spec: [Instruction::Opcode] is declared in lir.h, which
    is not among the sources. The pseudo-operations the pass distinguishes are
    parameter-load, return, call, move, no-op and phi; every other operation
    is [kOther]. *)
Inductive Opcode :=
| kLoadArg
| kReturn
| kCall
| kMove
| kNop
| kPhi
| kOther (code : nat).

Global Instance Opcode_eq_dec : EqDecision Opcode.
Proof. solve_decision. Defined.

(** Modelled from the spec: [OperandBase] and its subclasses are declared in
    lir.h, which is not among the sources. An operand is an immediate
    constant, a virtual register, a linked reference to the instruction that
    defines the value, or an indirect memory reference with a base and an
    optional index; [Label] is the block operand that [allocateLabelInput]
    adds to a phi. *)
#[warnings="-register-all"]
Inductive Operand :=
| Imm (c : Z)
| VReg
| Linked (def : InstrId)
| Ind (base : Operand) (index : option Operand)
| Label (bb : BlockId).
Arguments Imm c%_Z.

Definition isImm (o : Operand) : bool :=
  match o with Imm _ => true | _ => false end.

(** A linked reference is a reference to a virtual register. *)
Definition isVreg (o : Operand) : bool :=
  match o with VReg | Linked _ => true | _ => false end.

Definition isLinked (o : Operand) : bool :=
  match o with Linked _ => true | _ => false end.

Definition isInd (o : Operand) : bool :=
  match o with Ind _ _ => true | _ => false end.

(** Constants are [uint64_t]. *)
Definition uint64 (z : Z) : Z := (z mod 2 ^ 64)%Z.

Definition getConstant (o : Operand) : Z :=
  match o with Imm c => uint64 c | _ => 0%Z end.

Record Instruction := mkInstr {
  instr_id : InstrId;
  opcode : Opcode;
  inputs : list Operand;
  output : option Operand
}.

Definition isReturn (i : Instruction) : bool := bool_decide (opcode i = kReturn).
Definition isLoadArg (i : Instruction) : bool := bool_decide (opcode i = kLoadArg).
Definition getNumInputs (i : Instruction) : nat := length (inputs i).
Definition getInput (i : Instruction) (n : nat) : option Operand := inputs i !! n.

Definition setOpcode (op : Opcode) (i : Instruction) : Instruction :=
  mkInstr (instr_id i) op (inputs i) (output i).
Definition setInputs (ops : list Operand) (i : Instruction) : Instruction :=
  mkInstr (instr_id i) (opcode i) ops (output i).

Record BasicBlock := mkBlock {
  bb_id : BlockId;
  instructions : list Instruction;
  predecessors : list BlockId;
  successors : list BlockId
}.

Definition getLastInstr (b : BasicBlock) : option Instruction := last (instructions b).

Definition setInstructions (l : list Instruction) (b : BasicBlock) : BasicBlock :=
  mkBlock (bb_id b) l (predecessors b) (successors b).
Definition setPredecessors (l : list BlockId) (b : BasicBlock) : BasicBlock :=
  mkBlock (bb_id b) (instructions b) l (successors b).
Definition setSuccessors (l : list BlockId) (b : BasicBlock) : BasicBlock :=
  mkBlock (bb_id b) (instructions b) (predecessors b) l.

Record Function := mkFunction {
  basicblocks : list BasicBlock
}.

(** Modelled from the spec: [Function::getEntryBlock] is declared in lir.h,
    which is not among the sources; the entry block is the first block of
    the stored order. *)
Definition getEntryBlock (f : Function) : option BasicBlock := head (basicblocks f).

End LIR.
Import LIR.

(** ** Legality checker *)

Module Checker.

(** The instruction loop of [checkEntryExitReturn] for one block: a return
    must be the last instruction of [bb], and the only successor of [bb]
    must be the exit block. *)
Fixpoint check_returns (bb exit_block : BasicBlock) (instrs : list Instruction) : bool :=
  match instrs with
  | [] => true
  | instr :: rest =>
      if isReturn instr
         && (negb (bool_decide (rest = []))
             || negb (bool_decide (length (successors bb) = 1))
             || negb (bool_decide (successors bb !! 0 = Some (bb_id exit_block))))
      then false
      else check_returns bb exit_block rest
  end.

(** The block loop of [checkEntryExitReturn]. *)
Fixpoint check_blocks (entry_block exit_block : BasicBlock) (bbs : list BasicBlock) : bool :=
  match bbs with
  | [] => true
  | bb :: rest =>
      if bool_decide (predecessors bb = []) && negb (bool_decide (bb_id bb = bb_id entry_block))
      then false
      else if bool_decide (successors bb = []) && negb (bool_decide (bb_id bb = bb_id exit_block))
      then false
      else if negb (check_returns bb exit_block (instructions bb))
      then false
      else check_blocks entry_block exit_block rest
  end.

Definition checkEntryExitReturn (callee : Function) : bool :=
  match getEntryBlock callee, last (basicblocks callee) with
  | Some entry_block, Some exit_block =>
      if negb (bool_decide (predecessors entry_block = [])) then false
      else if negb (bool_decide (successors exit_block = [])) then false
      else if negb (check_blocks entry_block exit_block (basicblocks callee)) then false
      else if negb (bool_decide (instructions exit_block = [])) then false
      else true
  | _, _ => false
  end.

(** The loop of [checkArguments] over the inputs 1, 2, ... of the call; the
    accepted operands are appended to [arguments_], which is returned with
    the verdict. *)
Fixpoint checkArguments_loop (ins : list Operand) (arguments_ : list Operand)
  : bool * list Operand :=
  match ins with
  | [] => (true, arguments_)
  | input :: rest =>
      if negb (isImm input) && negb (isVreg input)
      then (false, arguments_)
      else checkArguments_loop rest (arguments_ ++ [input])
  end.

Definition checkArguments (call_instr : Instruction) (arguments_ : list Operand)
  : bool * list Operand :=
  checkArguments_loop (drop 1 (inputs call_instr)) arguments_.

(** The instruction loop of [checkLoadArg] for one block; [None] is the
    early [return false], [Some flag] the value of [check_load_arg] at the
    end of the block. *)
Fixpoint checkLoadArg_instrs (numInputs : Z) (check_load_arg : bool)
    (instrs : list Instruction) : option bool :=
  match instrs with
  | [] => Some check_load_arg
  | instr :: rest =>
      if check_load_arg then
        if isLoadArg instr then
          if bool_decide (getNumInputs instr < 1) then None
          else match getInput instr 0 with
               | None => None
               | Some input =>
                   if negb (isImm input) then None
                   else if bool_decide (getConstant input >= numInputs)%Z then None
                   else checkLoadArg_instrs numInputs true rest
               end
        else checkLoadArg_instrs numInputs false rest
      else
        if isLoadArg instr then None
        else checkLoadArg_instrs numInputs false rest
  end.

Fixpoint checkLoadArg_blocks (numInputs : Z) (check_load_arg : bool)
    (bbs : list BasicBlock) : bool :=
  match bbs with
  | [] => true
  | bb :: rest =>
      match checkLoadArg_instrs numInputs check_load_arg (instructions bb) with
      | None => false
      | Some flag => checkLoadArg_blocks numInputs flag rest
      end
  end.

(** [size_t numInputs = call_instr_->getNumInputs() - 1] wraps around when
    the call has no input. *)
Definition checkLoadArg (call_instr : Instruction) (callee : Function) : bool :=
  let numInputs := uint64 (Z.of_nat (getNumInputs call_instr) - 1)%Z in
  checkLoadArg_blocks numInputs true (basicblocks callee).

Definition isInlineable (call_instr : Instruction) (arguments_ : list Operand)
    (callee : Function) : bool * list Operand :=
  if negb (checkEntryExitReturn callee) then (false, arguments_)
  else
    let '(ok, arguments_) := checkArguments call_instr arguments_ in
    if negb ok then (false, arguments_)
    else if negb (checkLoadArg call_instr callee) then (false, arguments_)
    else (true, arguments_).

Global Arguments isInlineable : simpl never.

End Checker.
Import Checker.

(** ** Callee resolver *)

Module Resolver.

(** The collaborators of the resolver: the host's address-to-symbol facility
    ([dladdr], [None] when it finds no symbol name), the file system
    ([read_file], [None] when the stream is not good) and the LIR parser
    ([parse], [None] for a null function). *)
Record Host := mkHost {
  dladdr : Z → option string;
  read_file : string → option string;
  parse : string → option Function
}.

(** The static [name_to_function] map; it owns [unique_ptr]s, which may be
    null. *)
Abbreviation Cache := (gmap string (option Function)).

Definition lir_path (name : string) : string :=
  "Jit/lir/c_helper_translations/" +:+ name +:+ ".lir".

Definition parseFunction (host : Host) (name : string) (name_to_function : Cache)
  : option Function * Cache :=
  match name_to_function !! name with
  | Some cached => (cached, name_to_function)
  | None =>
      match read_file host (lir_path name) with
      | None => (None, name_to_function)
      | Some text =>
          let parsed_func := parse host text in
          (parsed_func, <[name := parsed_func]> name_to_function)
      end
  end.

Definition findFunction (host : Host) (call_instr : Instruction) (name_to_function : Cache)
  : option Function * Cache :=
  if bool_decide (getNumInputs call_instr < 1) then (None, name_to_function)
  else
    match getInput call_instr 0 with
    | None => (None, name_to_function)
    | Some dest_operand =>
        if negb (isImm dest_operand) then (None, name_to_function)
        else
          match dladdr host (getConstant dest_operand) with
          | None => (None, name_to_function)
          | Some name => parseFunction host name name_to_function
          end
    end.

Global Arguments findFunction : simpl never.
Global Arguments parseFunction : simpl never.

End Resolver.
Import Resolver.

(** ** Block surgery on the caller *)

Module Splicer.

Definition all_instructions (f : Function) : list Instruction :=
  concat (map instructions (basicblocks f)).

Definition find_instr (id : InstrId) (f : Function) : option Instruction :=
  List.find (λ i, bool_decide (instr_id i = id)) (all_instructions f).

Definition find_block (id : BlockId) (bbs : list BasicBlock) : option BasicBlock :=
  List.find (λ b, bool_decide (bb_id b = id)) bbs.

(** [instr->basicblock()]: the position, in the stored order, of the block
    that holds the instruction. *)
Definition block_index_of (id : InstrId) (f : Function) : option (nat * BasicBlock) :=
  list_find (λ b, id ∈ map instr_id (instructions b)) (basicblocks f).

(** An update through a pointer to a block, or to an instruction. *)
Definition update_block (id : BlockId) (g : BasicBlock → BasicBlock)
    (bbs : list BasicBlock) : list BasicBlock :=
  map (λ b, if bool_decide (bb_id b = id) then g b else b) bbs.

Definition modify_in_block (id : InstrId) (g : Instruction → Instruction)
    (b : BasicBlock) : BasicBlock :=
  setInstructions
    (map (λ i, if bool_decide (instr_id i = id) then g i else i) (instructions b)) b.

Definition modify_instr (id : InstrId) (g : Instruction → Instruction)
    (bbs : list BasicBlock) : list BasicBlock :=
  map (modify_in_block id g) bbs.

(** Addresses of new objects are distinct from those of all existing ones. *)
Definition fresh_block_id (bbs : list BasicBlock) : BlockId :=
  S (max_list (map bb_id bbs)).

Definition fresh_instr_id (bbs : list BasicBlock) : InstrId :=
  S (max_list (map instr_id (concat (map instructions bbs)))).

Definition retarget_pred (old new : BlockId) (b : BasicBlock) : BasicBlock :=
  setPredecessors (map (λ p, if bool_decide (p = old) then new else p) (predecessors b)) b.

(** The instructions of a block that come before the instruction [call]. *)
Fixpoint instrs_before (call : InstrId) (l : list Instruction) : list Instruction :=
  match l with
  | [] => []
  | i :: rest => if bool_decide (instr_id i = call) then [] else i :: instrs_before call rest
  end.

(** Modelled from the spec: [BasicBlock::splitBefore] is declared in lir.h,
    which is not among the sources. The instructions before the call stay in
    the block; the call and everything after it move to a new block placed
    right after it, which takes over the successors; the new block becomes
    the single successor of the old one. [k] is the position of the block,
    the result is the new block list and the address of the new block. *)
Definition splitBefore (k : nat) (block1 : BasicBlock) (call : InstrId)
    (bbs : list BasicBlock) : list BasicBlock * BlockId :=
  let new_id := fresh_block_id bbs in
  let before := instrs_before call (instructions block1) in
  let after := drop (length before) (instructions block1) in
  let block1' :=
    mkBlock (bb_id block1) before
            (map (λ p, if bool_decide (p = bb_id block1) then new_id else p) (predecessors block1))
            [new_id] in
  let block2 := mkBlock new_id after [bb_id block1] (successors block1) in
  (map (retarget_pred (bb_id block1) new_id) (take k bbs)
     ++ block1' :: block2
     :: map (retarget_pred (bb_id block1) new_id) (drop (S k) bbs),
   new_id).

(** The copy of an operand, an instruction and a block of the callee: the
    copies are new objects, and the references inside the copy designate the
    copies. *)
Fixpoint copy_operand (block_base instr_base : nat) (o : Operand) : Operand :=
  match o with
  | Imm c => Imm c
  | VReg => VReg
  | Linked def => Linked (instr_base + def)
  | Ind base index =>
      Ind (copy_operand block_base instr_base base)
          (match index with
           | Some ix => Some (copy_operand block_base instr_base ix)
           | None => None
           end)
  | Label bb => Label (block_base + bb)
  end.

Definition copy_instr (block_base instr_base : nat) (i : Instruction) : Instruction :=
  mkInstr (instr_base + instr_id i) (opcode i)
          (map (copy_operand block_base instr_base) (inputs i))
          (option_map (copy_operand block_base instr_base) (output i)).

Definition copy_block (block_base instr_base : nat) (b : BasicBlock) : BasicBlock :=
  mkBlock (block_base + bb_id b)
          (map (copy_instr block_base instr_base) (instructions b))
          (map (Nat.add block_base) (predecessors b))
          (map (Nat.add block_base) (successors b)).

Definition add_pred_to_first (p : BlockId) (bbs : list BasicBlock) : list BasicBlock :=
  match bbs with
  | [] => []
  | b :: rest => setPredecessors (predecessors b ++ [p]) b :: rest
  end.

Definition add_succ_to_last (s : BlockId) (bbs : list BasicBlock) : list BasicBlock :=
  match last bbs with
  | None => bbs
  | Some b => removelast bbs ++ [setSuccessors (successors b ++ [s]) b]
  end.

(** The wiring of the copies to the two halves of the split block. *)
Definition wire (block1 block2 : BlockId) (copies : list BasicBlock) : list BasicBlock :=
  add_succ_to_last block2 (add_pred_to_first block1 copies).

(** Modelled from the spec: [Function::copyFrom] is declared in lir.h, which
    is not among the sources. Every block of the callee is copied, in order,
    into the caller's block list between [block1] and [block2]; [block1] is
    wired to the first copy and the last copy to [block2]; the result is the
    new block list with the index range of the copies. *)
Definition copyFrom (callee : Function) (block1 block2 : BlockId)
    (bbs : list BasicBlock) : Outcome (list BasicBlock * (Z * Z)) :=
  '(k, _) ← of_option Dangling (list_find (λ b, bb_id b = block2) bbs);
  let block_base := fresh_block_id bbs in
  let instr_base := fresh_instr_id bbs in
  let copies := map (copy_block block_base instr_base) (basicblocks callee) in
  match copies with
  | [] => Ok (bbs, (Z.of_nat k, Z.of_nat k))
  | first :: _ =>
      let last_id := default (bb_id first) (bb_id <$> last copies) in
      let wired := wire block1 block2 copies in
      let bbs' :=
        update_block block2 (retarget_pred block1 last_id)
          (update_block block1 (setSuccessors [bb_id first]) bbs) in
      Ok (take k bbs' ++ wired ++ drop k bbs',
          (Z.of_nat k, Z.of_nat (k + length copies)))
  end.

(** [basicblocks().at(i)] with an [int] index. *)
Definition at_index (bbs : list BasicBlock) (i : Z) : Outcome BasicBlock :=
  if bool_decide (0 <= i)%Z then of_option OutOfRange (bbs !! Z.to_nat i)
  else Abort OutOfRange.

Global Arguments splitBefore : simpl never.
Global Arguments copyFrom : simpl never.

End Splicer.
Import Splicer.

(** ** The inliner *)

Module Inliner.

(** The fields of a [LIRInliner]. *)
Record LIRInliner := mkInliner {
  call_instr_ : InstrId;
  arguments_ : list Operand;
  callee_start_ : Z;
  callee_end_ : Z
}.

(** What the pass reads and writes outside the [LIRInliner]: the function
    that holds the call instruction, and the static cache of
    [parseFunction]. *)
Record World := mkWorld {
  caller : Function;
  name_to_function : Cache
}.

(** [vreg_map] of [resolveArguments]. Its keys are output operands of
    LoadArg instructions and its values the linked arguments that replace
    them; an output operand is named by the instruction that owns it, and a
    linked argument by the instruction it is linked to. *)
Abbreviation VregMap := (gmap InstrId InstrId).

(** [std::unordered_map::emplace] keeps an existing entry. *)
Definition emplace (k v : InstrId) (m : VregMap) : VregMap :=
  match m !! k with
  | Some _ => m
  | None => <[k := v]> m
  end.

(** [resolveLoadArg]: the result is the new map and what stands at the
    place of the instruction afterwards (the converted instruction, or
    nothing when it is erased). *)
Definition resolveLoadArg (arguments_ : list Operand) (vreg_map : VregMap)
    (instr : Instruction) : Outcome (VregMap * list Instruction) :=
  match getInput instr 0 with
  | None => Abort DCheckFailed
  | Some argument =>
      if negb (isImm argument) then Abort DCheckFailed
      else
        param ← of_option OutOfRange (arguments_ !! Z.to_nat (getConstant argument));
        if isImm param then
          Ok (vreg_map,
              [setInputs (<[0 := Imm (getConstant param)]> (inputs instr))
                         (setOpcode kMove instr)])
        else
          match param with
          | Linked def => Ok (emplace (instr_id instr) def vreg_map, [])
          | _ => Abort DCheckFailed
          end
  end.

(** The lambda [setLinkedOperand] of [resolveLinkedArgumentsUses]. *)
Definition setLinkedOperand (vreg_map : VregMap) (opnd : Operand) : Operand :=
  match opnd with
  | Linked def =>
      match vreg_map !! def with
      | Some new_def => Linked new_def
      | None => opnd
      end
  | _ => opnd
  end.

Definition resolve_input (vreg_map : VregMap) (input : Operand) : Operand :=
  if isLinked input then setLinkedOperand vreg_map input
  else
    match input with
    | Ind base index =>
        Ind (if isLinked base then setLinkedOperand vreg_map base else base)
            (match index with
             | Some ix => Some (if isLinked ix then setLinkedOperand vreg_map ix else ix)
             | None => None
             end)
    | _ => input
    end.

Definition resolveLinkedArgumentsUses (vreg_map : VregMap) (instr : Instruction)
  : Instruction :=
  setInputs (map (resolve_input vreg_map) (inputs instr)) instr.

(** The [while] loop of [resolveArguments] over the instructions of one
    block. *)
Fixpoint resolve_instrs (arguments_ : list Operand) (vreg_map : VregMap)
    (instrs : list Instruction) : Outcome (VregMap * list Instruction) :=
  match instrs with
  | [] => Ok (vreg_map, [])
  | instr :: rest =>
      if isLoadArg instr then
        '(vreg_map', here) ← resolveLoadArg arguments_ vreg_map instr;
        '(vreg_map'', rest') ← resolve_instrs arguments_ vreg_map' rest;
        Ok (vreg_map'', here ++ rest')
      else
        '(vreg_map', rest') ← resolve_instrs arguments_ vreg_map rest;
        Ok (vreg_map', resolveLinkedArgumentsUses vreg_map instr :: rest')
  end.

(** The [for] loop of [resolveArguments]: [n] blocks from index [i] on. *)
Fixpoint resolveArguments_loop (n : nat) (i : Z) (arguments_ : list Operand)
    (vreg_map : VregMap) (bbs : list BasicBlock) : Outcome (list BasicBlock) :=
  match n with
  | O => Ok bbs
  | S n' =>
      bb ← at_index bbs i;
      '(vreg_map', instrs') ← resolve_instrs arguments_ vreg_map (instructions bb);
      resolveArguments_loop n' (i + 1)%Z arguments_ vreg_map'
        (<[Z.to_nat i := setInstructions instrs' bb]> bbs)
  end.

Definition resolveArguments (inl : LIRInliner) (bbs : list BasicBlock)
  : Outcome (list BasicBlock) :=
  resolveArguments_loop (Z.to_nat (callee_end_ inl - callee_start_ inl))
    (callee_start_ inl) (arguments_ inl) ∅ bbs.

(** [allocateLabelInput] and [appendInputOperand] add to the end of the
    inputs. *)
Definition appendInputs (ops : list Operand) (i : Instruction) : Instruction :=
  setInputs (inputs i ++ ops) i.

(** [removeInstr(getLastInstrIter())]. *)
Definition removeLastInstr (b : BasicBlock) : BasicBlock :=
  setInstructions (removelast (instructions b)) b.

(** The loop of [resolveReturnValue] over the predecessors of the
    epilogue. *)
Fixpoint merge_returns (phi_instr : InstrId) (preds : list BlockId)
    (bbs : list BasicBlock) : Outcome (list BasicBlock) :=
  match preds with
  | [] => Ok bbs
  | pred :: rest =>
      pred_bb ← of_option Dangling (find_block pred bbs);
      match getLastInstr pred_bb with
      | Some lastInstr =>
          if isReturn lastInstr then
            let bbs1 := modify_instr phi_instr (appendInputs [Label pred]) bbs in
            match getInput lastInstr 0 with
            | None => Abort CheckFailed
            | Some value =>
                let bbs2 := modify_instr phi_instr (appendInputs [value]) bbs1 in
                merge_returns phi_instr rest (update_block pred removeLastInstr bbs2)
            end
          else merge_returns phi_instr rest bbs
      | None => merge_returns phi_instr rest bbs
      end
  end.

(** [allocateInstr] puts the new instruction at the end of the block, as
    [BasicBlockBuilder::createInstr] relies on. *)
Definition resolveReturnValue (inl : LIRInliner) (bbs : list BasicBlock)
  : Outcome (list BasicBlock) :=
  epilogue ← at_index bbs (callee_end_ inl - 1)%Z;
  let phi_instr := fresh_instr_id bbs in
  let phi := mkInstr phi_instr kPhi [] (Some VReg) in
  let bbs1 :=
    <[Z.to_nat (callee_end_ inl - 1)%Z :=
        setInstructions (instructions epilogue ++ [phi]) epilogue]> bbs in
  bbs2 ← merge_returns phi_instr (predecessors epilogue) bbs1;
  phi_now ← of_option Dangling (find_instr phi_instr (mkFunction bbs2));
  if bool_decide (getNumInputs phi_now = 0) then
    Ok (modify_instr (call_instr_ inl) (setOpcode kNop)
          (update_block (bb_id epilogue) removeLastInstr bbs2))
  else
    Ok (modify_instr (call_instr_ inl)
          (λ i, setInputs [Linked phi_instr] (setOpcode kMove i)) bbs2).

Definition inlineCall (host : Host) (inl : LIRInliner) (w : World)
  : Outcome (bool * LIRInliner * World) :=
  call_instr ← of_option Dangling (find_instr (call_instr_ inl) (caller w));
  let '(found, cache) := findFunction host call_instr (name_to_function w) in
  match found with
  | None => Ok (false, inl, mkWorld (caller w) cache)
  | Some callee =>
      let '(ok, args) := isInlineable call_instr (arguments_ inl) callee in
      let inl := mkInliner (call_instr_ inl) args (callee_start_ inl) (callee_end_ inl) in
      if negb ok then Ok (false, inl, mkWorld (caller w) cache)
      else
        '(k, block1) ← of_option Dangling (block_index_of (call_instr_ inl) (caller w));
        let '(bbs1, block2) :=
          splitBefore k block1 (call_instr_ inl) (basicblocks (caller w)) in
        '(bbs2, (begin_bb, end_bb)) ← copyFrom callee (bb_id block1) block2 bbs1;
        let inl := mkInliner (call_instr_ inl) args begin_bb end_bb in
        bbs3 ← resolveArguments inl bbs2;
        bbs4 ← resolveReturnValue inl bbs3;
        Ok (true, inl, mkWorld (mkFunction bbs4) cache)
  end.

Global Arguments resolveArguments : simpl never.
Global Arguments resolveReturnValue : simpl never.

End Inliner.
Import Inliner.

(** ** What the specification says of the checker, as predicates *)

Module Claims.

(** A return of the callee that is not the last instruction of a block
    whose only successor is the exit block. *)
Definition misplaced_return (callee : Function) : Prop :=
  ∃ exit_block bb n instr,
    last (basicblocks callee) = Some exit_block ∧
    bb ∈ basicblocks callee ∧
    instructions bb !! n = Some instr ∧
    opcode instr = kReturn ∧
    ¬ (S n = length (instructions bb) ∧ successors bb = [bb_id exit_block]).

(** The violations of the single-entry/single-exit structure. *)
Definition violates_entry_exit (callee : Function) : Prop :=
  basicblocks callee = []
  ∨ (∃ entry_block, getEntryBlock callee = Some entry_block ∧
       predecessors entry_block ≠ [])
  ∨ (∃ entry_block bb, getEntryBlock callee = Some entry_block ∧
       bb ∈ basicblocks callee ∧ bb_id bb ≠ bb_id entry_block ∧ predecessors bb = [])
  ∨ (∃ exit_block bb, last (basicblocks callee) = Some exit_block ∧
       bb ∈ basicblocks callee ∧ bb_id bb ≠ bb_id exit_block ∧ successors bb = [])
  ∨ misplaced_return callee
  ∨ (∃ exit_block, last (basicblocks callee) = Some exit_block ∧
       instructions exit_block ≠ []).

(** The actual arguments of a call: its inputs after the callee address. *)
Definition actual_arguments (call_instr : Instruction) : list Operand :=
  drop 1 (inputs call_instr).

(** A LoadArg that comes, in the stored order of blocks and instructions,
    after an instruction that is not a LoadArg. *)
Definition late_load_arg (callee : Function) : Prop :=
  ∃ l1 a l2 b l3,
    all_instructions callee = l1 ++ a :: l2 ++ b :: l3 ∧
    opcode a ≠ kLoadArg ∧ opcode b = kLoadArg.

(** A LoadArg whose first input is missing, is not an immediate, or is an
    index that is not below the number of actual arguments. *)
Definition bad_load_arg (call_instr : Instruction) (callee : Function) : Prop :=
  ∃ instr, instr ∈ all_instructions callee ∧ opcode instr = kLoadArg ∧
    match getInput instr 0 with
    | None => True
    | Some (Imm c) => (Z.of_nat (length (actual_arguments call_instr)) <= uint64 c)%Z
    | Some _ => True
    end.

(** The callee of a call cannot be resolved: the call has no input, or the
    callee address is not an immediate, or the address has no symbol name,
    or the name has no function in the cache and its LIR file cannot be
    read or does not parse, or the cache holds a null function for it. *)
Definition unresolved (host : Host) (call_instr : Instruction) (cache : Cache) : Prop :=
  getInput call_instr 0 = None
  ∨ ∃ dest, getInput call_instr 0 = Some dest ∧
      (isImm dest = false
       ∨ dladdr host (getConstant dest) = None
       ∨ ∃ name, dladdr host (getConstant dest) = Some name ∧
           (cache !! name = Some None
            ∨ cache !! name = None ∧
              (read_file host (lir_path name) = None
               ∨ ∃ text, read_file host (lir_path name) = Some text ∧
                         parse host text = None))).

(** The predecessors of the exit block, the last block in the stored
    order, are blocks of the function. *)
Definition exit_predecessors_within (f : Function) : Prop :=
  match last (basicblocks f) with
  | Some exit_block =>
      Forall (λ p, p ∈ map bb_id (basicblocks f)) (predecessors exit_block)
  | None => True
  end.

Global Instance exit_predecessors_within_dec (f : Function) :
  Decision (exit_predecessors_within f).
Proof. unfold exit_predecessors_within. destruct (last _); apply _. Defined.

(** The edges into the exit block are consistent where a return is: every
    block that holds a return is among the predecessors of the exit
    block. *)
Definition returns_reach_exit (f : Function) : Prop :=
  match last (basicblocks f) with
  | Some exit_block =>
      Forall (λ c, Forall (λ ret, opcode ret = kReturn →
                                  bb_id c ∈ predecessors exit_block)
                          (instructions c))
             (basicblocks f)
  | None => True
  end.

Global Instance returns_reach_exit_dec (f : Function) : Decision (returns_reach_exit f).
Proof. unfold returns_reach_exit. destruct (last _); apply _. Defined.


Definition immediate_or_linked (o : Operand) : Prop :=
  isImm o = true ∨ isLinked o = true.

(** The instruction that stands directly before the instruction [call] in
    its block. *)
Definition instr_before (call : InstrId) (f : Function) : option Instruction :=
  '(_, block1) ← block_index_of call f;
  last (instrs_before call (instructions block1)).

(** A return that stands directly before [call] has an input operand. *)
Definition return_before_has_input (call : InstrId) (f : Function) : Prop :=
  match instr_before call f with
  | Some r => opcode r = kReturn → inputs r ≠ []
  | None => True
  end.

Global Instance return_before_has_input_dec call f :
  Decision (return_before_has_input call f).
Proof. unfold return_before_has_input. destruct (instr_before _ _); apply _. Defined.

(** No return stands directly before [call]. *)
Definition no_return_before (call : InstrId) (f : Function) : Prop :=
  match instr_before call f with
  | Some r => opcode r ≠ kReturn
  | None => True
  end.

Global Instance no_return_before_dec call f : Decision (no_return_before call f).
Proof. unfold no_return_before. destruct (instr_before _ _); apply _. Defined.

(** The argument that a LoadArg names is an immediate or a linked
    reference. *)
Definition loads_immediate_or_linked (args : list Operand) (i : Instruction) : Prop :=
  opcode i = kLoadArg →
  match getInput i 0 with
  | Some (Imm c) =>
      match args !! Z.to_nat (uint64 c) with
      | Some param => immediate_or_linked param
      | None => True
      end
  | _ => True
  end.

Global Instance loads_immediate_or_linked_dec args i :
  Decision (loads_immediate_or_linked args i).
Proof.
  unfold loads_immediate_or_linked.
  destruct (getInput i 0) as [[c| | | |]|]; try apply _.
  destruct (args !! Z.to_nat (uint64 c)); apply _.
Defined.

End Claims.
Import Claims.

(** ** The shapes the proofs speak of *)

Module Shapes.

(** What [resolve_instrs] makes of the instructions of a block: a LoadArg
    becomes a move or disappears, any other instruction keeps its place,
    its operation and the number of its inputs. The first list may be the
    original of which the resolved block is a copy. *)
Inductive derived : list Instruction → list Instruction → Prop :=
| derived_nil : derived [] []
| derived_keep i i' l l' :
    opcode i ≠ kLoadArg → opcode i' = opcode i →
    length (inputs i') = length (inputs i) →
    derived l l' → derived (i :: l) (i' :: l')
| derived_move i i' l l' :
    opcode i = kLoadArg → opcode i' = kMove →
    derived l l' → derived (i :: l) (i' :: l')
| derived_erase i l l' :
    opcode i = kLoadArg → derived l l' → derived (i :: l) l'.

(** The returns of a list stand at its end only. *)
Definition returns_last (l : list Instruction) : Prop :=
  ∀ n i, l !! n = Some i → opcode i = kReturn → S n = length l.


Definition alike (a b : Instruction) : Prop :=
  opcode b = opcode a ∧ length (inputs b) = length (inputs a).

(** The resolved form of a block: the same block, with the instructions
    that [resolve_instrs] produces. *)
Definition resolved_block (args : list Operand) (b b' : BasicBlock) : Prop :=
  bb_id b' = bb_id b ∧ predecessors b' = predecessors b ∧
  successors b' = successors b ∧
  ∃ vm vm', resolve_instrs args vm (instructions b) = Ok (vm', instructions b').

(** The block that [pred] designates ends in a return. *)
Definition ends_in_return (bbs : list BasicBlock) (pred : BlockId) : bool :=
  match find_block pred bbs ≫= getLastInstr with
  | Some lastInstr => isReturn lastInstr
  | None => false
  end.

(** The operand that the phi takes from the block that [pred] designates. *)
Definition return_value (bbs : list BasicBlock) (pred : BlockId) : option Operand :=
  lastInstr ← find_block pred bbs ≫= getLastInstr; getInput lastInstr 0.

(** The inputs of the phi for the predecessors [rets]: for each of them
    the label of the block and the operand of its return. *)
Definition merged_inputs (bbs : list BasicBlock) (rets : list BlockId) : list Operand :=
  flat_map (λ pred, Label pred :: option_list (return_value bbs pred)) rets.

(** The predecessors in the order in which the loop of
    [resolveReturnValue] comes to them first: a block that the list names
    more than once stands at its first place. *)
Fixpoint first_places (l : list BlockId) : list BlockId :=
  match l with
  | [] => []
  | p :: rest => p :: filter (λ q, q ≠ p) (first_places rest)
  end.

(** The predecessors of the epilogue that end in a return, each once. *)
Definition returning (bbs : list BasicBlock) (preds : list BlockId) : list BlockId :=
  first_places (filter (λ p, ends_in_return bbs p = true) preds).

(** The blocks without the last instruction of each block of [rets]. *)
Definition drop_returns (rets : list BlockId) (bbs : list BasicBlock) : list BasicBlock :=
  map (λ b, if bool_decide (bb_id b ∈ rets)
            then setInstructions (removelast (instructions b)) b else b) bbs.

(** A predecessor that the list names again does not end in a return
    again: either no predecessor is named twice, or the returns of its
    block stand at the end. *)
Definition ends_once (preds : list BlockId) (bbs : list BasicBlock) : Prop :=
  ∀ p b, p ∈ preds → find_block p bbs = Some b →
    NoDup preds ∨ returns_last (instructions b).


(** No return instruction has the address [id]. *)
Definition not_a_return (id : InstrId) (bbs : list BasicBlock) : Prop :=
  ∀ b i, b ∈ bbs → i ∈ instructions b → opcode i = kReturn → instr_id i ≠ id.

(** A block of the spliced caller that is not a copy: it is a block of the
    caller, or a half of the split block. *)
Definition from_caller (f : Function) (block_base : nat) (b : BasicBlock) : Prop :=
  bb_id b < block_base ∧ Forall (λ i, i ∈ all_instructions f) (instructions b).

(** A block of the transplanted range after argument resolution, and the
    block of the callee it is the copy of. *)
Definition copy_of (block_base : nat) (c b : BasicBlock) : Prop :=
  bb_id b = block_base + bb_id c ∧ derived (instructions c) (instructions b).

(** The address of a copy determines that of its original. *)
Global Instance add_inj (n : nat) : Inj (=) (=) (Nat.add n).
Proof. intros x y. lia. Qed.

End Shapes.
Import Shapes.

(** ** Concrete programs *)

Module Examples.

(** A call with no input at all, and a callee that loads parameter 5. *)
Definition bare_call : Instruction := mkInstr 0 kCall [] (Some VReg).

Definition loads_param5 : Function := mkFunction
  [ mkBlock 0 [mkInstr 0 kLoadArg [Imm 5] (Some VReg)] [] [1];
    mkBlock 1 [] [0] [] ].

(** A call with one actual argument, and a callee that loads parameter 1. *)
Definition call_one_arg : Instruction := mkInstr 1 kCall [Imm 4096; Imm 7] (Some VReg).

Definition loads_param1 : Function := mkFunction
  [ mkBlock 0 [mkInstr 0 kLoadArg [Imm 1] (Some VReg)] [] [1];
    mkBlock 1 [] [0] [] ].

(** A call that passes a memory operand. *)
Definition call_mem_arg : Instruction :=
  mkInstr 1 kCall [Imm 4096; Ind VReg None] (Some VReg).

Definition empty_callee : Function := mkFunction [ mkBlock 0 [] [] [] ].

(** Block 1 is the only block without predecessors and block 0 the only
    one without successors, but they are stored in the other order. *)
Definition reversed_callee : Function := mkFunction
  [ mkBlock 0 [] [1] [];
    mkBlock 1 [mkInstr 0 (kOther 1) [] None] [] [0] ].

(** The host of the examples: address 4096 is the symbol [f], whose LIR
    file exists and parses to [callee]. *)
Definition host_of (callee : option Function) : Host :=
  mkHost (λ addr, if bool_decide (addr = 4096%Z) then Some "f" else None)
         (λ path, if bool_decide (path = lir_path "f") then Some "text" else None)
         (λ _, callee).

(** A host without the LIR file. *)
Definition host_without_file : Host :=
  mkHost (λ addr, if bool_decide (addr = 4096%Z) then Some "f" else None)
         (λ _, None)
         (λ _, None).

(** A caller that computes a value, calls [f] with the immediate 7 and
    returns the result of the call. *)
Definition caller_imm : Function := mkFunction
  [ mkBlock 0 [ mkInstr 0 (kOther 7) [Imm 3] (Some VReg);
                mkInstr 1 kCall [Imm 4096; Imm 7] (Some VReg);
                mkInstr 2 kReturn [Linked 1] None ] [] [1];
    mkBlock 1 [] [0] [] ].

(** The same caller passing the value it computed. *)
Definition caller_linked : Function := mkFunction
  [ mkBlock 0 [ mkInstr 0 (kOther 7) [Imm 3] (Some VReg);
                mkInstr 1 kCall [Imm 4096; Linked 0] (Some VReg);
                mkInstr 2 kReturn [Linked 1] None ] [] [1];
    mkBlock 1 [] [0] [] ].

(** A caller in which a return stands directly before the call. *)
Definition caller_return_then_call : Function := mkFunction
  [ mkBlock 0 [ mkInstr 0 kReturn [Imm 1] None;
                mkInstr 1 kCall [Imm 4096] (Some VReg) ] [] [1];
    mkBlock 1 [] [0] [] ].


(** A callee with two return paths: block 1 returns a constant, block 2
    the parameter. *)
Definition two_returns : Function := mkFunction
  [ mkBlock 0 [ mkInstr 0 kLoadArg [Imm 0] (Some VReg);
                mkInstr 1 (kOther 2) [Linked 0] None ] [] [1; 2];
    mkBlock 1 [ mkInstr 2 kReturn [Imm 10] None ] [0] [3];
    mkBlock 2 [ mkInstr 3 kReturn [Linked 0] None ] [0] [3];
    mkBlock 3 [] [1; 2] [] ].

(** A callee that uses its parameter and returns nothing. *)
Definition void_callee : Function := mkFunction
  [ mkBlock 0 [ mkInstr 0 kLoadArg [Imm 0] (Some VReg);
                mkInstr 1 (kOther 3) [Linked 0] None ] [] [1];
    mkBlock 1 [] [0] [] ].

Definition inliner_at (call : InstrId) : LIRInliner := mkInliner call [] 0 0.

Definition world_of (f : Function) : World := mkWorld f ∅.

(** A callee whose only return has no input operand. *)
Definition returns_nothing : Function := mkFunction
  [ mkBlock 0 [ mkInstr 0 kReturn [] None ] [] [1];
    mkBlock 1 [] [0] [] ].





(** A callee whose returning block has the exit block as its successor
    but is not among the predecessors of the exit block. *)
Definition unlisted_return : Function := mkFunction
  [ mkBlock 0 [ mkInstr 0 kReturn [Imm 1] None ] [] [2];
    mkBlock 1 [] [0] [2];
    mkBlock 2 [] [1] [] ].

(** A callee whose returning block is stored twice among the predecessors
    of the exit block. *)
Definition doubled_edge : Function := mkFunction
  [ mkBlock 0 [ mkInstr 0 kReturn [Imm 1] None ] [] [1];
    mkBlock 1 [] [0; 0] [] ].

End Examples.

(** ** Uses of definitions *)

Module Uses.

(** The instruction that a linked operand is linked to. *)
Definition linked_def (o : Operand) : list InstrId :=
  match o with Linked def => [def] | _ => [] end.

(** The instructions that an input operand refers to, as
    [resolveLinkedArgumentsUses] looks for them: the definition of a linked
    operand, and the definitions of the base and index registers of a
    memory operand. *)
Definition operand_uses (o : Operand) : list InstrId :=
  match o with
  | Linked def => [def]
  | Ind base index =>
      linked_def base ++ match index with Some ix => linked_def ix | None => [] end
  | _ => []
  end.

Definition uses (i : Instruction) : list InstrId := flat_map operand_uses (inputs i).

(** The definition that [vreg_map] puts in the place of [def]. *)
Definition replaced_by (vreg_map : VregMap) (def : InstrId) : InstrId :=
  default def (vreg_map !! def).

(** The addresses of the LoadArg instructions of a list of blocks. *)
Definition load_arg_ids (bbs : list BasicBlock) : list InstrId :=
  map instr_id (filter (λ i, opcode i = kLoadArg) (all_instructions (mkFunction bbs))).

(** The index of a LoadArg is a position of [args]. *)
Definition in_bounds (args : list Operand) (i : Instruction) : Prop :=
  opcode i = kLoadArg →
  ∀ c, getInput i 0 = Some (Imm c) → Z.to_nat (uint64 c) < length args.

(** What identifies a block in the control-flow graph: its address and its
    edges. *)
Definition edges (b : BasicBlock) : BlockId * list BlockId * list BlockId :=
  (bb_id b, predecessors b, successors b).

(** The state of the blocks during the loop of [resolveReturnValue],
    relative to the blocks [bbs0] it started from: the blocks are the same
    objects, the block [epi] ends in the phi, and every instruction that is
    neither a return nor the phi is where it was. *)
Definition merging (phi : InstrId) (epi : BlockId) (bbs0 bbs : list BasicBlock) : Prop :=
  map bb_id bbs = map bb_id bbs0 ∧
  (∀ b, b ∈ bbs → bb_id b = epi →
     ∃ r, last (instructions b) = Some r ∧ instr_id r = phi ∧ opcode r = kPhi) ∧
  ∀ j b i, bbs0 !! j = Some b → i ∈ instructions b →
    opcode i ≠ kReturn → instr_id i ≠ phi →
    ∃ b', bbs !! j = Some b' ∧ i ∈ instructions b'.

(** The definitions that an input may refer to: the instructions that are
    no returns. *)
Definition definitions (l : list Instruction) : list InstrId :=
  map instr_id (filter (λ i, opcode i ≠ kReturn) l).

(** Every input of the instructions [l] that refers to a definition refers
    to one of [defs]. *)
Definition linked_within (defs l : list Instruction) : Prop :=
  Forall (λ i, Forall (λ d, d ∈ definitions defs) (uses i)) l.

(** The def-use edges of a function stay within the function. *)
Definition well_linked (f : Function) : Prop :=
  linked_within (all_instructions f) (all_instructions f).

Global Instance well_linked_dec (f : Function) : Decision (well_linked f).
Proof. unfold well_linked, linked_within. apply _. Defined.

(** The inputs of the instructions [l] refer to nothing that the inputs of
    the instructions [l0] do not refer to. *)
Definition uses_from (l0 l : list Instruction) : Prop :=
  ∀ i d, i ∈ l → d ∈ uses i → ∃ r, r ∈ l0 ∧ d ∈ uses r.

(** The state of the instructions [l] during the loop of
    [resolveReturnValue], relative to the instructions [l0] it started
    from: a return is one of [l0], and what the phi refers to is what a
    return of [l0] referred to. *)
Definition merged_from (phi : InstrId) (l0 l : list Instruction) : Prop :=
  (∀ i, i ∈ l → opcode i = kReturn → i ∈ l0) ∧
  ∀ i d, i ∈ l → instr_id i = phi → d ∈ uses i →
    ∃ ret, ret ∈ l0 ∧ opcode ret = kReturn ∧ d ∈ uses ret.

End Uses.
Import Uses.

(** ** The binding of LoadArgs to arguments *)

Module Binding.

(** The move that [resolveLoadArg] makes of a LoadArg whose argument is the
    immediate [k]: the same instruction, with opcode Move and the constant
    as its first input. *)
Definition bound_move (la : Instruction) (k : Z) : Instruction :=
  mkInstr (instr_id la) kMove (<[0 := Imm (uint64 k)]> (inputs la)) (output la).

(** The LoadArg [la] is bound to its argument: its first input is the
    position of an argument, and either the argument is an immediate, then
    [la] is not a key of the map and its move is among [moves], or the
    argument is linked to a definition, then the map sends [la] to that
    definition and no instruction of [moves] is [la]. *)
Definition bound (args : list Operand) (vreg_map : VregMap) (moves : list Instruction)
    (la : Instruction) : Prop :=
  ∃ c param,
    getInput la 0 = Some (Imm c) ∧
    args !! Z.to_nat (uint64 c) = Some param ∧
    match param with
    | Imm k => vreg_map !! instr_id la = None ∧ bound_move la k ∈ moves
    | Linked def =>
        vreg_map !! instr_id la = Some def ∧ instr_id la ∉ map instr_id moves
    | _ => False
    end.

End Binding.
Import Binding.

(** ** The basic block builder of Jit/lir/block_builder.cpp *)

Module Builder.

(** HIR registers are heap objects, named by their address. *)
Definition Register := nat.

(** The two maps of [jit::codegen::Environ] that the builder reads and
    writes: the LIR instruction that defines a HIR register, and the
    register that a copy was propagated from. *)
Record Environ := mkEnviron {
  output_map : gmap Register InstrId;
  copy_propagation_map : gmap Register Register
}.

(** The [while] loop of [getDefInstr]. [iter] is the value of the entry the
    iterator stands at, [None] when it is [end()]; the result is [def_reg]
    when the loop ends, and [None] when [fuel] iterations do not reach its
    end. *)
Fixpoint follow_copies (fuel : nat) (copies : gmap Register Register)
    (def_reg : option Register) (iter : option Register) : option (option Register) :=
  match iter with
  | None => Some def_reg
  | Some second =>
      match fuel with
      | O => None
      | S fuel' => follow_copies fuel' copies (Some second) (copies !! second)
      end
  end.

(** [getDefInstr]; the inner [None] is the null pointer. *)
Definition getDefInstr (fuel : nat) (env_ : Environ) (reg : Register)
  : option (option InstrId) :=
  match output_map env_ !! reg with
  | Some def_instr => Some (Some def_instr)
  | None =>
      def_reg ← follow_copies fuel (copy_propagation_map env_) None
                  (copy_propagation_map env_ !! reg);
      Some (match def_reg with
            | Some r => output_map env_ !! r
            | None => None
            end)
  end.

(** [createInstrOutput]: the register gets its defining instruction, whose
    output operand becomes a virtual register; the check that the register
    had none fails otherwise. The data type of an operand is not part of
    the operand model. *)
Definition createInstrOutput (env_ : Environ) (instr : Instruction) (dst : Register)
  : Outcome (Environ * Instruction) :=
  match output_map env_ !! dst with
  | Some _ => Abort DCheckFailed
  | None =>
      Ok (mkEnviron (<[dst := instr_id instr]> (output_map env_))
                    (copy_propagation_map env_),
          mkInstr (instr_id instr) (opcode instr) (inputs instr) (Some VReg))
  end.

(** The chain of copies that starts at a register: each register of the
    list is the one the previous was copied from, and the last one is no
    copy. *)
Inductive copy_chain (copies : gmap Register Register)
  : Register → list Register → Prop :=
| copy_chain_end reg :
    copies !! reg = None → copy_chain copies reg []
| copy_chain_step reg from rest :
    copies !! reg = Some from → copy_chain copies from rest →
    copy_chain copies reg (from :: rest).

(** The fields of a [BasicBlockBuilder] that the label functions use. [F]
    is the LIR function under construction; a null block pointer in the
    label table is [None]. *)
Record BasicBlockBuilder (F : Type) := mkBuilder {
  func_ : F;
  label_to_bb_ : gmap string (option BlockId);
  bbs_ : list BlockId;
  cur_bb_ : option BlockId
}.
Arguments mkBuilder {F}.
Arguments func_ {F}.
Arguments label_to_bb_ {F}.
Arguments bbs_ {F}.
Arguments cur_bb_ {F}.

Section Labels.

(** [Function::allocateBasicBlock] is declared in lir.h, which is not among
    the sources: it is left open here. *)
Context {F : Type} (allocateBasicBlock : F → BlockId * F).

(** [allocateBlock]: [emplace] enters the label with a null pointer, which
    is replaced by a new block when the label was not there. *)
Definition allocateBlock (label : string) (b : BasicBlockBuilder F)
  : option BlockId * BasicBlockBuilder F :=
  match label_to_bb_ b !! label with
  | Some second => (second, b)
  | None =>
      let emplaced := <[label := None]> (label_to_bb_ b) in
      let '(bb, func) := allocateBasicBlock (func_ b) in
      (Some bb, mkBuilder func (<[label := Some bb]> emplaced) (bbs_ b) (cur_bb_ b))
  end.

Definition getBasicBlockByLabel (label : string) (b : BasicBlockBuilder F)
  : option BlockId * BasicBlockBuilder F :=
  match label_to_bb_ b !! label with
  | None =>
      let '(bb, func) := allocateBasicBlock (func_ b) in
      (Some bb, mkBuilder func (<[label := Some bb]> (label_to_bb_ b)) (bbs_ b) (cur_bb_ b))
  | Some second => (second, b)
  end.

End Labels.

End Builder.
Import Builder.

(** ** The scope stack of StrictModules/scope.h *)

Module Scopes.

(** A [Scope], as far as the functions below read it: the name of its
    symbol table entry, and its flags. *)
Record Scope := mkScope {
  getScopeName : string;
  invisible_ : bool;
  hasAlternativeDict_ : bool
}.

(** The fields of a [ScopeStack] that the functions below use. *)
Record ScopeStack := mkScopeStack {
  scopes_ : list Scope;
  currentClass_ : option string
}.

(** The loop of [getQualifiedScopeName], from the position of the iterator
    to the end of [scopes_]. *)
Fixpoint qualified_from (scopes : list Scope) : string :=
  match scopes with
  | [] => ""
  | scope :: rest =>
      getScopeName scope
      +:+ (match rest with [] => "" | _ :: _ => "." end)
      +:+ qualified_from rest
  end.

(** [getQualifiedScopeName]; [std::next(scopes_.begin())] designates nothing
    when the stack is empty. *)
Definition getQualifiedScopeName (stack : ScopeStack) : Outcome string :=
  match scopes_ stack with
  | [] => Abort Dangling
  | _ :: rest => Ok (qualified_from rest)
  end.

End Scopes.
Import Scopes.

(** ** More concrete programs *)

Module Samples.

(** A caller after the splice of a callee with two parameters: the block
    before the call, the two copied blocks, and the block of the call. The
    first argument of the call is linked to instruction 0 of the caller,
    the second is the immediate 7. *)
Definition call_two_args : Instruction :=
  mkInstr 9 kCall [Imm 4096; Linked 0; Imm 7] (Some VReg).

Definition before_call : list BasicBlock :=
  [ mkBlock 0 [mkInstr 0 (kOther 7) [Imm 3] (Some VReg)] [] [10] ].

Definition copied_blocks : list BasicBlock :=
  [ mkBlock 10 [ mkInstr 20 kLoadArg [Imm 0] (Some VReg);
                 mkInstr 21 kLoadArg [Imm 1] (Some VReg);
                 mkInstr 22 (kOther 1)
                   [Linked 20; Ind (Linked 20) (Some (Linked 21))] (Some VReg);
                 mkInstr 23 kReturn [Linked 22] None ]
            [0] [11];
    mkBlock 11 [] [10] [1] ].

Definition from_call : list BasicBlock :=
  [ mkBlock 1 [call_two_args] [11] [] ].

Definition spliced : list BasicBlock := before_call ++ copied_blocks ++ from_call.

Definition inliner_two_args : LIRInliner := mkInliner 9 [Linked 0; Imm 7] 1 3.

(** The same blocks after argument resolution. *)
Definition linked_blocks : list BasicBlock :=
  before_call
  ++ [ mkBlock 10 [ mkInstr 21 kMove [Imm 7] (Some VReg);
                    mkInstr 22 (kOther 1)
                      [Linked 0; Ind (Linked 0) (Some (Linked 21))] (Some VReg);
                    mkInstr 23 kReturn [Linked 22] None ]
               [0] [11];
       mkBlock 11 [] [10] [1] ]
  ++ from_call.

(** An environment in which register 5 is a copy of register 1, itself a
    copy of register 2; only register 1 has a defining instruction. *)
Definition env_chain : Environ := mkEnviron {[ 1 := 100 ]} {[ 5 := 1; 1 := 2 ]}.

(** An environment in which registers 1 and 2 are copies of each other. *)
Definition env_cycle : Environ := mkEnviron {[ 7 := 700 ]} {[ 1 := 2; 2 := 1 ]}.

End Samples.

(** ** Outcomes *)

Lemma bind_Ok {A B} (m : Outcome A) (k : A → Outcome B) (b : B) :
  m ≫= k = Ok b → ∃ a, m = Ok a ∧ k a = Ok b.
Proof. destruct m as [a|]; [|done]. intros H. by exists a. Qed.

Lemma of_option_Ok {A} (why : Failure) (o : option A) (a : A) :
  of_option why o = Ok a → o = Some a.
Proof. destruct o; simpl; congruence. Qed.

(** ** The legality checker *)

Section CheckerFacts.

Lemma check_returns_true bb exit_block instrs :
  check_returns bb exit_block instrs = true →
  ∀ n instr, instrs !! n = Some instr → opcode instr = kReturn →
    S n = length instrs ∧ successors bb = [bb_id exit_block].
Proof.
  induction instrs as [|i rest IH]; intros Hc n instr Hn Hop; [done|].
  simpl in Hc.
  destruct n as [|n]; simpl in Hn.
  - injection Hn as ->.
    unfold isReturn in Hc. rewrite bool_decide_true in Hc by done. simpl in Hc.
    destruct (negb _ || _ || _) eqn:E; [done|].
    apply orb_false_iff in E as [E E3]. apply orb_false_iff in E as [E1 E2].
    apply negb_false_iff, bool_decide_eq_true in E1, E2, E3. subst rest.
    split; [done|].
    destruct (successors bb) as [|s [|? ?]]; simpl in *; try done. congruence.
  - destruct (isReturn i && _); [done|].
    destruct (IH Hc n instr Hn Hop) as [? ?]. simpl. split; [lia|done].
Qed.

Lemma check_blocks_true entry_block exit_block bbs :
  check_blocks entry_block exit_block bbs = true →
  ∀ bb, bb ∈ bbs →
    (predecessors bb = [] → bb_id bb = bb_id entry_block) ∧
    (successors bb = [] → bb_id bb = bb_id exit_block) ∧
    check_returns bb exit_block (instructions bb) = true.
Proof.
  induction bbs as [|b rest IH]; intros Hc bb Hin; [by apply elem_of_nil in Hin|].
  simpl in Hc.
  destruct (bool_decide (predecessors b = []) && _) eqn:E1; [done|].
  destruct (bool_decide (successors b = []) && _) eqn:E2; [done|].
  destruct (check_returns b exit_block (instructions b)) eqn:E3; [|done].
  simpl in Hc.
  apply elem_of_cons in Hin as [->|Hin]; [|by apply IH].
  repeat split; [| |done].
  - intros Hp. rewrite bool_decide_true in E1 by done. simpl in E1.
    by apply negb_false_iff, bool_decide_eq_true in E1.
  - intros Hs. rewrite bool_decide_true in E2 by done. simpl in E2.
    by apply negb_false_iff, bool_decide_eq_true in E2.
Qed.

Lemma checkEntryExitReturn_true callee :
  checkEntryExitReturn callee = true →
  ∃ entry_block exit_block,
    getEntryBlock callee = Some entry_block ∧
    last (basicblocks callee) = Some exit_block ∧
    predecessors entry_block = [] ∧
    successors exit_block = [] ∧
    check_blocks entry_block exit_block (basicblocks callee) = true ∧
    instructions exit_block = [].
Proof.
  unfold checkEntryExitReturn.
  destruct (getEntryBlock callee) as [e|]; [|done].
  destruct (last (basicblocks callee)) as [x|]; [|done].
  intros H. exists e, x.
  destruct (bool_decide (predecessors e = [])) eqn:E1; [|done].
  destruct (bool_decide (successors x = [])) eqn:E2; [|done].
  destruct (check_blocks e x (basicblocks callee)) eqn:E3; [|done].
  destruct (bool_decide (instructions x = [])) eqn:E4; [|done].
  apply bool_decide_eq_true in E1, E2, E4. done.
Qed.

Lemma isInlineable_true call_instr arguments_ callee :
  (isInlineable call_instr arguments_ callee).1 = true →
  checkEntryExitReturn callee = true ∧
  (checkArguments call_instr arguments_).1 = true ∧
  checkLoadArg call_instr callee = true.
Proof.
  unfold isInlineable.
  destruct (checkEntryExitReturn callee); [|done].
  destruct (checkArguments call_instr arguments_) as [ok args].
  destruct ok; [|done].
  destruct (checkLoadArg call_instr callee); done.
Qed.

Lemma isInlineable_false_iff call_instr arguments_ callee :
  (isInlineable call_instr arguments_ callee).1 = false ↔
  checkEntryExitReturn callee = false ∨
  (checkArguments call_instr arguments_).1 = false ∨
  checkLoadArg call_instr callee = false.
Proof.
  unfold isInlineable.
  destruct (checkEntryExitReturn callee); [|simpl; intuition congruence].
  destruct (checkArguments call_instr arguments_) as [ok args].
  destruct ok; [|simpl; intuition congruence].
  destruct (checkLoadArg call_instr callee); simpl; intuition congruence.
Qed.

End CheckerFacts.

(** C5. [isInlineable] returns false whenever the callee violates the
    single-entry/single-exit structure: it has no basic block, or its entry
    block has a predecessor, or a block other than the entry has no
    predecessor, or a block other than the exit has no successor, or a
    return is not the last instruction of a block whose only successor is
    the exit block, or the exit block holds an instruction. *)
Theorem isInlineable_rejects_entry_exit_violation
    (call_instr : Instruction) (arguments_ : list Operand) (callee : Function) :
  violates_entry_exit callee →
  (isInlineable call_instr arguments_ callee).1 = false.
Proof.
  intros Hv. apply isInlineable_false_iff. left.
  destruct (checkEntryExitReturn callee) eqn:E; [exfalso|done].
  apply checkEntryExitReturn_true in E
    as (e & x & He & Hx & Hpe & Hsx & Hcb & Hix).
  destruct Hv as [Hv|[Hv|[Hv|[Hv|[Hv|Hv]]]]].
  - unfold getEntryBlock in He. by rewrite Hv in He.
  - destruct Hv as (e' & He' & Hne). congruence.
  - destruct Hv as (e' & bb & He' & Hin & Hne & Hp).
    assert (e' = e) as -> by congruence.
    by destruct (check_blocks_true _ _ _ Hcb bb Hin) as (H1 & _ & _); auto.
  - destruct Hv as (x' & bb & Hx' & Hin & Hne & Hs).
    assert (x' = x) as -> by congruence.
    by destruct (check_blocks_true _ _ _ Hcb bb Hin) as (_ & H2 & _); auto.
  - destruct Hv as (x' & bb & n & instr & Hx' & Hin & Hn & Hop & Hbad).
    assert (x' = x) as -> by congruence.
    destruct (check_blocks_true _ _ _ Hcb bb Hin) as (_ & _ & H3).
    apply Hbad. by eapply check_returns_true.
  - destruct Hv as (x' & Hx' & Hne). congruence.
Qed.

Lemma isInlineable_rejects_entry_exit_violation_witness :
  violates_entry_exit (mkFunction []) ∧
  (isInlineable Examples.bare_call [] (mkFunction [])).1 = false.
Proof.
  split; [by left|].
  apply isInlineable_rejects_entry_exit_violation. by left.
Defined.

(** C10. The entry block of [isInlineable] is the first stored block and
    the exit block the last stored one: a callee whose first stored block
    has a predecessor, or whose last stored block has a successor, is
    rejected, whatever its other blocks are. *)
Theorem isInlineable_entry_first_exit_last
    (call_instr : Instruction) (arguments_ : list Operand) (callee : Function)
    (first_block last_block : BasicBlock) :
  head (basicblocks callee) = Some first_block →
  last (basicblocks callee) = Some last_block →
  predecessors first_block ≠ [] ∨ successors last_block ≠ [] →
  (isInlineable call_instr arguments_ callee).1 = false.
Proof.
  intros Hf Hl Hbad. apply isInlineable_false_iff. left.
  destruct (checkEntryExitReturn callee) eqn:E; [exfalso|done].
  apply checkEntryExitReturn_true in E
    as (e & x & He & Hx & Hpe & Hsx & _).
  unfold getEntryBlock in He.
  assert (e = first_block) as -> by congruence.
  assert (x = last_block) as -> by congruence.
  by destruct Hbad.
Qed.

Lemma isInlineable_entry_first_exit_last_witness :
  (isInlineable Examples.call_one_arg [] Examples.reversed_callee).1 = false.
Proof.
  eapply (isInlineable_entry_first_exit_last _ _ Examples.reversed_callee);
    [reflexivity | reflexivity | left; simpl; discriminate].
Defined.

Section ArgumentFacts.

Lemma checkArguments_loop_true ins arguments_ :
  (checkArguments_loop ins arguments_).1 = true →
  (checkArguments_loop ins arguments_).2 = arguments_ ++ ins ∧
  Forall (λ o, isImm o = true ∨ isVreg o = true) ins.
Proof.
  revert arguments_. induction ins as [|o rest IH]; intros args; simpl.
  - intros _. by rewrite app_nil_r.
  - destruct (isImm o) eqn:E1; simpl.
    + intros H. destruct (IH _ H) as [-> ?]. rewrite <- app_assoc. split; [done|].
      constructor; auto.
    + destruct (isVreg o) eqn:E2; simpl; [|done].
      intros H. destruct (IH _ H) as [-> ?]. rewrite <- app_assoc. split; [done|].
      constructor; auto.
Qed.

Lemma checkLoadArg_blocks_flat numInputs flag bbs :
  checkLoadArg_blocks numInputs flag bbs = true ↔
  is_Some (checkLoadArg_instrs numInputs flag (concat (map instructions bbs))).
Proof.
  assert (Happ : ∀ l1 l2 flag,
    checkLoadArg_instrs numInputs flag (l1 ++ l2) =
    match checkLoadArg_instrs numInputs flag l1 with
    | None => None
    | Some f => checkLoadArg_instrs numInputs f l2
    end).
  { induction l1 as [|i l1 IH]; intros l2 f; [done|]. simpl.
    destruct f.
    - destruct (isLoadArg i); [|apply IH].
      destruct (bool_decide _); [done|].
      destruct (getInput i 0) as [o|]; [|done].
      destruct (negb (isImm o)); [done|].
      destruct (bool_decide _); [done|]. apply IH.
    - destruct (isLoadArg i); [done|apply IH]. }
  revert flag. induction bbs as [|b rest IH]; intros flag; simpl.
  - split; [eauto|done].
  - rewrite Happ.
    destruct (checkLoadArg_instrs numInputs flag (instructions b)) as [f|].
    + apply IH.
    + split; [done|]. by intros [? ?].
Qed.

Lemma checkLoadArg_instrs_tail numInputs instrs :
  is_Some (checkLoadArg_instrs numInputs false instrs) →
  Forall (λ i, opcode i ≠ kLoadArg) instrs.
Proof.
  induction instrs as [|i rest IH]; simpl; [by constructor|].
  unfold isLoadArg. case_bool_decide as E; [by intros [? ?]|].
  intros H. constructor; auto.
Qed.

Lemma checkLoadArg_instrs_ok numInputs flag instrs :
  is_Some (checkLoadArg_instrs numInputs flag instrs) →
  (∀ l1 a l2 b l3, instrs = l1 ++ a :: l2 ++ b :: l3 →
     opcode a ≠ kLoadArg → opcode b ≠ kLoadArg) ∧
  (flag = true →
   ∀ instr, instr ∈ instrs → opcode instr = kLoadArg →
     ∃ c, getInput instr 0 = Some (Imm c) ∧ (uint64 c < numInputs)%Z).
Proof.
  revert flag. induction instrs as [|i rest IH]; intros flag Hs.
  - split.
    + intros [|? ?] ? ? ? ? ?; done.
    + intros _ ? Hin. by apply elem_of_nil in Hin.
  - simpl in Hs. unfold isLoadArg in Hs.
    destruct flag.
    + case_bool_decide as Eop.
      * destruct (bool_decide (getNumInputs i < 1)); [by destruct Hs|].
        destruct (getInput i 0) as [o|] eqn:Ei; [|by destruct Hs].
        destruct o as [c| | | |]; simpl in Hs; try by destruct Hs.
        case_bool_decide as Ec; [by destruct Hs|].
        destruct (IH _ Hs) as [IH1 IH2]. split.
        -- intros [|x l1] a l2 b l3 Heq Ha; injection Heq as Hhd Htl.
           ++ by rewrite <- Hhd in Ha.
           ++ by eapply IH1.
        -- intros _ instr Hin Hop.
           apply elem_of_cons in Hin as [->|Hin]; [|by apply IH2].
           exists c. split; [done|lia].
      * pose proof (checkLoadArg_instrs_tail _ _ Hs) as Hall.
        destruct (IH _ Hs) as [IH1 _]. split.
        -- intros [|x l1] a l2 b l3 Heq Ha; injection Heq as Hhd Htl.
           ++ rewrite Forall_forall in Hall. apply Hall. rewrite Htl.
              apply elem_of_app. right. by left.
           ++ by eapply IH1.
        -- intros _ instr Hin Hop.
           apply elem_of_cons in Hin as [->|Hin]; [done|].
           rewrite Forall_forall in Hall. by apply Hall in Hin.
    + split; [|done].
      pose proof (checkLoadArg_instrs_tail numInputs (i :: rest)) as Hall.
      simpl in Hall. unfold isLoadArg in Hall. specialize (Hall Hs).
      intros l1 a l2 b l3 Heq _.
      rewrite Forall_forall in Hall. apply Hall. rewrite Heq.
      apply elem_of_app. right. right. apply elem_of_app. right. by left.
Qed.

End ArgumentFacts.

(** C7. [isInlineable] returns false when an actual argument of the call
    (an input after the callee address) is neither an immediate nor a
    virtual or linked register reference; a memory operand passed as an
    argument is such an operand. *)
Theorem isInlineable_rejects_argument_kind
    (call_instr : Instruction) (arguments_ : list Operand) (callee : Function)
    (arg : Operand) :
  arg ∈ actual_arguments call_instr →
  (isImm arg = false ∧ isVreg arg = false) ∨ isInd arg = true →
  (isInlineable call_instr arguments_ callee).1 = false.
Proof.
  intros Hin Hkind. apply isInlineable_false_iff. right. left.
  destruct (checkArguments call_instr arguments_).1 eqn:E; [exfalso|done].
  apply checkArguments_loop_true in E as [_ Hall].
  rewrite Forall_forall in Hall. specialize (Hall arg Hin).
  destruct Hkind as [[H1 H2]|H3].
  - destruct Hall; congruence.
  - destruct arg; simpl in *; destruct Hall; congruence.
Qed.

Lemma isInlineable_rejects_argument_kind_witness :
  (isInlineable Examples.call_mem_arg [] Examples.empty_callee).1 = false.
Proof.
  apply (isInlineable_rejects_argument_kind _ _ _ (Ind VReg None)).
  - unfold actual_arguments. simpl. apply list_elem_of_singleton. reflexivity.
  - right. reflexivity.
Defined.

(** C6, as the specification states it, fails for a call instruction that
    has no input: the subtraction of the callee address from the number of
    inputs wraps around, and a LoadArg of parameter 5 is accepted although
    the call has no actual argument. *)
Lemma isInlineable_accepts_load_arg_of_bare_call :
  bad_load_arg Examples.bare_call Examples.loads_param5 ∧
  (isInlineable Examples.bare_call [] Examples.loads_param5).1 = true.
Proof.
  split; [|reflexivity].
  exists (mkInstr 0 kLoadArg [Imm 5] (Some VReg)).
  split; [|split; [reflexivity|]].
  - unfold all_instructions. simpl. apply list_elem_of_singleton. reflexivity.
  - vm_compute. congruence.
Qed.

(** C6. For a call instruction that has its callee-address input,
    [isInlineable] returns false if, in the stored order of the callee's
    blocks and instructions, a LoadArg comes after an instruction that is
    not a LoadArg, or if the first input of a LoadArg is missing, is not an
    immediate, or is an index that is not below the number of actual
    arguments of the call. *)
Theorem isInlineable_rejects_load_arg
    (call_instr : Instruction) (arguments_ : list Operand) (callee : Function) :
  1 ≤ getNumInputs call_instr →
  late_load_arg callee ∨ bad_load_arg call_instr callee →
  (isInlineable call_instr arguments_ callee).1 = false.
Proof.
  intros Hn Hbad. apply isInlineable_false_iff. right. right.
  destruct (checkLoadArg call_instr callee) eqn:E; [exfalso|done].
  unfold checkLoadArg in E. apply checkLoadArg_blocks_flat in E.
  apply checkLoadArg_instrs_ok in E as [Hlate Hok].
  destruct Hbad as [(l1 & a & l2 & b & l3 & Heq & Ha & Hb)|(instr & Hin & Hop & Hbad)].
  - by eapply Hlate.
  - destruct (Hok eq_refl instr Hin Hop) as (c & Hc & Hlt).
    rewrite Hc in Hbad.
    unfold actual_arguments in Hbad. rewrite length_drop in Hbad.
    unfold getNumInputs in *.
    assert (uint64 (Z.of_nat (length (inputs call_instr)) - 1)
            ≤ Z.of_nat (length (inputs call_instr)) - 1)%Z.
    { unfold uint64. apply Z.mod_le; lia. }
    lia.
Qed.

Lemma isInlineable_rejects_load_arg_witness :
  (isInlineable Examples.call_one_arg [] Examples.loads_param1).1 = false.
Proof.
  apply isInlineable_rejects_load_arg.
  - unfold getNumInputs. simpl. lia.
  - right. exists (mkInstr 0 kLoadArg [Imm 1] (Some VReg)).
    split; [|split; [reflexivity|]].
    + unfold all_instructions. simpl. apply list_elem_of_singleton. reflexivity.
    + vm_compute. congruence.
Defined.

(** ** Failure of [inlineCall] *)

Section Failure.

Context (host : Host).

Lemma inlineCall_cases (inl : LIRInliner) (w : World) (call_instr : Instruction) :
  find_instr (call_instr_ inl) (caller w) = Some call_instr →
  match findFunction host call_instr (name_to_function w) with
  | (None, cache) =>
      inlineCall host inl w = Ok (false, inl, mkWorld (caller w) cache)
  | (Some callee, cache) =>
      match isInlineable call_instr (arguments_ inl) callee with
      | (false, args) =>
          inlineCall host inl w =
          Ok (false,
              mkInliner (call_instr_ inl) args (callee_start_ inl) (callee_end_ inl),
              mkWorld (caller w) cache)
      | (true, args) =>
          ∀ inl' w', inlineCall host inl w ≠ Ok (false, inl', w')
      end
  end.
Proof.
  intros Hcall. unfold inlineCall. rewrite Hcall.
  cbn [mbind Outcome_bind of_option].
  destruct (findFunction host call_instr (name_to_function w)) as [[callee|] cache];
    [|done].
  destruct (isInlineable call_instr (arguments_ inl) callee) as [[|] args]; [|done].
  cbn [negb]. intros inl' w' H.
  apply bind_Ok in H as ([k block1] & _ & H).
  destruct (splitBefore _ _ _ _) as [bbs1 block2].
  apply bind_Ok in H as ([bbs2 [b e]] & _ & H).
  apply bind_Ok in H as (bbs3 & _ & H).
  apply bind_Ok in H as (bbs4 & _ & H).
  done.
Qed.

End Failure.

(** C2. If [inlineCall] returns false, the callee was not resolved or
    [isInlineable] rejected it, and the function that holds the call is
    what it was before: the same blocks with the same instructions and the
    same operands. *)
Theorem inlineCall_false_leaves_caller
    (host : Host) (inl inl' : LIRInliner) (w w' : World) :
  inlineCall host inl w = Ok (false, inl', w') →
  caller w' = caller w ∧
  ∃ call_instr,
    find_instr (call_instr_ inl) (caller w) = Some call_instr ∧
    ((findFunction host call_instr (name_to_function w)).1 = None
     ∨ ∃ callee,
         (findFunction host call_instr (name_to_function w)).1 = Some callee ∧
         (isInlineable call_instr (arguments_ inl) callee).1 = false).
Proof.
  intros H.
  destruct (find_instr (call_instr_ inl) (caller w)) as [call_instr|] eqn:Hcall.
  - pose proof (inlineCall_cases host inl w call_instr Hcall) as Hc.
    destruct (findFunction host call_instr (name_to_function w))
      as [[callee|] cache] eqn:Hfound.
    + destruct (isInlineable call_instr (arguments_ inl) callee)
        as [[|] args] eqn:Hverdict.
      * by destruct (Hc inl' w').
      * rewrite Hc in H. simplify_eq. split; [done|].
        exists call_instr. split; [done|]. right. exists callee.
        by rewrite Hfound, Hverdict.
    + rewrite Hc in H. simplify_eq. split; [done|].
      exists call_instr. split; [done|]. left. by rewrite Hfound.
  - unfold inlineCall in H. by rewrite Hcall in H.
Qed.

Lemma inlineCall_false_leaves_caller_witness :
  ∃ inl' w',
    inlineCall (Examples.host_of (Some Examples.loads_param1))
      (Examples.inliner_at 1) (Examples.world_of Examples.caller_imm) = Ok (false, inl', w')
    ∧ caller w' = caller (Examples.world_of Examples.caller_imm).
Proof.
  assert (∃ inl' w',
    inlineCall (Examples.host_of (Some Examples.loads_param1))
      (Examples.inliner_at 1) (Examples.world_of Examples.caller_imm) = Ok (false, inl', w'))
    as (inl' & w' & E) by (vm_compute; eauto).
  exists inl', w'. split; [exact E|].
  exact (proj1 (inlineCall_false_leaves_caller _ _ _ _ _ E)).
Defined.

Section ResolverFacts.

Context (host : Host).

Lemma findFunction_unresolved (call_instr : Instruction) (cache : Cache) :
  unresolved host call_instr cache →
  (findFunction host call_instr cache).1 = None.
Proof.
  unfold unresolved, findFunction, getNumInputs, getInput.
  intros [Hnone|(dest & Hdest & Hwhy)].
  - destruct (inputs call_instr); [done|discriminate].
  - destruct (inputs call_instr) as [|o rest] eqn:E; [done|].
    rewrite bool_decide_false by (simpl; lia).
    simpl in Hdest. injection Hdest as ->. simpl.
    destruct Hwhy as [->|[Hdl|(name & Hdl & Hc)]]; [done|..].
    + destruct (isImm dest); [|done]. simpl. by rewrite Hdl.
    + destruct (isImm dest); [|done]. simpl. rewrite Hdl.
      unfold parseFunction.
      destruct Hc as [->|[-> [->|(text & -> & ->)]]]; done.
Qed.

Lemma parseFunction_caches (name : string) (cache cache' : Cache) (callee : Function) :
  parseFunction host name cache = (Some callee, cache') →
  cache' !! name = Some (Some callee).
Proof.
  unfold parseFunction.
  destruct (cache !! name) as [cached|] eqn:E.
  - intros [= -> <-]. done.
  - destruct (read_file host (lir_path name)); [|done].
    intros [= -> <-]. apply lookup_insert_eq.
Qed.

End ResolverFacts.

(** C8. When the callee cannot be resolved (no callee-address input, an
    address that is not an immediate, no symbol for the address, no LIR
    text that can be loaded and parsed for the symbol), [inlineCall]
    completes with false and leaves the inliner and the caller as they
    were. When a function is parsed, the cache holds it under its name
    afterwards, and a later lookup of the name returns it without reading
    or parsing anything. *)
Theorem inlineCall_unresolved_and_cache
    (host : Host) (inl : LIRInliner) (w : World) (call_instr : Instruction) :
  find_instr (call_instr_ inl) (caller w) = Some call_instr →
  (unresolved host call_instr (name_to_function w) →
   ∃ cache, inlineCall host inl w = Ok (false, inl, mkWorld (caller w) cache))
  ∧ (∀ name callee cache',
       parseFunction host name (name_to_function w) = (Some callee, cache') →
       cache' !! name = Some (Some callee) ∧
       ∀ host', parseFunction host' name cache' = (Some callee, cache')).
Proof.
  intros Hcall. split.
  - intros Hun. apply findFunction_unresolved in Hun.
    pose proof (inlineCall_cases host inl w call_instr Hcall) as Hc.
    destruct (findFunction host call_instr (name_to_function w)) as [found cache].
    simpl in Hun. subst found. by exists cache.
  - intros name callee cache' Hp.
    pose proof (parseFunction_caches host _ _ _ _ Hp) as Hin.
    split; [done|]. intros host'. unfold parseFunction. by rewrite Hin.
Qed.

Lemma inlineCall_unresolved_and_cache_witness :
  (∃ cache,
     inlineCall Examples.host_without_file (Examples.inliner_at 1)
       (Examples.world_of Examples.caller_imm)
     = Ok (false, Examples.inliner_at 1, mkWorld Examples.caller_imm cache))
  ∧ (∃ cache',
       parseFunction (Examples.host_of (Some Examples.loads_param1)) "f" ∅
       = (Some Examples.loads_param1, cache')
       ∧ parseFunction Examples.host_without_file "f" cache'
         = (Some Examples.loads_param1, cache')).
Proof.
  destruct (inlineCall_unresolved_and_cache Examples.host_without_file
              (Examples.inliner_at 1) (Examples.world_of Examples.caller_imm)
              Examples.call_one_arg eq_refl) as [Hfail _].
  destruct (inlineCall_unresolved_and_cache
              (Examples.host_of (Some Examples.loads_param1))
              (Examples.inliner_at 1) (Examples.world_of Examples.caller_imm)
              Examples.call_one_arg eq_refl) as [_ Hcache].
  split.
  - apply Hfail. right. exists (Imm 4096). split; [reflexivity|].
    right. right. exists "f". split; [reflexivity|].
    right. split; [reflexivity|]. left. reflexivity.
  - eexists. split; [reflexivity|].
    eapply Hcache. reflexivity.
Defined.

(** C9. There is a callee with a return that has no input operand which
    [isInlineable] accepts, and for which the pass stops at the check of
    [resolveReturnValue] that a merged return has an input operand, without
    producing a result. *)
Theorem inlineCall_aborts_on_return_without_input :
  ∃ host inl w call_instr callee,
    find_instr (call_instr_ inl) (caller w) = Some call_instr ∧
    (findFunction host call_instr (name_to_function w)).1 = Some callee ∧
    (∃ ret, ret ∈ all_instructions callee ∧ opcode ret = kReturn ∧ getNumInputs ret = 0) ∧
    (isInlineable call_instr (arguments_ inl) callee).1 = true ∧
    inlineCall host inl w = Abort CheckFailed.
Proof.
  exists (Examples.host_of (Some Examples.returns_nothing)), (Examples.inliner_at 1),
    (Examples.world_of Examples.caller_imm), Examples.call_one_arg, Examples.returns_nothing.
  split; [reflexivity|]. split; [reflexivity|]. split.
  - exists (mkInstr 0 kReturn [] None). split; [|done].
    unfold all_instructions. simpl. apply list_elem_of_singleton. reflexivity.
  - split; [reflexivity|]. vm_compute. reflexivity.
Qed.


(** ** Argument resolution *)

Section ArgumentResolution.

Lemma derived_no_load_arg l l' :
  derived l l' → Forall (λ i, opcode i ≠ kLoadArg) l'.
Proof.
  induction 1 as [|i i' l l' Hi Hop _ _ IH|i i' l l' _ Hop _ IH|]; auto.
  - constructor; [congruence|done].
  - constructor; [congruence|done].
Qed.

Lemma returns_last_tail i l : returns_last (i :: l) → returns_last l.
Proof.
  intros H n j Hn Hop. specialize (H (S n) j Hn Hop). simpl in H. lia.
Qed.

Lemma returns_last_head i l : returns_last (i :: l) → opcode i = kReturn → l = [].
Proof.
  intros H Hop. specialize (H 0 i eq_refl Hop). simpl in H.
  destruct l; [done|simpl in H; lia].
Qed.

Lemma derived_nil_l l' : derived [] l' → l' = [].
Proof. by inversion 1. Qed.

Lemma derived_returns_last l l' :
  derived l l' → returns_last l → returns_last l'.
Proof.
  induction 1 as [|i i' l l' Hi Hop _ Hd IH|i i' l l' _ Hop Hd IH|i l l' _ Hd IH];
    intros Hl.
  - done.
  - intros [|n] j Hn Hj; simpl in Hn.
    + injection Hn as <-.
      rewrite (returns_last_head i l Hl) in Hd by congruence.
      by rewrite (derived_nil_l _ Hd).
    + simpl. f_equal. eapply IH; [by eapply returns_last_tail|done..].
  - intros [|n] j Hn Hj; simpl in Hn.
    + injection Hn as <-. congruence.
    + simpl. f_equal. eapply IH; [by eapply returns_last_tail|done..].
  - apply IH. by eapply returns_last_tail.
Qed.


Lemma derived_return_origin l l' r' :
  derived l l' → r' ∈ l' → opcode r' = kReturn →
  ∃ r, r ∈ l ∧ opcode r = kReturn.
Proof.
  induction 1 as [|i i' l l' Hi Hop _ _ IH|i i' l l' _ Hop _ IH|i l l' _ _ IH];
    intros Hin Hr.
  - by apply elem_of_nil in Hin.
  - apply elem_of_cons in Hin as [->|Hin].
    + exists i. split; [left|congruence].
    + destruct (IH Hin Hr) as (r & ? & ?). exists r. split; [by right|done].
  - apply elem_of_cons in Hin as [->|Hin]; [congruence|].
    destruct (IH Hin Hr) as (r & ? & ?). exists r. split; [by right|done].
  - destruct (IH Hin Hr) as (r & ? & ?). exists r. split; [by right|done].
Qed.

Lemma derived_snoc l r l' :
  derived (l ++ [r]) l' → opcode r ≠ kLoadArg →
  ∃ l0' r', l' = l0' ++ [r'] ∧ opcode r' = opcode r.
Proof.
  revert l'. induction l as [|i l IH]; intros l' Hd Hr; simpl in Hd.
  - inversion Hd as [|? i' ? l2 ? Hop ? Hd'| |]; simplify_eq.
    apply derived_nil_l in Hd' as ->. by exists [], i'.
  - inversion Hd as [|? i' ? l2 ? Hop ? Hd'|? i' ? l2 ? Hop Hd'|? ? ? ? Hd']; simplify_eq.
    + destruct (IH _ Hd' Hr) as (l0' & r' & -> & ?). by exists (i' :: l0'), r'.
    + destruct (IH _ Hd' Hr) as (l0' & r' & -> & ?). by exists (i' :: l0'), r'.
    + by apply IH.
Qed.

(** A return ends the derived list exactly when one ends the original. *)
Lemma derived_last_return l l' :
  derived l l' → returns_last l →
  (∃ r, last l = Some r ∧ opcode r = kReturn) ↔
  (∃ r', last l' = Some r' ∧ opcode r' = kReturn).
Proof.
  intros Hd Hl. split.
  - intros (r & Hlast & Hr). apply last_Some in Hlast as [l0 ->].
    destruct (derived_snoc _ _ _ Hd) as (l0' & r' & -> & Hop); [congruence|].
    exists r'. rewrite last_snoc. split; [done|congruence].
  - intros (r' & Hlast & Hr').
    destruct (derived_return_origin _ _ r' Hd) as (r & Hin & Hr);
      [by eapply last_Some_elem_of|done|].
    exists r. split; [|done].
    apply list_elem_of_lookup in Hin as [n Hn].
    rewrite last_lookup. rewrite <- (Hl n r Hn Hr). done.
Qed.

Lemma resolve_instrs_derived args l0 : ∀ l vm vm' l',
  Forall2 alike l0 l →
  resolve_instrs args vm l = Ok (vm', l') →
  derived l0 l'.
Proof.
  induction l0 as [|i0 l0 IH]; intros l vm vm' l' Hal Hres.
  - apply Forall2_nil_inv_l in Hal as ->. simpl in Hres. injection Hres as <- <-.
    constructor.
  - apply Forall2_cons_inv_l in Hal as (i & rest & [Hop Hlen] & Hal & ->).
    simpl in Hres. unfold isLoadArg in Hres. case_bool_decide as Hla.
    + apply bind_Ok in Hres as ([vm1 here] & Hhere & Hres).
      apply bind_Ok in Hres as ([vm2 rest'] & Hrest & Hres).
      injection Hres as <- <-.
      specialize (IH _ _ _ _ Hal Hrest).
      unfold resolveLoadArg in Hhere.
      destruct (getInput i 0) as [argument|]; [|done].
      destruct (negb (isImm argument)); [done|].
      apply bind_Ok in Hhere as (param & _ & Hhere).
      destruct (isImm param).
      * injection Hhere as <- <-. simpl.
        apply derived_move; [congruence|done|done].
      * destruct param; try done. injection Hhere as <- <-. simpl.
        apply derived_erase; [congruence|done].
    + apply bind_Ok in Hres as ([vm1 rest'] & Hrest & Hres).
      injection Hres as <- <-.
      apply derived_keep; [congruence|simpl; congruence| |by eapply IH].
      simpl. by rewrite length_map.
Qed.


Lemma at_index_middle (pre post : list BasicBlock) (b : BasicBlock) :
  at_index (pre ++ b :: post) (Z.of_nat (length pre)) = Ok b.
Proof.
  unfold at_index. rewrite bool_decide_true by lia.
  rewrite Nat2Z.id, list_lookup_middle; done.
Qed.

Lemma resolveArguments_loop_inv args mid : ∀ pre post vm bbs',
  resolveArguments_loop (length mid) (Z.of_nat (length pre)) args vm
    (pre ++ mid ++ post) = Ok bbs' →
  ∃ mid', bbs' = pre ++ mid' ++ post ∧ Forall2 (resolved_block args) mid mid'.
Proof.
  induction mid as [|b mid IH]; intros pre post vm bbs' H.
  - simpl in H. injection H as <-. by exists [].
  - cbn [length resolveArguments_loop] in H.
    simpl in H. rewrite at_index_middle in H. simpl in H.
    apply bind_Ok in H as ([vm1 instrs'] & Hres & H).
    rewrite Nat2Z.id in H.
    assert (<[length pre := setInstructions instrs' b]> (pre ++ b :: mid ++ post)
            = (pre ++ [setInstructions instrs' b]) ++ mid ++ post) as Hins.
    { replace (length pre) with (length pre + 0) at 1 by lia.
      rewrite insert_app_r. simpl. by rewrite <- app_assoc. }
    assert ((Z.of_nat (length pre) + 1)%Z
            = Z.of_nat (length (pre ++ [setInstructions instrs' b]))) as Hlen
      by (rewrite length_app; simpl; lia).
    rewrite Hins, Hlen in H.
    apply IH in H as (mid' & -> & Hall).
    exists (setInstructions instrs' b :: mid'). split.
    + by rewrite <- app_assoc.
    + constructor; [|done]. repeat split; try done. by exists vm, vm1.
Qed.


End ArgumentResolution.

(** ** Return merging *)

Section ReturnMerging.

Lemma removelast_map {A B} (f : A → B) (l : list A) :
  removelast (map f l) = map f (removelast l).
Proof.
  induction l as [|x [|y l] IH]; [done..|].
  change (f x :: removelast (map f (y :: l)) = f x :: map f (removelast (y :: l))).
  by rewrite IH.
Qed.

Lemma appendInputs_nil i : appendInputs [] i = i.
Proof. destruct i. unfold appendInputs, setInputs. simpl. by rewrite app_nil_r. Qed.

Lemma appendInputs_app ops1 ops2 i :
  appendInputs ops2 (appendInputs ops1 i) = appendInputs (ops1 ++ ops2) i.
Proof. unfold appendInputs, setInputs. simpl. by rewrite app_assoc. Qed.

Lemma modify_in_block_id id b : modify_in_block id (appendInputs []) b = b.
Proof.
  destruct b as [n l ps ss]. unfold modify_in_block, setInstructions. simpl. f_equal.
  induction l as [|i l IH]; [done|]. simpl. rewrite IH.
  case_bool_decide; [by rewrite appendInputs_nil|done].
Qed.

Lemma modify_in_block_append id ops1 ops2 b :
  modify_in_block id (appendInputs ops2) (modify_in_block id (appendInputs ops1) b)
  = modify_in_block id (appendInputs (ops1 ++ ops2)) b.
Proof.
  destruct b as [n l ps ss]. unfold modify_in_block, setInstructions. simpl. f_equal.
  rewrite map_map. apply map_ext. intros i.
  destruct (decide (instr_id i = id)) as [Hi|Hi].
  - rewrite (bool_decide_true _ Hi). simpl. rewrite (bool_decide_true _ Hi).
    apply appendInputs_app.
  - rewrite (bool_decide_false _ Hi). by rewrite (bool_decide_false _ Hi).
Qed.

Lemma modify_in_block_removeLastInstr id g b :
  modify_in_block id g (removeLastInstr b) = removeLastInstr (modify_in_block id g b).
Proof.
  unfold modify_in_block, removeLastInstr, setInstructions. simpl.
  by rewrite removelast_map.
Qed.

Lemma find_block_map (h : BasicBlock → BasicBlock) id bbs :
  (∀ b, bb_id (h b) = bb_id b) →
  find_block id (map h bbs) = h <$> find_block id bbs.
Proof.
  intros Hh. unfold find_block.
  induction bbs as [|b bbs IH]; [done|]. simpl. rewrite Hh.
  case_bool_decide; [done|apply IH].
Qed.

Lemma find_block_map_other (h : BasicBlock → BasicBlock) id bbs :
  (∀ b, bb_id (h b) = bb_id b) →
  (∀ b, bb_id b = id → h b = b) →
  find_block id (map h bbs) = find_block id bbs.
Proof.
  intros Hh Hid. unfold find_block.
  induction bbs as [|b bbs IH]; [done|]. simpl. rewrite Hh.
  case_bool_decide; [by rewrite Hid|apply IH].
Qed.

Lemma find_block_Some id bbs b :
  find_block id bbs = Some b → b ∈ bbs ∧ bb_id b = id.
Proof.
  unfold find_block. intros H. apply find_some in H as [Hin Hid].
  apply list_elem_of_In in Hin. by apply bool_decide_eq_true in Hid.
Qed.

Lemma find_block_is_Some id bbs :
  id ∈ map bb_id bbs → is_Some (find_block id bbs).
Proof.
  unfold find_block. induction bbs as [|b bbs IH]; simpl.
  - intros H. by apply elem_of_nil in H.
  - intros H. case_bool_decide as Hb; [eauto|].
    apply elem_of_cons in H as [->|H]; [done|by apply IH].
Qed.

Lemma find_block_NoDup bbs b :
  NoDup (map bb_id bbs) → b ∈ bbs → find_block (bb_id b) bbs = Some b.
Proof.
  unfold find_block. induction bbs as [|x bbs IH]; simpl; intros Hnd Hin.
  - by apply elem_of_nil in Hin.
  - apply NoDup_cons in Hnd as [Hx Hnd].
    apply elem_of_cons in Hin as [->|Hin].
    + by rewrite bool_decide_true.
    + rewrite bool_decide_false; [by apply IH|].
      intros Heq. apply Hx. rewrite Heq. by apply list_elem_of_fmap_2.
Qed.

(** One step of the loop leaves the verdict and the operand of the other
    predecessors as they were. *)
Lemma merge_step_other phi p ops bbs q :
  q ≠ p → not_a_return phi bbs → ends_in_return bbs q = true →
  let bbs' := update_block p removeLastInstr (modify_instr phi (appendInputs ops) bbs) in
  ends_in_return bbs' q = true ∧ return_value bbs' q = return_value bbs q.
Proof.
  intros Hq Hfresh Hret bbs'. subst bbs'.
  unfold ends_in_return, return_value in *.
  unfold update_block. rewrite find_block_map_other; cycle 1.
  { intros b. by case_bool_decide. }
  { intros b Hb. rewrite bool_decide_false; [done|congruence]. }
  unfold modify_instr. rewrite find_block_map by done.
  destruct (find_block q bbs) as [b|] eqn:Hb; [|done]. simpl in *.
  apply find_block_Some in Hb as [Hin _].
  unfold getLastInstr, modify_in_block in *. simpl.
  rewrite fmap_last.
  destruct (last (instructions b)) as [r|] eqn:Hr; [|done]. simpl.
  apply bool_decide_eq_true in Hret.
  rewrite bool_decide_false; [split; [by apply bool_decide_eq_true_2|done]|].
  eapply Hfresh; [done| |done]. by eapply last_Some_elem_of.
Qed.

Lemma merge_step_not_other phi p ops bbs q :
  q ≠ p → ends_in_return bbs q = false →
  ends_in_return
    (update_block p removeLastInstr (modify_instr phi (appendInputs ops) bbs)) q = false.
Proof.
  intros Hq Hret. unfold ends_in_return in *.
  unfold update_block. rewrite find_block_map_other; cycle 1.
  { intros b. by case_bool_decide. }
  { intros b Hb. rewrite bool_decide_false; [done|congruence]. }
  unfold modify_instr. rewrite find_block_map by done.
  destruct (find_block q bbs) as [b|] eqn:Hb; [|done]. simpl in *.
  unfold getLastInstr, modify_in_block in *. simpl.
  rewrite fmap_last.
  destruct (last (instructions b)) as [r|] eqn:Hr; [|done]. simpl.
  unfold isReturn in *. by destruct (bool_decide (instr_id r = phi)).
Qed.

Lemma elem_of_removelast {A} (x : A) (l : list A) : x ∈ removelast l → x ∈ l.
Proof.
  induction l as [|y [|z l] IH]; simpl; [done| |].
  - intros H. by apply elem_of_nil in H.
  - intros H. apply elem_of_cons in H as [->|H]; [by left|right; by apply IH].
Qed.

Lemma not_a_return_step phi p ops bbs :
  not_a_return phi bbs →
  not_a_return phi
    (update_block p removeLastInstr (modify_instr phi (appendInputs ops) bbs)).
Proof.
  intros Hfresh b i Hb Hi Hop.
  unfold update_block, modify_instr in Hb.
  apply list_elem_of_fmap in Hb as (b1 & -> & Hb).
  apply list_elem_of_fmap in Hb as (b0 & -> & Hb).
  assert (i ∈ instructions (modify_in_block phi (appendInputs ops) b0)) as Hi'.
  { case_bool_decide; [|done]. by apply elem_of_removelast. }
  simpl in Hi'. apply list_elem_of_fmap in Hi' as (i0 & -> & Hi0).
  case_bool_decide as Hid.
  - exfalso. eapply Hfresh; [done..| |done]. by destruct i0.
  - by eapply Hfresh.
Qed.

Lemma drop_returns_eq rets bbs :
  drop_returns rets bbs
  = map (λ b, if bool_decide (bb_id b ∈ rets) then removeLastInstr b else b) bbs.
Proof. done. Qed.

Lemma drop_returns_nil bbs : drop_returns [] bbs = bbs.
Proof.
  unfold drop_returns. rewrite <- (map_id bbs) at 2. apply map_ext. intros b.
  rewrite bool_decide_false; [done|]. apply not_elem_of_nil.
Qed.

Lemma modify_instr_nil phi bbs : modify_instr phi (appendInputs []) bbs = bbs.
Proof.
  unfold modify_instr. rewrite <- (map_id bbs) at 2. apply map_ext. intros b.
  apply modify_in_block_id.
Qed.

Lemma filter_true_ext {A} (f g : A → bool) (l : list A) :
  (∀ x, x ∈ l → f x = g x) →
  filter (λ x, f x = true) l = filter (λ x, g x = true) l.
Proof.
  induction l as [|a l IH]; intros H; [done|].
  rewrite !filter_cons, (H a) by left. rewrite IH; [done|].
  intros x Hx. apply H. by right.
Qed.

(** The effect of one iteration of the loop followed by that of the
    remaining ones, as one update of the phi and one removal of returns. *)
Lemma merge_step_compose phi p ops1 ops2 rets bbs :
  p ∉ rets →
  modify_instr phi (appendInputs ops2)
    (drop_returns rets
       (update_block p removeLastInstr (modify_instr phi (appendInputs ops1) bbs)))
  = modify_instr phi (appendInputs (ops1 ++ ops2)) (drop_returns (p :: rets) bbs).
Proof.
  intros Hp. rewrite !drop_returns_eq. unfold modify_instr, update_block.
  rewrite !map_map. apply map_ext. intros b.
  assert (bb_id (modify_in_block phi (appendInputs ops1) b) = bb_id b) as Hid by done.
  rewrite Hid.
  destruct (decide (bb_id b = p)) as [Hb|Hb].
  - rewrite (bool_decide_true _ Hb).
    assert (bb_id b ∉ rets) as Hnot by (by rewrite Hb).
    assert (bb_id b ∈ p :: rets) as Hin by (rewrite Hb; left).
    simpl. rewrite (bool_decide_false _ Hnot), (bool_decide_true _ Hin).
    rewrite <- modify_in_block_removeLastInstr, modify_in_block_append.
    by rewrite modify_in_block_removeLastInstr.
  - rewrite (bool_decide_false _ Hb). rewrite Hid.
    destruct (decide (bb_id b ∈ rets)) as [Hr|Hr].
    + assert (bb_id b ∈ p :: rets) as Hin by (by right).
      rewrite (bool_decide_true _ Hr), (bool_decide_true _ Hin).
      rewrite <- modify_in_block_removeLastInstr, modify_in_block_append.
      by rewrite modify_in_block_removeLastInstr.
    + assert (bb_id b ∉ p :: rets) as Hin.
      { intros H. apply elem_of_cons in H as [?|?]; done. }
      rewrite (bool_decide_false _ Hr), (bool_decide_false _ Hin).
      apply modify_in_block_append.
Qed.

Lemma modify_instr_twice phi ops1 ops2 bbs :
  modify_instr phi (appendInputs ops2) (modify_instr phi (appendInputs ops1) bbs)
  = modify_instr phi (appendInputs (ops1 ++ ops2)) bbs.
Proof.
  unfold modify_instr. rewrite map_map. apply map_ext. intros b.
  apply modify_in_block_append.
Qed.

(** The places of a list of predecessors. *)
Lemma elem_of_first_places q l : q ∈ first_places l ↔ q ∈ l.
Proof.
  induction l as [|p l IH]; [done|]. simpl.
  rewrite !elem_of_cons, list_elem_of_filter, IH.
  destruct (decide (q = p)) as [Hq|Hq]; [split; by left|].
  split; [intros [?|[_ ?]]; [done|by right]|intros [?|?]; [done|by right]].
Qed.

Lemma first_places_filter (P : BlockId → Prop) `{∀ x, Decision (P x)} l :
  first_places (filter P l) = filter P (first_places l).
Proof.
  induction l as [|p l IH]; [done|].
  destruct (decide (P p)) as [Hp|Hp].
  - rewrite filter_cons_True by done. simpl.
    rewrite filter_cons_True by done. f_equal.
    rewrite IH, !list_filter_filter. apply list_filter_iff.
    intros q. split; intros [? ?]; by split.
  - rewrite filter_cons_False by done. simpl.
    rewrite filter_cons_False by done.
    rewrite IH, list_filter_filter. apply list_filter_iff.
    intros q. split; [|by intros [? _]]. intros Hq. split; [done|]. by intros ->.
Qed.

Lemma first_places_NoDup l : NoDup l → first_places l = l.
Proof.
  induction 1 as [|p l Hp _ IH]; [done|]. simpl. rewrite IH. f_equal.
  clear IH. induction l as [|q l IH]; [done|].
  apply not_elem_of_cons in Hp as [Hne Hp].
  rewrite filter_cons_True by done. by rewrite IH.
Qed.

Lemma filter_iff_in {A} (P Q : A → Prop) `{∀ x, Decision (P x)} `{∀ x, Decision (Q x)}
    (l : list A) :
  (∀ x, x ∈ l → P x ↔ Q x) → filter P l = filter Q l.
Proof.
  induction l as [|a l IH]; intros Hl; [done|].
  rewrite !filter_cons.
  destruct (decide (P a)) as [Ha|Ha], (decide (Q a)) as [Hb|Hb].
  - f_equal. apply IH. intros x Hx. apply Hl. by right.
  - exfalso. apply Hb, (Hl a); [by left|done].
  - exfalso. apply Ha, (Hl a); [by left|done].
  - apply IH. intros x Hx. apply Hl. by right.
Qed.

(** The returns of a block stay at its end when the phi takes inputs, and
    none is left when the last instruction is removed. *)
Lemma returns_last_modify phi g l :
  (∀ i, opcode (g i) = opcode i) →
  returns_last l →
  returns_last (map (λ i, if bool_decide (instr_id i = phi) then g i else i) l).
Proof.
  intros Hg Hl n i Hn Hop.
  change (map ?h l !! n) with ((h <$> l) !! n) in Hn.
  rewrite list_lookup_fmap in Hn.
  destruct (l !! n) as [i0|] eqn:Hi0; [|done]. simpl in Hn. injection Hn as <-.
  rewrite length_map. apply (Hl n i0 Hi0).
  revert Hop. case_bool_decide; [by rewrite Hg|done].
Qed.

Lemma returns_last_removelast l i :
  returns_last l → i ∈ removelast l → opcode i ≠ kReturn.
Proof.
  intros Hl Hi Hop.
  destruct (last l) as [y|] eqn:Hlast.
  - apply last_Some in Hlast as [l' ->]. rewrite removelast_last in Hi.
    apply list_elem_of_lookup in Hi as [n Hn].
    pose proof (lookup_lt_Some _ _ _ Hn) as Hlt.
    specialize (Hl n i). rewrite lookup_app_l in Hl by done.
    specialize (Hl Hn Hop). rewrite length_app in Hl. simpl in Hl. lia.
  - apply last_None in Hlast as ->. by apply elem_of_nil in Hi.
Qed.

(** The block that a predecessor designates after one iteration of the
    loop for the predecessor [p]. *)
Lemma merge_step_find phi p ops bbs q b :
  find_block q (update_block p removeLastInstr (modify_instr phi (appendInputs ops) bbs))
  = Some b →
  ∃ b0, find_block q bbs = Some b0 ∧
        instructions b
        = (if bool_decide (q = p) then removelast (A:=Instruction) else id)
            (map (λ i, if bool_decide (instr_id i = phi) then appendInputs ops i else i)
                 (instructions b0)).
Proof.
  unfold update_block, modify_instr.
  rewrite find_block_map by (intros x; by case_bool_decide).
  rewrite find_block_map by done.
  destruct (find_block q bbs) as [b0|] eqn:Hb0; [|done]. simpl.
  intros [= <-]. exists b0. split; [done|].
  apply find_block_Some in Hb0 as [_ Hid]. simpl. rewrite Hid.
  by case_bool_decide.
Qed.

Lemma ends_once_step phi p ops rest bbs :
  ends_once (p :: rest) bbs →
  ends_once rest
    (update_block p removeLastInstr (modify_instr phi (appendInputs ops) bbs)).
Proof.
  intros Honce q b Hq Hb.
  apply merge_step_find in Hb as (b0 & Hb0 & Hins).
  destruct (Honce q b0) as [Hnd|Hrl]; [by right|done| |].
  - left. by apply NoDup_cons in Hnd as [_ Hnd].
  - right. rewrite Hins.
    assert (returns_last
              (map (λ i, if bool_decide (instr_id i = phi) then appendInputs ops i else i)
                 (instructions b0))) as Hrl' by (by apply returns_last_modify).
    case_bool_decide; [|done].
    intros n i Hn Hop. exfalso.
    eapply returns_last_removelast; [exact Hrl'| |exact Hop].
    by eapply list_elem_of_lookup_2.
Qed.

(** After the iteration for [p], the block of [p] does not end in a return
    when [p] is named again. *)
Lemma ends_once_again phi p ops rest bbs pred_bb :
  ends_once (p :: rest) bbs → find_block p bbs = Some pred_bb → p ∈ rest →
  ends_in_return
    (update_block p removeLastInstr (modify_instr phi (appendInputs ops) bbs)) p = false.
Proof.
  intros Honce Hfind Hin.
  destruct (Honce p pred_bb) as [Hnd|Hrl]; [by left|done| |].
  { by apply NoDup_cons in Hnd as [Hnd _]. }
  unfold ends_in_return.
  destruct (find_block p (update_block p removeLastInstr
                            (modify_instr phi (appendInputs ops) bbs)))
    as [b|] eqn:Hb; [|done]. simpl.
  apply merge_step_find in Hb as (b0 & Hb0 & Hins).
  rewrite Hfind in Hb0. injection Hb0 as <-.
  rewrite bool_decide_true in Hins by done.
  unfold getLastInstr. destruct (last (instructions b)) as [r|] eqn:Hr; [|done].
  apply bool_decide_eq_false.
  eapply (returns_last_removelast
            (map (λ i, if bool_decide (instr_id i = phi) then appendInputs ops i else i)
                 (instructions pred_bb))).
  - by apply returns_last_modify.
  - rewrite <- Hins. by eapply last_Some_elem_of.
Qed.

(** The loop of [resolveReturnValue]: when it completes, the phi has
    received, in the order of the predecessors, a label and an operand for
    each predecessor that ends in a return, and these returns are removed;
    nothing else has changed. *)
Lemma merge_returns_spec phi : ∀ preds bbs bbs',
  ends_once preds bbs →
  not_a_return phi bbs →
  merge_returns phi preds bbs = Ok bbs' →
  let rets := returning bbs preds in
  bbs' = modify_instr phi (appendInputs (merged_inputs bbs rets)) (drop_returns rets bbs)
  ∧ Forall (λ p, is_Some (return_value bbs p)) rets.
Proof.
  induction preds as [|p rest IH]; intros bbs bbs' Honce Hfresh Hm;
    cbv zeta in *; unfold returning in *.
  - simpl in Hm. injection Hm as <-. simpl.
    split; [|done]. by rewrite drop_returns_nil, modify_instr_nil.
  - assert (ends_once rest bbs) as Honce_rest.
    { intros q b Hq Hb. destruct (Honce q b) as [Hnd|Hrl]; [by right|done| |by right].
      left. by apply NoDup_cons in Hnd as [_ Hnd]. }
    simpl in Hm. apply bind_Ok in Hm as (pred_bb & Hfind & Hm).
    apply of_option_Ok in Hfind.
    assert (ends_in_return bbs p
            = match getLastInstr pred_bb with
              | Some i => isReturn i
              | None => false
              end) as Hend by (unfold ends_in_return; by rewrite Hfind).
    destruct (getLastInstr pred_bb) as [lastInstr|] eqn:Hlast.
    2:{ rewrite filter_cons_False by (by rewrite Hend). by apply IH. }
    destruct (isReturn lastInstr) eqn:Hret.
    2:{ rewrite filter_cons_False by (by rewrite Hend). by apply IH. }
    rewrite filter_cons_True by (by rewrite Hend).
    destruct (getInput lastInstr 0) as [value|] eqn:Hval; [|done].
    rewrite modify_instr_twice in Hm. cbn [app] in Hm.
    set (bbs1 := update_block p removeLastInstr
                   (modify_instr phi (appendInputs [Label p; value]) bbs)) in *.
    apply IH in Hm as [-> Hvals];
      [|by apply ends_once_step|by apply not_a_return_step].
    set (rets0 := first_places (filter (λ q, ends_in_return bbs q = true) rest)).
    assert (first_places (filter (λ q, ends_in_return bbs1 q = true) rest)
            = filter (λ q, q ≠ p) rets0) as Hfilter.
    { unfold rets0. rewrite <- first_places_filter, list_filter_filter. f_equal.
      apply filter_iff_in. intros q Hq.
      destruct (decide (q = p)) as [->|Hne].
      - unfold bbs1. rewrite (ends_once_again phi p _ rest bbs pred_bb) by done.
        split; [done|by intros [? _]].
      - destruct (ends_in_return bbs q) eqn:E.
        + destruct (merge_step_other phi p [Label p; value] bbs q Hne Hfresh E)
            as [Hq1 _]. fold bbs1 in Hq1. by rewrite Hq1.
        + pose proof (merge_step_not_other phi p [Label p; value] bbs q Hne E) as Hq1.
          fold bbs1 in Hq1. rewrite Hq1. split; [done|by intros [_ ?]]. }
    rewrite Hfilter in *. cbn [first_places]. fold rets0.
    set (rets := filter (λ q, q ≠ p) rets0) in *.
    assert (∀ q, q ∈ rets → q ≠ p ∧ ends_in_return bbs q = true) as Hrets.
    { intros q Hq. apply list_elem_of_filter in Hq as [Hne Hq]. split; [done|].
      apply elem_of_first_places, list_elem_of_filter in Hq as [E _]. done. }
    assert (∀ q, q ∈ rets → return_value bbs1 q = return_value bbs q) as Hsame.
    { intros q Hq. destruct (Hrets q Hq) as [Hne E]. unfold bbs1.
      by destruct (merge_step_other phi p [Label p; value] bbs q Hne Hfresh E) as [_ ->]. }
    assert (p ∉ rets) as Hnot.
    { intros H. by destruct (Hrets p H). }
    assert (return_value bbs p = Some value) as Hpv.
    { unfold return_value. rewrite Hfind. simpl. rewrite Hlast. done. }
    split.
    + unfold bbs1. rewrite merge_step_compose by done. f_equal. f_equal.
      simpl. rewrite Hpv. simpl. do 2 f_equal.
      unfold merged_inputs. clear -Hsame.
      induction rets as [|q rets IH]; [done|]. simpl.
      rewrite Hsame by left. f_equal. f_equal. apply IH.
      intros q' Hq'. apply Hsame. by right.
    + constructor; [by rewrite Hpv|].
      rewrite Forall_forall in Hvals. apply Forall_forall. intros q Hq.
      rewrite <- Hsame by done. by apply Hvals.
Qed.

Lemma map_bb_id_update_block p g bbs :
  (∀ b, bb_id (g b) = bb_id b) →
  map bb_id (update_block p g bbs) = map bb_id bbs.
Proof.
  intros Hg. unfold update_block. rewrite map_map. apply map_ext.
  intros b. by case_bool_decide.
Qed.

Lemma map_bb_id_modify_instr id g bbs :
  map bb_id (modify_instr id g bbs) = map bb_id bbs.
Proof. unfold modify_instr. rewrite map_map. by apply map_ext. Qed.


End ReturnMerging.

(** ** The spliced caller *)

Section Splice.

Lemma bb_id_lt_fresh b bbs : b ∈ bbs → bb_id b < fresh_block_id bbs.
Proof.
  intros H. unfold fresh_block_id.
  assert (bb_id b ≤ max_list (map bb_id bbs)); [|lia].
  apply max_list_elem_of_le. by apply list_elem_of_fmap_2.
Qed.

Lemma instrs_before_sub call l i : i ∈ instrs_before call l → i ∈ l.
Proof.
  induction l as [|x l IH]; simpl; [done|].
  case_bool_decide; [intros Hin; by apply elem_of_nil in Hin|].
  intros Hin. apply elem_of_cons in Hin as [->|Hin]; [by left|right; by apply IH].
Qed.

Lemma instrs_after_head call l :
  call ∈ map instr_id l →
  ∃ ci rest, drop (length (instrs_before call l)) l = ci :: rest ∧ instr_id ci = call.
Proof.
  induction l as [|x l IH]; simpl; intros H; [by apply elem_of_nil in H|].
  case_bool_decide as Hx; simpl; [by exists x, l|].
  apply elem_of_cons in H as [->|H]; [done|by apply IH].
Qed.

Lemma elem_of_all_instructions f b i :
  b ∈ basicblocks f → i ∈ instructions b → i ∈ all_instructions f.
Proof.
  intros Hb Hi. unfold all_instructions. apply list_elem_of_In, in_concat.
  exists (instructions b). split; [|by apply list_elem_of_In].
  apply in_map. by apply list_elem_of_In.
Qed.

Lemma elem_of_take_sub {A} (x : A) n l : x ∈ take n l → x ∈ l.
Proof. intros H. rewrite <- (take_drop n l). apply elem_of_app. by left. Qed.

Lemma elem_of_drop_sub {A} (x : A) n l : x ∈ drop n l → x ∈ l.
Proof. intros H. rewrite <- (take_drop n l). apply elem_of_app. by right. Qed.

Lemma splice_shape f callee call k block1 bbs1 block2 :
  block_index_of call f = Some (k, block1) →
  basicblocks callee ≠ [] →
  splitBefore k block1 call (basicblocks f) = (bbs1, block2) →
  ∃ pre post block_base instr_base,
    copyFrom callee (bb_id block1) block2 bbs1 =
      Ok (pre ++ wire (bb_id block1) block2
                   (map (copy_block block_base instr_base) (basicblocks callee)) ++ post,
          (Z.of_nat (length pre),
           Z.of_nat (length pre + length (basicblocks callee)))) ∧
    Forall (from_caller f block_base) (pre ++ post) ∧
    bb_id block1 ∈ map bb_id pre ∧
    (∃ pre0 b1,
       pre = pre0 ++ [b1] ∧ map bb_id pre0 = map bb_id (take k (basicblocks f)) ∧
       bb_id b1 = bb_id block1 ∧
       instructions b1 = instrs_before call (instructions block1)) ∧
    ∃ b2 post' ci rest,
      post = b2 :: post' ∧ bb_id b2 = block2 ∧
      instructions b2 = ci :: rest ∧ instr_id ci = call.
Proof.
  intros Hidx Hne Hsplit.
  apply list_find_Some in Hidx as (Hk & Hcall & _).
  unfold splitBefore in Hsplit. injection Hsplit as <- <-.
  set (bbs0 := basicblocks f) in *.
  set (nb := fresh_block_id bbs0).
  set (rt := retarget_pred (bb_id block1) nb).
  set (b1' := mkBlock (bb_id block1) _ _ _).
  set (b2 := mkBlock nb _ _ _).
  set (A := map rt (take k bbs0)).
  set (B := map rt (drop (S k) bbs0)).
  assert (length A = k) as HlenA.
  { unfold A. rewrite length_map, length_take.
    apply lookup_lt_Some in Hk. lia. }
  assert (∀ b, b ∈ A ++ b1' :: b2 :: B →
            bb_id b ≤ nb ∧ Forall (λ i, i ∈ all_instructions f) (instructions b)) as Hall.
  { intros b Hb. apply elem_of_app in Hb as [Hb|Hb];
      [|apply elem_of_cons in Hb as [->|Hb]; [|apply elem_of_cons in Hb as [->|Hb]]].
    - apply list_elem_of_fmap in Hb as (b0 & -> & Hb0).
      apply elem_of_take_sub in Hb0.
      split; [apply Nat.lt_le_incl, (bb_id_lt_fresh _ _ Hb0)|].
      apply Forall_forall. intros i Hi. by eapply elem_of_all_instructions.
    - apply list_elem_of_lookup_2 in Hk.
      split; [apply Nat.lt_le_incl, (bb_id_lt_fresh _ _ Hk)|].
      apply Forall_forall. intros i Hi. simpl in Hi. apply instrs_before_sub in Hi.
      by eapply elem_of_all_instructions.
    - apply list_elem_of_lookup_2 in Hk.
      split; [done|].
      apply Forall_forall. intros i Hi. simpl in Hi.
      apply elem_of_drop_sub in Hi.
      by eapply elem_of_all_instructions.
    - apply list_elem_of_fmap in Hb as (b0 & -> & Hb0).
      apply elem_of_drop_sub in Hb0.
      split; [apply Nat.lt_le_incl, (bb_id_lt_fresh _ _ Hb0)|].
      apply Forall_forall. intros i Hi. by eapply elem_of_all_instructions. }
  assert (list_find (λ b, bb_id b = nb) (A ++ b1' :: b2 :: B) = Some (S k, b2)) as Hfind.
  { apply list_find_Some. split; [|split; [done|]].
    - rewrite lookup_app_r by lia. by rewrite HlenA, Nat.sub_succ_l, Nat.sub_diag.
    - intros j y Hj Hlt Hy.
      destruct (decide (j < k)) as [Hjk|Hjk].
      + rewrite lookup_app_l in Hj by lia.
        apply list_elem_of_lookup_2 in Hj.
        apply list_elem_of_fmap in Hj as (b0 & -> & Hb0).
        apply elem_of_take_sub in Hb0.
        pose proof (bb_id_lt_fresh _ _ Hb0). simpl in Hy. unfold nb in Hy. lia.
      + assert (j = k) as -> by lia.
        rewrite lookup_app_r in Hj by lia.
        rewrite HlenA, Nat.sub_diag in Hj. injection Hj as <-.
        apply list_elem_of_lookup_2 in Hk.
        pose proof (bb_id_lt_fresh _ _ Hk). simpl in Hy. unfold nb in Hy. lia. }
  unfold copyFrom. rewrite Hfind. cbn [mbind Outcome_bind of_option].
  set (bbs1 := A ++ b1' :: b2 :: B) in *.
  set (block_base := fresh_block_id bbs1).
  set (instr_base := fresh_instr_id bbs1).
  destruct (basicblocks callee) as [|c cs] eqn:Hcs; [done|].
  cbn [map].
  set (copies := copy_block block_base instr_base c
                   :: map (copy_block block_base instr_base) cs).
  match goal with |- context [update_block nb ?g (update_block (bb_id block1) ?g1 bbs1)] =>
    set (bbs' := update_block nb g (update_block (bb_id block1) g1 bbs1)) end.
  assert (∃ hh, bbs' = map hh bbs1 ∧
            ∀ b, bb_id (hh b) = bb_id b ∧ instructions (hh b) = instructions b)
    as (hh & Hbbs' & Hhh).
  { eexists (λ b, _). split.
    - unfold bbs', update_block. rewrite map_map. reflexivity.
    - intros b. simpl. repeat case_bool_decide; done. }
  exists (take (S k) bbs'), (drop (S k) bbs'), block_base, instr_base.
  assert (length (take (S k) bbs') = S k) as Hlen.
  { rewrite length_take, Hbbs', length_map. unfold bbs1.
    rewrite length_app, HlenA. cbn [length]. lia. }
  split; [|split; [|split; [|split]]].
  - rewrite Hlen. unfold wire, copies. cbn [length]. by rewrite length_map.
  - rewrite take_drop, Hbbs'. apply Forall_fmap, Forall_forall.
    intros b Hb. destruct (Hhh b) as [Hid Hins].
    unfold from_caller. simpl. rewrite Hid, Hins.
    split; [apply (bb_id_lt_fresh _ _ Hb)|]. by apply Hall.
  - apply list_elem_of_fmap. exists (hh b1').
    split; [by destruct (Hhh b1') as [-> _]|].
    apply elem_of_take. exists k. split; [|lia].
    rewrite Hbbs', list_lookup_fmap. unfold bbs1.
    rewrite lookup_app_r by lia. by rewrite HlenA, Nat.sub_diag.
  - exists (map hh A), (hh b1').
    split; [|split; [|split]].
    + rewrite Hbbs'. change (map hh bbs1) with (hh <$> bbs1).
      rewrite <- fmap_take. unfold bbs1.
      rewrite take_app_ge by lia. rewrite HlenA.
      replace (S k - k) with 1 by lia. simpl.
      by rewrite fmap_app.
    + rewrite map_map. unfold A. rewrite map_map. apply map_ext.
      intros b. by destruct (Hhh (rt b)) as [-> _].
    + by destruct (Hhh b1') as [-> _].
    + by destruct (Hhh b1') as [_ ->].
  - rewrite Hbbs', <- fmap_drop. unfold bbs1.
    rewrite drop_app_ge by lia. rewrite HlenA.
    replace (S k - k) with 1 by lia. simpl.
    destruct (Hhh b2) as [Hid Hins].
    destruct (instrs_after_head call (instructions block1) Hcall) as (ci & rest & Hci & Hcid).
    exists (hh b2), (map hh B), ci, rest.
    split; [done|]. split; [by rewrite Hid|]. split; [|done].
    by rewrite Hins.
Qed.


Lemma removelast_snoc_last {A} (l : list A) (x : A) :
  last l = Some x → l = removelast l ++ [x].
Proof.
  intros H. apply last_Some in H as [l' ->]. by rewrite removelast_last.
Qed.

(** Wiring changes neither the identity nor the instructions of a block. *)
Lemma wire_same_code block1 block2 l :
  Forall2 (λ b b', bb_id b' = bb_id b ∧ instructions b' = instructions b)
          l (wire block1 block2 l).
Proof.
  unfold wire, add_succ_to_last.
  assert (Forall2 (λ b b', bb_id b' = bb_id b ∧ instructions b' = instructions b)
            l (add_pred_to_first block1 l)) as H1.
  { destruct l as [|b rest]; simpl; [constructor|].
    constructor; [done|]. apply Forall2_same_length_lookup_2; [done|].
    intros i x y Hx Hy. by simplify_eq. }
  destruct (last (add_pred_to_first block1 l)) as [x|] eqn:Hlast; [|done].
  rewrite (removelast_snoc_last _ _ Hlast) in H1.
  apply Forall2_app_inv_r in H1 as (l1 & l2 & H1 & H2 & ->).
  apply Forall2_app; [done|].
  apply Forall2_cons_inv_r in H2 as (y & l2' & Hy & H2 & ->).
  apply Forall2_nil_inv_r in H2 as ->.
  constructor; [done|constructor].
Qed.

(** The predecessors of the last wired block. *)
Lemma wire_last_predecessors block1 block2 l x :
  last l = Some x →
  ∃ e, last (wire block1 block2 l) = Some e ∧
       predecessors e =
       predecessors x ++ (if bool_decide (length l = 1) then [block1] else []).
Proof.
  intros Hx. unfold wire, add_succ_to_last.
  destruct l as [|b rest]; [done|]. simpl.
  destruct rest as [|b' rest].
  - simpl in *. injection Hx as <-. eexists. split; [done|]. done.
  - cbn [length]. rewrite bool_decide_false by lia. rewrite app_nil_r.
    change (last (setPredecessors (predecessors b ++ [block1]) b :: b' :: rest))
      with (last (b' :: rest)).
    change (last (b :: b' :: rest)) with (last (b' :: rest)) in Hx.
    rewrite Hx. eexists. rewrite last_snoc. split; done.
Qed.

End Splice.

(** ** The return-value merger on the spliced caller *)

Section Merger.

Lemma instr_id_lt_fresh b i bbs :
  b ∈ bbs → i ∈ instructions b → instr_id i < fresh_instr_id bbs.
Proof.
  intros Hb Hi. unfold fresh_instr_id.
  assert (instr_id i ≤ max_list (map instr_id (concat (map instructions bbs)))); [|lia].
  apply max_list_elem_of_le. apply list_elem_of_fmap_2.
  apply list_elem_of_In, in_concat. exists (instructions b).
  split; [|by apply list_elem_of_In]. apply in_map. by apply list_elem_of_In.
Qed.

Lemma find_block_app id l1 l2 :
  id ∉ map bb_id l1 → find_block id (l1 ++ l2) = find_block id l2.
Proof.
  unfold find_block. induction l1 as [|b l1 IH]; intros Hid; [done|]. simpl.
  rewrite bool_decide_false.
  - apply IH. intros H. apply Hid. simpl. by right.
  - intros H. apply Hid. simpl. rewrite H. by left.
Qed.

Lemma find_block_app_l id l1 l2 :
  id ∈ map bb_id l1 → find_block id (l1 ++ l2) = find_block id l1.
Proof.
  unfold find_block. induction l1 as [|b l1 IH]; intros Hid.
  - by apply elem_of_nil in Hid.
  - simpl. case_bool_decide as Hb; [done|].
    apply IH. simpl in Hid. apply elem_of_cons in Hid as [?|?]; [congruence|done].
Qed.

Lemma find_block_here id b l : bb_id b = id → find_block id (b :: l) = Some b.
Proof. intros H. unfold find_block. simpl. by rewrite bool_decide_true. Qed.

Lemma find_block_skip id b l : bb_id b ≠ id → find_block id (b :: l) = find_block id l.
Proof. intros H. unfold find_block. simpl. by rewrite bool_decide_false. Qed.

(** Replacing a block by one of the same identity changes nothing for the
    other identities. *)
Lemma find_block_replace p l1 x x' l2 :
  bb_id x' = bb_id x → p ≠ bb_id x →
  find_block p (l1 ++ x' :: l2) = find_block p (l1 ++ x :: l2).
Proof.
  intros Hid Hp.
  destruct (decide (p ∈ map bb_id l1)) as [Hin|Hin].
  - by rewrite !find_block_app_l.
  - rewrite !find_block_app by done.
    rewrite !find_block_skip; [done|congruence..].
Qed.

Lemma modify_in_block_fresh id g b :
  Forall (λ i, instr_id i ≠ id) (instructions b) → modify_in_block id g b = b.
Proof.
  destruct b as [n l ps ss]. unfold modify_in_block, setInstructions. simpl.
  intros H. f_equal. induction H as [|i l Hi _ IH]; [done|]. simpl.
  by rewrite IH, bool_decide_false.
Qed.

Lemma find_instr_middle id l1 b l2 i :
  Forall (λ b', Forall (λ i', instr_id i' ≠ id) (instructions b')) l1 →
  instructions b = [i] → instr_id i = id →
  find_instr id (mkFunction (l1 ++ b :: l2)) = Some i.
Proof.
  intros Hl1 Hb Hi. unfold find_instr, all_instructions. simpl.
  rewrite map_app, concat_app. simpl. rewrite Hb. simpl.
  induction Hl1 as [|b' l1 Hb' _ IH]; simpl.
  - by rewrite bool_decide_true.
  - rewrite <- app_assoc.
    induction Hb' as [|i' l' Hi' _ IH']; [done|]. simpl.
    by rewrite bool_decide_false.
Qed.


Lemma insert_middle {A} (l1 l2 : list A) (x y : A) :
  <[length l1 := y]> (l1 ++ x :: l2) = l1 ++ y :: l2.
Proof.
  replace (length l1) with (length l1 + 0) at 1 by lia.
  by rewrite insert_app_r.
Qed.

Section Epilogue.

Context (pm post : list BasicBlock) (epi : BasicBlock) (phi0 : Instruction).
Context (Hempty : instructions epi = []).
Context (Hunique : bb_id epi ∉ map bb_id pm).
Context (Hphi : opcode phi0 = kPhi).

Lemma ends_in_return_epilogue :
  ends_in_return (pm ++ epi :: post) (bb_id epi) = false.
Proof.
  unfold ends_in_return. rewrite find_block_app by done.
  rewrite find_block_here by done. simpl. unfold getLastInstr. by rewrite Hempty.
Qed.

Lemma ends_in_return_with_phi p :
  ends_in_return (pm ++ setInstructions (instructions epi ++ [phi0]) epi :: post) p
  = ends_in_return (pm ++ epi :: post) p.
Proof.
  destruct (decide (p = bb_id epi)) as [->|Hp].
  - rewrite ends_in_return_epilogue.
    unfold ends_in_return. rewrite find_block_app by done.
    rewrite find_block_here by done. simpl. unfold getLastInstr. simpl.
    rewrite last_snoc. unfold isReturn. rewrite Hphi. done.
  - unfold ends_in_return. by rewrite (find_block_replace p pm epi).
Qed.

Lemma return_value_with_phi p :
  p ≠ bb_id epi →
  return_value (pm ++ setInstructions (instructions epi ++ [phi0]) epi :: post) p
  = return_value (pm ++ epi :: post) p.
Proof.
  intros Hp. unfold return_value. by rewrite (find_block_replace p pm epi).
Qed.

End Epilogue.

(** The loop of [resolveReturnValue] on a caller in which the epilogue
    [epi] is empty and is the first block of its identity, and a
    predecessor that is named again does not end in a return again; [pm]
    are the blocks before the epilogue. *)
Lemma merge_on_epilogue pm epi post bbs2 :
  let bbs := pm ++ epi :: post in
  let phi := fresh_instr_id bbs in
  let rets := returning bbs (predecessors epi) in
  let X := merged_inputs bbs rets in
  instructions epi = [] →
  ends_once (predecessors epi) bbs →
  bb_id epi ∉ map bb_id pm →
  merge_returns phi (predecessors epi)
    (pm ++ setInstructions (instructions epi ++ [mkInstr phi kPhi [] (Some VReg)]) epi
        :: post) = Ok bbs2 →
  Forall (λ p, is_Some (return_value bbs p)) rets ∧
  (bb_id epi ∉ rets) ∧
  bbs2 = drop_returns rets
           (pm ++ (setInstructions [mkInstr phi kPhi X (Some VReg)] epi) :: post) ∧
  find_instr phi (mkFunction bbs2) = Some (mkInstr phi kPhi X (Some VReg)).
Proof.
  intros bbs phi rets X Hempty Honce Hupm Hmerge.
  set (phi0 := mkInstr phi kPhi [] (Some VReg)) in *.
  set (epi1 := setInstructions (instructions epi ++ [phi0]) epi) in *.
  set (bbs1 := pm ++ epi1 :: post) in *.
  assert (∀ b i, b ∈ bbs → i ∈ instructions b → instr_id i ≠ phi) as Hfresh.
  { intros b i Hb Hi. pose proof (instr_id_lt_fresh b i bbs Hb Hi). unfold phi. lia. }
  assert (not_a_return phi bbs1) as Hnret.
  { intros b i Hb Hi Hop. unfold bbs1 in Hb.
    apply elem_of_app in Hb as [Hb|Hb]; [|apply elem_of_cons in Hb as [->|Hb]].
    - apply (Hfresh b i); [|done]. apply elem_of_app. by left.
    - unfold epi1 in Hi. simpl in Hi. rewrite Hempty in Hi. simpl in Hi.
      apply list_elem_of_singleton in Hi as ->. done.
    - apply (Hfresh b i); [|done]. apply elem_of_app. right. by right. }
  assert (ends_once (predecessors epi) bbs1) as Honce1.
  { intros p b Hp Hb. destruct (decide (p = bb_id epi)) as [->|Hne].
    - right. unfold bbs1 in Hb. rewrite find_block_app in Hb by done.
      rewrite find_block_here in Hb by done. injection Hb as <-.
      unfold epi1. simpl. rewrite Hempty. simpl.
      intros [|n] i Hn Hop; [|done]. by injection Hn as <-.
    - apply (Honce p b Hp). rewrite <- Hb. unfold bbs, bbs1.
      symmetry. by apply find_block_replace. }
  pose proof (merge_returns_spec phi _ _ _ Honce1 Hnret Hmerge) as [Hbbs2 Hvals].
  cbv zeta in Hbbs2, Hvals.
  assert (returning bbs1 (predecessors epi) = rets) as Hrets.
  { unfold rets, returning. f_equal. apply filter_true_ext. intros p _.
    by apply ends_in_return_with_phi. }
  rewrite Hrets in Hbbs2, Hvals.
  assert (bb_id epi ∉ rets) as Hepi_rets.
  { intros H. apply elem_of_first_places, list_elem_of_filter in H as [H _].
    unfold bbs in H. rewrite ends_in_return_epilogue in H; done. }
  assert (∀ p, p ∈ rets → return_value bbs1 p = return_value bbs p) as Hsame.
  { intros p Hp. apply return_value_with_phi. intros ->. done. }
  assert (merged_inputs bbs1 rets = X) as HX.
  { unfold X, merged_inputs. clear -Hsame. induction rets as [|q l IH]; [done|].
    simpl. rewrite Hsame by left. do 2 f_equal. apply IH.
    intros p Hp. apply Hsame. by right. }
  rewrite HX in Hbbs2.
  split.
  { apply Forall_forall. intros p Hp. rewrite <- Hsame by done.
    rewrite Forall_forall in Hvals. by apply Hvals. }
  split; [done|].
  set (epiX := setInstructions [mkInstr phi kPhi X (Some VReg)] epi).
  assert (∀ b, b ∈ pm ++ post →
            modify_in_block phi (appendInputs X)
              (if bool_decide (bb_id b ∈ rets) then removeLastInstr b else b)
            = (if bool_decide (bb_id b ∈ rets) then removeLastInstr b else b)) as Hother.
  { intros b Hb. apply modify_in_block_fresh. apply Forall_forall. intros i Hi.
    apply (Hfresh b i).
    - apply elem_of_app in Hb as [Hb|Hb]; apply elem_of_app;
        [by left|right; by right].
    - case_bool_decide; [|done]. by apply elem_of_removelast. }
  assert (bbs2 = drop_returns rets (pm ++ epiX :: post)) as Hbbs2'.
  { rewrite Hbbs2. rewrite !drop_returns_eq. unfold bbs1, modify_instr.
    rewrite !map_app, !map_cons. f_equal; [|f_equal].
    - rewrite map_map. apply map_ext_in. intros b Hb. apply Hother.
      apply elem_of_app. left. by apply list_elem_of_In.
    - rewrite bool_decide_false by done.
      assert (bb_id epiX = bb_id epi) as -> by done.
      rewrite bool_decide_false by done.
      unfold modify_in_block, epi1, epiX, setInstructions. simpl.
      rewrite Hempty. simpl. rewrite bool_decide_true by done. done.
    - rewrite map_map. apply map_ext_in. intros b Hb. apply Hother.
      apply elem_of_app. right. by apply list_elem_of_In. }
  split; [done|].
  rewrite Hbbs2'. rewrite drop_returns_eq, map_app, map_cons.
  assert (bb_id epiX = bb_id epi) as -> by done.
  rewrite bool_decide_false by done.
  apply find_instr_middle; [|done..].
  apply Forall_fmap, Forall_forall. intros b Hb. apply Forall_forall. intros i Hi.
  apply (Hfresh b i).
  - apply elem_of_app. by left.
  - simpl in Hi. case_bool_decide; [|done]. by apply elem_of_removelast.
Qed.

Lemma resolveReturnValue_unfold inl pm epi post :
  callee_end_ inl = Z.of_nat (length pm + 1) →
  let bbs := pm ++ epi :: post in
  let phi := fresh_instr_id bbs in
  resolveReturnValue inl bbs =
  (bbs2 ← merge_returns phi (predecessors epi)
            (pm ++ setInstructions (instructions epi ++ [mkInstr phi kPhi [] (Some VReg)]) epi
                :: post);
   phi_now ← of_option Dangling (find_instr phi (mkFunction bbs2));
   if bool_decide (getNumInputs phi_now = 0) then
     Ok (modify_instr (call_instr_ inl) (setOpcode kNop)
           (update_block (bb_id epi) removeLastInstr bbs2))
   else
     Ok (modify_instr (call_instr_ inl)
           (λ i, setInputs [Linked phi] (setOpcode kMove i)) bbs2)).
Proof.
  intros Hend bbs phi. unfold resolveReturnValue.
  assert ((callee_end_ inl - 1)%Z = Z.of_nat (length pm)) as -> by lia.
  unfold bbs. rewrite at_index_middle. cbn [mbind Outcome_bind].
  by rewrite Nat2Z.id, insert_middle.
Qed.

(** [resolveReturnValue] on such a caller: the call becomes a no-op and
    nothing else changes when no predecessor of the epilogue ends in a
    return; otherwise the epilogue holds the phi with a label and an
    operand per such predecessor, these predecessors lose their last
    instruction, and the call becomes a move of the phi. *)
Lemma resolveReturnValue_inv inl pm epi post bbs' :
  callee_end_ inl = Z.of_nat (length pm + 1) →
  instructions epi = [] →
  ends_once (predecessors epi) (pm ++ epi :: post) →
  bb_id epi ∉ map bb_id (pm ++ post) →
  resolveReturnValue inl (pm ++ epi :: post) = Ok bbs' →
  let bbs := pm ++ epi :: post in
  let phi := fresh_instr_id bbs in
  let rets := returning bbs (predecessors epi) in
  Forall (λ p, is_Some (return_value bbs p)) rets ∧
  ((rets = [] ∧ bbs' = modify_instr (call_instr_ inl) (setOpcode kNop) bbs)
   ∨ (rets ≠ [] ∧
      bbs' = modify_instr (call_instr_ inl)
               (λ i, setInputs [Linked phi] (setOpcode kMove i))
               (drop_returns rets
                  (pm ++
                   (setInstructions
                      [mkInstr phi kPhi (merged_inputs bbs rets) (Some VReg)] epi)
                   :: post)))).
Proof.
  intros Hend Hempty Hnd Hunique Hres bbs phi rets.
  assert ((bb_id epi ∉ map bb_id pm) ∧ (bb_id epi ∉ map bb_id post))
    as [Hupm Hupost].
  { rewrite map_app in Hunique. split; intros H; apply Hunique;
      apply elem_of_app; [by left|by right]. }
  rewrite resolveReturnValue_unfold in Hres by done.
  apply bind_Ok in Hres as (bbs2 & Hmerge & Hres).
  apply merge_on_epilogue in Hmerge as (Hvals & Hepi_rets & Hbbs2 & Hfind); [|done..].
  fold bbs phi rets in Hvals, Hepi_rets, Hbbs2, Hfind, Hres.
  split; [done|].
  rewrite Hfind in Hres. cbn [mbind Outcome_bind of_option] in Hres.
  unfold getNumInputs in Hres. simpl in Hres.
  destruct rets as [|r rets'] eqn:Erets.
  - left. split; [done|].
    simpl in Hres. injection Hres as <-. f_equal.
    rewrite Hbbs2. rewrite drop_returns_nil.
    unfold update_block. rewrite map_app, map_cons.
    unfold bbs. f_equal; [|f_equal].
    + rewrite <- (map_id pm) at 2. apply map_ext_in. intros b Hb.
      rewrite bool_decide_false; [done|]. intros Hid. apply Hupm. rewrite <- Hid.
      apply list_elem_of_fmap_2. by apply list_elem_of_In.
    + rewrite bool_decide_true by done. unfold removeLastInstr, setInstructions.
      simpl. destruct epi. simpl in *. by rewrite Hempty.
    + rewrite <- (map_id post) at 2. apply map_ext_in. intros b Hb.
      rewrite bool_decide_false; [done|]. intros Hid. apply Hupost. rewrite <- Hid.
      apply list_elem_of_fmap_2. by apply list_elem_of_In.
  - right. split; [done|].
    rewrite bool_decide_false in Hres by (simpl; lia).
    injection Hres as <-. by rewrite Hbbs2.
Qed.


End Merger.

(** ** The callee in the caller *)

Section Pipeline.

Lemma Forall2_compose {A B C} (R1 : A → B → Prop) (R2 : B → C → Prop)
    (R : A → C → Prop) l1 l2 l3 :
  (∀ x y z, R1 x y → R2 y z → R x z) →
  Forall2 R1 l1 l2 → Forall2 R2 l2 l3 → Forall2 R l1 l3.
Proof.
  intros HR H1. revert l3. induction H1 as [|x y l1 l2 Hxy _ IH]; intros l3 H2.
  - apply Forall2_nil_inv_l in H2 as ->. constructor.
  - apply Forall2_cons_inv_l in H2 as (z & l3' & Hyz & H2 & ->).
    constructor; [by eapply HR|by apply IH].
Qed.

Lemma alike_copy bb ib l : Forall2 alike l (map (copy_instr bb ib) l).
Proof.
  apply Forall2_fmap_r, Forall_Forall2_diag, Forall_forall.
  intros i _. split; [done|]. simpl. by rewrite length_map.
Qed.

Lemma resolved_wired_copy_of args bb ib block1 block2 cs mid' :
  Forall2 (resolved_block args)
          (wire block1 block2 (map (copy_block bb ib) cs)) mid' →
  Forall2 (copy_of bb) cs mid'.
Proof.
  intros Hres.
  pose proof (wire_same_code block1 block2 (map (copy_block bb ib) cs)) as Hw.
  apply Forall2_fmap_l in Hw.
  eapply Forall2_compose; [|exact Hw|exact Hres].
  intros c w b [Hid Hins] (Hid' & _ & _ & vm & vm' & Hr). split.
  - rewrite Hid', Hid. done.
  - rewrite Hins in Hr. simpl in Hr.
    eapply resolve_instrs_derived; [|exact Hr]. apply alike_copy.
Qed.

Lemma resolved_wired_last args bb ib block1 block2 cs mid' x :
  Forall2 (resolved_block args)
          (wire block1 block2 (map (copy_block bb ib) cs)) mid' →
  last cs = Some x →
  ∃ e, last mid' = Some e ∧
       predecessors e =
       map (Nat.add bb) (predecessors x)
       ++ (if bool_decide (length cs = 1) then [block1] else []).
Proof.
  intros Hres Hx.
  assert (last (map (copy_block bb ib) cs) = Some (copy_block bb ib x)) as Hc.
  { change (map (copy_block bb ib) cs) with (copy_block bb ib <$> cs).
    by rewrite fmap_last, Hx. }
  destruct (wire_last_predecessors block1 block2 _ _ Hc) as (e0 & He0 & Hp).
  apply Forall2_last in Hres. rewrite He0 in Hres.
  inversion Hres as [? e Hr| ]; simplify_eq.
  exists e. split; [done|]. destruct Hr as (_ & -> & _).
  rewrite Hp. simpl. by rewrite length_map.
Qed.

(** What the checker says of the callee. *)
Lemma callee_facts callee :
  checkEntryExitReturn callee = true →
  ∃ cs0 exit_block,
    basicblocks callee = cs0 ++ [exit_block] ∧
    instructions exit_block = [] ∧
    (length (basicblocks callee) = 1 → predecessors exit_block = []) ∧
    Forall (λ c, returns_last (instructions c)) (basicblocks callee).
Proof.
  intros Hcheck.
  apply checkEntryExitReturn_true in Hcheck
    as (e & x & He & Hx & Hpe & Hsx & Hcb & Hix).
  pose proof Hx as Hlast. apply last_Some in Hlast as [cs0 Hcs].
  exists cs0, x. split; [done|]. split; [done|]. split.
  - intros Hlen. rewrite Hcs, length_app in Hlen. simpl in Hlen.
    destruct cs0; [|simpl in Hlen; lia].
    unfold getEntryBlock in He. rewrite Hcs in He. simpl in He. by simplify_eq.
  - apply Forall_forall. intros c Hc.
    destruct (check_blocks_true _ _ _ Hcb c Hc) as (_ & _ & Hrets).
    intros n i Hn Hop. by destruct (check_returns_true _ _ _ Hrets n i Hn Hop).
Qed.



Lemma copy_of_ids bb cs mid :
  Forall2 (copy_of bb) cs mid →
  map bb_id mid = map (Nat.add bb) (map bb_id cs).
Proof.
  induction 1 as [|c b cs' bs [Hid _] _ IH]; [done|]. simpl. by rewrite Hid, IH.
Qed.

(** A copy ends in a return exactly when its original does. *)
Lemma derived_ends l l' :
  derived l l' → returns_last l →
  match last l' with Some i => isReturn i | None => false end
  = match last l with Some i => isReturn i | None => false end.
Proof.
  intros Hd Hl. pose proof (derived_last_return _ _ Hd Hl) as Hiff.
  destruct (last l) as [r|] eqn:E, (last l') as [r'|] eqn:E'; unfold isReturn.
  - destruct (decide (opcode r = kReturn)) as [Hr|Hr].
    + destruct (proj1 Hiff) as (x & [= <-] & Hx); [by exists r|].
      by rewrite !bool_decide_true.
    + rewrite (bool_decide_false _ Hr).
      apply bool_decide_eq_false. intros Hr'.
      destruct (proj2 Hiff) as (x & [= <-] & Hx); [by exists r'|]. done.
  - destruct (decide (opcode r = kReturn)) as [Hr|Hr].
    + destruct (proj1 Hiff) as (x & [=] & Hx). by exists r.
    + by rewrite (bool_decide_false _ Hr).
  - apply bool_decide_eq_false. intros Hr'.
    destruct (proj2 Hiff) as (x & [=] & Hx). by exists r'.
  - done.
Qed.

Lemma find_block_None id bbs : id ∉ map bb_id bbs → find_block id bbs = None.
Proof.
  unfold find_block. induction bbs as [|b bbs IH]; [done|]. simpl. intros Hid.
  apply not_elem_of_cons in Hid as [Hne Hid].
  rewrite bool_decide_false by done. by apply IH.
Qed.

Section Spliced.

Context (f callee : Function) (bb : nat) (block1 : BlockId).
Context (pre mid' post : list BasicBlock).
Context (Hcaller : Forall (from_caller f bb) (pre ++ post)).
Context (Hblock1 : block1 ∈ map bb_id pre).
Context (Hcopy : Forall2 (copy_of bb) (basicblocks callee) mid').
Context (Hcheck : checkEntryExitReturn callee = true).
Context (Hdistinct : NoDup (map bb_id (basicblocks callee))).
Context (Hlast : ∀ x, last (basicblocks callee) = Some x →
  ∃ e, last mid' = Some e ∧
       predecessors e =
       map (Nat.add bb) (predecessors x)
       ++ (if bool_decide (length (basicblocks callee) = 1) then [block1] else [])).

Lemma spliced_ids :
  map bb_id mid' = map (Nat.add bb) (map bb_id (basicblocks callee)).
Proof using Hcopy. by apply copy_of_ids. Qed.

Lemma spliced_caller_ids b : b ∈ pre ++ post → bb_id b < bb.
Proof using Hcaller.
  intros Hb. rewrite Forall_forall in Hcaller. by destruct (Hcaller b Hb).
Qed.

Lemma spliced_range_ids b : b ∈ mid' → bb ≤ bb_id b.
Proof using Hcopy.
  intros Hb. apply (list_elem_of_fmap_2 bb_id) in Hb.
  change (bb_id b ∈ map bb_id mid') in Hb. rewrite spliced_ids in Hb.
  apply list_elem_of_fmap in Hb as (n & -> & _). lia.
Qed.

Lemma spliced_NoDup : NoDup (map bb_id mid').
Proof using Hcopy Hdistinct.
  rewrite spliced_ids. by apply (NoDup_fmap_2 (Nat.add bb)).
Qed.

(** A block of the range is found under its identity, and what is found
    under the identity of a copy is a block of the range. *)
Lemma spliced_find_block b :
  b ∈ mid' → find_block (bb_id b) (pre ++ mid' ++ post) = Some b.
Proof using Hcopy Hdistinct Hcaller.
  intros Hb. rewrite find_block_app.
  - rewrite find_block_app_l by (by apply list_elem_of_fmap_2).
    by apply find_block_NoDup; [apply spliced_NoDup|].
  - intros Hin. apply list_elem_of_fmap in Hin as (b' & Heq & Hb').
    pose proof (spliced_range_ids b Hb).
    assert (bb_id b' < bb); [|lia].
    apply spliced_caller_ids. apply elem_of_app. by left.
Qed.

Lemma spliced_find_copy p b :
  find_block p (pre ++ mid' ++ post) = Some b → bb ≤ p →
  ∃ c, c ∈ basicblocks callee ∧ b ∈ mid' ∧ copy_of bb c b.
Proof using Hcopy Hcaller.
  intros Hb Hp. apply find_block_Some in Hb as [Hin Hid].
  assert (b ∈ mid') as Hmid.
  { apply elem_of_app in Hin as [Hin|Hin]; [|apply elem_of_app in Hin as [Hin|Hin]].
    - assert (bb_id b < bb) by (apply spliced_caller_ids, elem_of_app; by left). lia.
    - done.
    - assert (bb_id b < bb) by (apply spliced_caller_ids, elem_of_app; by right). lia. }
  pose proof Hmid as Hj. apply list_elem_of_lookup in Hj as [j Hj].
  destruct (Forall2_lookup_r _ _ _ _ _ Hcopy Hj) as (c & Hc & Hcb).
  exists c. split; [by eapply list_elem_of_lookup_2|done].
Qed.

(** The epilogue and its predecessors. *)
Lemma spliced_epilogue :
  ∃ cs0 exit_block mid0 epi,
    basicblocks callee = cs0 ++ [exit_block] ∧ mid' = mid0 ++ [epi] ∧
    Forall2 (copy_of bb) cs0 mid0 ∧
    instructions epi = [] ∧
    predecessors epi =
      map (Nat.add bb) (predecessors exit_block)
      ++ (if bool_decide (length (basicblocks callee) = 1) then [block1] else []) ∧
    ends_once (predecessors epi) (pre ++ mid' ++ post) ∧
    bb_id epi ∉ map bb_id ((pre ++ mid0) ++ post).
Proof using All.
  destruct (callee_facts callee Hcheck) as (cs0 & x & Hcs & Hix & Hone & Hall).
  destruct (Hlast x) as (epi & Hepi & Hpreds); [by rewrite Hcs, last_snoc|].
  pose proof Hepi as Hmid. apply last_Some in Hmid as [mid0 Hmid].
  exists cs0, x, mid0, epi. split; [done|]. split; [done|].
  pose proof Hcopy as Hc. rewrite Hcs, Hmid in Hc.
  apply Forall2_app_inv_l in Hc as (m1 & m2 & Hc0 & Hc1 & Heq).
  apply Forall2_cons_inv_l in Hc1 as (e' & m3 & [Hide Hde] & Hc1 & ->).
  apply Forall2_nil_inv_l in Hc1 as ->.
  apply app_inj_tail in Heq as [<- <-].
  rewrite Hix in Hde. apply derived_nil_l in Hde.
  split; [done|]. split; [done|]. split; [done|]. split.
  - intros p b Hp Hb. rewrite Hpreds in Hp |- *.
    case_bool_decide as Hlen.
    + left. rewrite (Hone Hlen). apply NoDup_singleton.
    + right. rewrite app_nil_r in Hp.
      apply list_elem_of_fmap in Hp as (q & -> & _).
      destruct (spliced_find_copy _ _ Hb) as (c & Hc & _ & [_ Hd]); [lia|].
      eapply derived_returns_last; [exact Hd|].
      rewrite Forall_forall in Hall. by apply Hall.
  - intros Hin. rewrite !map_app in Hin.
    apply elem_of_app in Hin as [Hin|Hin]; [apply elem_of_app in Hin as [Hin|Hin]|].
    + apply list_elem_of_fmap in Hin as (b & Hb & Hbin).
      assert (bb_id b < bb) by (apply spliced_caller_ids, elem_of_app; by left). lia.
    + pose proof spliced_NoDup as Hnd. rewrite Hmid, map_app in Hnd.
      apply NoDup_app in Hnd as (_ & Hdisj & _).
      apply (Hdisj _ Hin). simpl. by left.
    + apply list_elem_of_fmap in Hin as (b & Hb & Hbin).
      assert (bb_id b < bb) by (apply spliced_caller_ids, elem_of_app; by right). lia.
Qed.

(** A predecessor of the exit block of the callee ends in a return exactly
    when what its copy designates does. *)
Lemma spliced_ends_in_return q :
  ends_in_return (pre ++ mid' ++ post) (bb + q)
  = ends_in_return (basicblocks callee) q.
Proof using Hcopy Hcheck Hdistinct Hcaller.
  destruct (callee_facts callee Hcheck) as (cs0 & x & _ & _ & _ & Hall).
  rewrite Forall_forall in Hall.
  destruct (decide (q ∈ map bb_id (basicblocks callee))) as [Hq|Hq].
  - destruct (find_block_is_Some _ _ Hq) as [cq Hcq].
    pose proof (find_block_Some _ _ _ Hcq) as [Hcqin Hcqid].
    pose proof Hcqin as Hcqj. apply list_elem_of_lookup in Hcqj as [jq Hjq].
    destruct (Forall2_lookup_l _ _ _ _ _ Hcopy Hjq) as (bq & Hbq & [Hidq Hdq]).
    unfold ends_in_return. rewrite Hcq. rewrite <- Hcqid, <- Hidq.
    rewrite spliced_find_block by (by eapply list_elem_of_lookup_2).
    simpl. unfold getLastInstr. apply derived_ends; [done|by apply Hall].
  - unfold ends_in_return. rewrite (find_block_None q) by done.
    rewrite find_block_None; [done|].
    rewrite !map_app. intros Hin.
    apply elem_of_app in Hin as [Hin|Hin]; [|apply elem_of_app in Hin as [Hin|Hin]].
    + apply list_elem_of_fmap in Hin as (b & Hb & Hbin).
      assert (bb_id b < bb) by (apply spliced_caller_ids, elem_of_app; by left). lia.
    + rewrite spliced_ids in Hin. apply list_elem_of_fmap in Hin as (q' & Heq & Hq').
      assert (q' = q) as -> by lia. done.
    + apply list_elem_of_fmap in Hin as (b & Hb & Hbin).
      assert (bb_id b < bb) by (apply spliced_caller_ids, elem_of_app; by right). lia.
Qed.

Context (inl : LIRInliner).
Context (Hend : callee_end_ inl = Z.of_nat (length pre + length mid')).

(** The blocks of the range other than the epilogue. *)
Lemma spliced_range_block cs0 exit_block mid0 epi b0 :
  basicblocks callee = cs0 ++ [exit_block] → mid' = mid0 ++ [epi] →
  Forall2 (copy_of bb) cs0 mid0 →
  b0 ∈ mid0 →
  returns_last (instructions b0) ∧
  Forall (λ i, opcode i ≠ kLoadArg) (instructions b0) ∧
  ((∃ r, r ∈ instructions b0 ∧ opcode r = kReturn) →
   ends_in_return (pre ++ mid' ++ post) (bb_id b0) = true ∧
   ∃ c r, c ∈ basicblocks callee ∧ bb_id b0 = bb + bb_id c ∧
          r ∈ instructions c ∧ opcode r = kReturn).
Proof using Hcopy Hdistinct Hcheck Hcaller.
  intros Hcs Hmid Hc0 Hb0.
  destruct (callee_facts callee Hcheck) as (cs0' & x & Hcs' & _ & _ & Hall).
  rewrite Hcs in Hcs'. apply app_inj_tail in Hcs' as [<- <-].
  apply list_elem_of_lookup in Hb0 as [j Hj].
  destruct (Forall2_lookup_r _ _ _ _ _ Hc0 Hj) as (c & Hc & [Hid Hd]).
  rewrite Forall_forall in Hall.
  assert (c ∈ basicblocks callee) as Hcin.
  { rewrite Hcs. apply elem_of_app. left. by eapply list_elem_of_lookup_2. }
  pose proof (Hall c Hcin) as Hrl.
  split; [by eapply derived_returns_last|].
  split; [by eapply derived_no_load_arg|].
  intros (r' & Hr' & Hop').
  destruct (derived_return_origin _ _ r' Hd Hr' Hop') as (r & Hr & Hop).
  split; [|by exists c, r].
  unfold ends_in_return. rewrite spliced_find_block.
  2:{ rewrite Hmid. apply elem_of_app. left. by eapply list_elem_of_lookup_2. }
  simpl. unfold getLastInstr.
  assert (∃ r0, last (instructions c) = Some r0 ∧ opcode r0 = kReturn) as Hlc.
  { exists r. split; [|done]. apply list_elem_of_lookup in Hr as [n Hn].
    rewrite last_lookup, <- (Hrl n r Hn Hop). done. }
  apply (derived_last_return _ _ Hd Hrl) in Hlc as (r0 & -> & Hr0).
  by apply bool_decide_eq_true.
Qed.



End Spliced.

End Pipeline.

(** ** The pass as a whole *)

Section Pass.

Lemma find_instr_block_index id f i :
  find_instr id f = Some i →
  ∃ k b, block_index_of id f = Some (k, b).
Proof.
  unfold find_instr, all_instructions. intros H.
  apply find_some in H as [Hin Hid]. apply bool_decide_eq_true in Hid.
  apply in_concat in Hin as (l & Hl & Hi).
  apply in_map_iff in Hl as (b & <- & Hb).
  unfold block_index_of.
  destruct (list_find_elem_of (λ b, id ∈ map instr_id (instructions b))
              (basicblocks f) b) as [[k b'] Hfind].
  - by apply list_elem_of_In.
  - rewrite <- Hid. apply list_elem_of_fmap_2. by apply list_elem_of_In.
  - by exists k, b'.
Qed.

Lemma isInlineable_true_args call_instr arguments_ callee :
  (isInlineable call_instr arguments_ callee).1 = true →
  isInlineable call_instr arguments_ callee
  = (true, arguments_ ++ actual_arguments call_instr).
Proof.
  intros H. pose proof (isInlineable_true _ _ _ H) as (H1 & H2 & H3).
  unfold isInlineable in *. rewrite H1 in *. simpl in *.
  unfold checkArguments in *.
  destruct (checkArguments_loop_true _ _ H2) as [Hargs _].
  destruct (checkArguments_loop _ _) as [ok args]. simpl in *. subst.
  by rewrite H3.
Qed.

Lemma findFunction_Some_inputs host call_instr cache callee cache' :
  findFunction host call_instr cache = (Some callee, cache') →
  1 ≤ getNumInputs call_instr.
Proof.
  unfold findFunction. case_bool_decide; [done|]. lia.
Qed.


(** [inlineCall] on an accepted callee, up to the two resolution steps. *)
Lemma inlineCall_pipeline host inl w call_instr callee cache args :
  find_instr (call_instr_ inl) (caller w) = Some call_instr →
  findFunction host call_instr (name_to_function w) = (Some callee, cache) →
  isInlineable call_instr (arguments_ inl) callee = (true, args) →
  ∃ k block1 pre post bb ib,
    block_index_of (call_instr_ inl) (caller w) = Some (k, block1) ∧
    Forall (from_caller (caller w) bb) (pre ++ post) ∧
    bb_id block1 ∈ map bb_id pre ∧
    (∃ pre0 b1,
       pre = pre0 ++ [b1] ∧
       map bb_id pre0 = map bb_id (take k (basicblocks (caller w))) ∧
       bb_id b1 = bb_id block1 ∧
       instructions b1 = instrs_before (call_instr_ inl) (instructions block1)) ∧
    (∃ b2 post' ci rest,
       post = b2 :: post' ∧ instructions b2 = ci :: rest ∧
       instr_id ci = call_instr_ inl) ∧
    inlineCall host inl w =
      (let inl' := mkInliner (call_instr_ inl) args (Z.of_nat (length pre))
                     (Z.of_nat (length pre + length (basicblocks callee))) in
       bbs3 ← resolveArguments inl'
                (pre ++ wire (bb_id block1) (fresh_block_id (basicblocks (caller w)))
                          (map (copy_block bb ib) (basicblocks callee)) ++ post);
       bbs4 ← resolveReturnValue inl' bbs3;
       Ok (true, inl', mkWorld (mkFunction bbs4) cache)).
Proof.
  intros Hcall Hfind Hinl.
  destruct (find_instr_block_index _ _ _ Hcall) as (k & block1 & Hidx).
  assert (basicblocks callee ≠ []) as Hne.
  { assert ((isInlineable call_instr (arguments_ inl) callee).1 = true) as H
      by (by rewrite Hinl).
    apply isInlineable_true in H as [H _].
    apply checkEntryExitReturn_true in H as (e & _ & He & _).
    unfold getEntryBlock in He. intros Hnil. by rewrite Hnil in He. }
  destruct (splitBefore k block1 (call_instr_ inl) (basicblocks (caller w)))
    as [bbs1 block2] eqn:Hsplit.
  assert (block2 = fresh_block_id (basicblocks (caller w))) as Hb2.
  { unfold splitBefore in Hsplit. by injection Hsplit. }
  destruct (splice_shape _ callee _ _ _ _ _ Hidx Hne Hsplit)
    as (pre & post & bb & ib & Hcopy & Hfrom & Hb1 & Hpre & b2 & post' & ci & rest
        & Hpost & _ & Hb2i & Hci).
  exists k, block1, pre, post, bb, ib.
  split; [done|]. split; [done|]. split; [done|]. split; [done|]. split.
  { by exists b2, post', ci, rest. }
  unfold inlineCall. rewrite Hcall. cbn [mbind Outcome_bind of_option].
  rewrite Hfind, Hinl. cbv zeta. cbn [negb call_instr_].
  rewrite Hidx. cbn [mbind Outcome_bind of_option].
  rewrite Hsplit, Hcopy. cbn [mbind Outcome_bind]. by rewrite Hb2.
Qed.

Lemma resolveArguments_spliced call args pre mid post n :
  length mid = n →
  resolveArguments
    (mkInliner call args (Z.of_nat (length pre)) (Z.of_nat (length pre + n)))
    (pre ++ mid ++ post)
  = resolveArguments_loop (length mid) (Z.of_nat (length pre)) args ∅
      (pre ++ mid ++ post).
Proof.
  intros <-. unfold resolveArguments. simpl. f_equal. lia.
Qed.

Lemma wire_length block1 block2 l : length (wire block1 block2 l) = length l.
Proof.
  pose proof (wire_same_code block1 block2 l) as H.
  by apply Forall2_length in H.
Qed.


Lemma merge_returns_length phi : ∀ preds bbs bbs',
  merge_returns phi preds bbs = Ok bbs' → length bbs' = length bbs.
Proof.
  induction preds as [|p rest IH]; intros bbs bbs' H; simpl in H.
  - by injection H as <-.
  - apply bind_Ok in H as (pred_bb & _ & H).
    destruct (getLastInstr pred_bb) as [lastInstr|]; [|by apply IH].
    destruct (isReturn lastInstr); [|by apply IH].
    destruct (getInput lastInstr 0); [|done].
    apply IH in H. rewrite H. unfold update_block, modify_instr.
    by rewrite !length_map.
Qed.

Lemma resolveReturnValue_length inl bbs bbs' :
  resolveReturnValue inl bbs = Ok bbs' → length bbs' = length bbs.
Proof.
  unfold resolveReturnValue. intros H.
  apply bind_Ok in H as (epilogue & _ & H).
  apply bind_Ok in H as (bbs2 & Hm & H).
  apply bind_Ok in H as (phi_now & _ & H).
  apply merge_returns_length in Hm. rewrite length_insert in Hm.
  case_bool_decide; injection H as <-;
    unfold modify_instr, update_block; by rewrite ?length_map.
Qed.

End Pass.

Lemma filter_all_false {A} (g : A → bool) (l : list A) :
  (∀ x, x ∈ l → g x ≠ true) → filter (λ x, g x = true) l = [].
Proof.
  induction l as [|a l IH]; intros H; [done|].
  rewrite filter_cons_False by (apply H; left). apply IH.
  intros x Hx. apply H. by right.
Qed.

Lemma NoDup_take_lookup {A B} (g : A → B) (l : list A) k x :
  NoDup (map g l) → l !! k = Some x → g x ∉ map g (take k l).
Proof.
  intros Hnd Hk. rewrite <- (take_drop_middle l k x Hk) in Hnd.
  rewrite map_app in Hnd. apply NoDup_app in Hnd as (_ & Hdisj & _).
  intros Hin. apply (Hdisj _ Hin). simpl. by left.
Qed.

(** The block before the call, in the spliced caller, is the first half of
    the block that held the call. *)
Lemma find_block_before_call f call k block1 pre0 b1 rest :
  NoDup (map bb_id (basicblocks f)) →
  block_index_of call f = Some (k, block1) →
  map bb_id pre0 = map bb_id (take k (basicblocks f)) →
  bb_id b1 = bb_id block1 →
  find_block (bb_id block1) ((pre0 ++ [b1]) ++ rest) = Some b1.
Proof.
  intros Hnd Hidx Hpre0 Hb1. rewrite <- !app_assoc.
  rewrite find_block_app.
  2:{ rewrite Hpre0. apply list_find_Some in Hidx as (Hk & _).
      by apply NoDup_take_lookup. }
  cbn [app]. by rewrite find_block_here.
Qed.


(** ** The call instruction after the pass *)

Section CallSite.

Lemma all_instructions_modify id g bbs :
  all_instructions (mkFunction (modify_instr id g bbs))
  = map (λ i, if bool_decide (instr_id i = id) then g i else i)
        (all_instructions (mkFunction bbs)).
Proof.
  unfold all_instructions, modify_instr. simpl.
  rewrite map_map. simpl. by rewrite concat_map, map_map.
Qed.

Lemma find_instr_modify id g bbs :
  (∀ i, instr_id (g i) = instr_id i) →
  find_instr id (mkFunction (modify_instr id g bbs))
  = g <$> find_instr id (mkFunction bbs).
Proof.
  intros Hg. unfold find_instr. rewrite all_instructions_modify.
  induction (all_instructions (mkFunction bbs)) as [|i l IH]; [done|].
  simpl. destruct (decide (instr_id i = id)) as [Hi|Hi].
  - rewrite (bool_decide_true _ Hi). rewrite Hg. by rewrite (bool_decide_true _ Hi).
  - rewrite (bool_decide_false _ Hi). by rewrite (bool_decide_false _ Hi).
Qed.

Lemma find_instr_is_Some id bbs b i :
  b ∈ bbs → i ∈ instructions b → instr_id i = id →
  is_Some (find_instr id (mkFunction bbs)).
Proof.
  intros Hb Hi Hid. unfold find_instr.
  destruct (find _ _) as [x|] eqn:Hfind; [by eexists|].
  eapply find_none in Hfind.
  - by rewrite bool_decide_true in Hfind.
  - apply list_elem_of_In. by eapply (elem_of_all_instructions (mkFunction bbs)).
Qed.

Lemma elem_of_all_instructions_inv f i :
  i ∈ all_instructions f → ∃ b, b ∈ basicblocks f ∧ i ∈ instructions b.
Proof.
  unfold all_instructions. intros H.
  apply list_elem_of_In, in_concat in H as (l & Hl & Hi).
  apply in_map_iff in Hl as (b & <- & Hb).
  exists b. split; by apply list_elem_of_In.
Qed.

(** A successful [inlineCall], taken apart: the caller when return merging
    starts is [pre ++ mid' ++ post], where [mid'] are the resolved copies
    of the blocks of the callee. *)
Lemma inlineCall_true_inv host inl w call_instr callee cache inl' w' :
  find_instr (call_instr_ inl) (caller w) = Some call_instr →
  findFunction host call_instr (name_to_function w) = (Some callee, cache) →
  inlineCall host inl w = Ok (true, inl', w') →
  ∃ k block1 pre mid' post bb,
    checkEntryExitReturn callee = true ∧
    block_index_of (call_instr_ inl) (caller w) = Some (k, block1) ∧
    Forall (from_caller (caller w) bb) (pre ++ post) ∧
    bb_id block1 ∈ map bb_id pre ∧
    (∃ pre0 b1,
       pre = pre0 ++ [b1] ∧
       map bb_id pre0 = map bb_id (take k (basicblocks (caller w))) ∧
       bb_id b1 = bb_id block1 ∧
       instructions b1 = instrs_before (call_instr_ inl) (instructions block1)) ∧
    (∃ b2 post' ci rest,
       post = b2 :: post' ∧ instructions b2 = ci :: rest ∧
       instr_id ci = call_instr_ inl) ∧
    Forall2 (copy_of bb) (basicblocks callee) mid' ∧
    (∀ x, last (basicblocks callee) = Some x →
       ∃ e, last mid' = Some e ∧
            predecessors e =
            map (Nat.add bb) (predecessors x)
            ++ (if bool_decide (length (basicblocks callee) = 1)
                then [bb_id block1] else [])) ∧
    call_instr_ inl' = call_instr_ inl ∧
    callee_start_ inl' = Z.of_nat (length pre) ∧
    callee_end_ inl' = Z.of_nat (length pre + length mid') ∧
    resolveReturnValue inl' (pre ++ mid' ++ post) = Ok (basicblocks (caller w')).
Proof.
  intros Hcall Hfind Hrun.
  pose proof (inlineCall_cases host inl w call_instr Hcall) as Hc. rewrite Hfind in Hc.
  destruct (isInlineable call_instr (arguments_ inl) callee) as [[|] args] eqn:Hinl;
    [|by rewrite Hc in Hrun].
  clear Hc.
  assert (checkEntryExitReturn callee = true) as Hcheck.
  { assert ((isInlineable call_instr (arguments_ inl) callee).1 = true) as H
      by (by rewrite Hinl).
    by apply isInlineable_true in H as [H _]. }
  destruct (inlineCall_pipeline _ _ _ _ _ _ _ Hcall Hfind Hinl)
    as (k & block1 & pre & post & bb & ib & Hidx & Hfrom & Hb1 & Hpre & Hpost & Hrun').
  rewrite Hrun' in Hrun. cbv zeta in Hrun.
  set (wired := wire (bb_id block1) (fresh_block_id (basicblocks (caller w)))
                  (map (copy_block bb ib) (basicblocks callee))) in *.
  assert (length wired = length (basicblocks callee)) as Hlen.
  { unfold wired. by rewrite wire_length, length_map. }
  apply bind_Ok in Hrun as (bbs3 & Hres & Hrun).
  apply bind_Ok in Hrun as (bbs4 & Hmerge & Hrun).
  injection Hrun as <- <-.
  rewrite (resolveArguments_spliced _ _ _ _ _ _ Hlen) in Hres.
  apply resolveArguments_loop_inv in Hres as (mid' & -> & Hmid).
  exists k, block1, pre, mid', post, bb.
  assert (length mid' = length (basicblocks callee)) as Hlen'.
  { apply Forall2_length in Hmid. lia. }
  repeat (split; [done|]).
  split; [by eapply resolved_wired_copy_of|].
  split; [intros x Hx; by eapply resolved_wired_last|].
  split; [done|]. split; [done|]. split; [simpl; by rewrite Hlen'|].
  done.
Qed.

End CallSite.

Lemma map_instr_id_modify id g l :
  (∀ i, instr_id (g i) = instr_id i) →
  map instr_id (map (λ i, if bool_decide (instr_id i = id) then g i else i) l)
  = map instr_id l.
Proof.
  intros Hg. rewrite map_map. apply map_ext. intros i. by case_bool_decide.
Qed.

(** C3. After a successful inline of a callee with a returning path, a
    block that holds a return and is among the predecessors of the exit
    block, the epilogue block holds the phi, whose inputs are a label and
    an operand for each predecessor of the epilogue that ends in a return,
    in the stored order of the predecessors, which is that of the
    predecessors of the callee's exit block; a predecessor that is stored
    more than once gives one pair, at its first place. Each of these
    predecessors has lost its last instruction, the return, and the call
    instruction is a move whose only input is a linked reference to the
    phi. [bbs] are the blocks of the caller when return merging starts. *)
Theorem inlineCall_merges_returns
    (host : Host) (inl inl' : LIRInliner) (w w' : World)
    (call_instr : Instruction) (callee : Function) (cache : Cache)
    (exit_block returning_block : BasicBlock) (ret : Instruction) :
  find_instr (call_instr_ inl) (caller w) = Some call_instr →
  findFunction host call_instr (name_to_function w) = (Some callee, cache) →
  NoDup (map bb_id (basicblocks callee)) →
  last (basicblocks callee) = Some exit_block →
  returning_block ∈ basicblocks callee →
  bb_id returning_block ∈ predecessors exit_block →
  ret ∈ instructions returning_block → opcode ret = kReturn →
  inlineCall host inl w = Ok (true, inl', w') →
  ∃ bbs epilogue block_base,
    resolveReturnValue inl' bbs = Ok (basicblocks (caller w')) ∧
    at_index bbs (callee_end_ inl' - 1) = Ok epilogue ∧
    predecessors epilogue = map (Nat.add block_base) (predecessors exit_block) ∧
    (∀ q, ends_in_return bbs (block_base + q) = ends_in_return (basicblocks callee) q) ∧
    let phi := fresh_instr_id bbs in
    let rets := returning bbs (predecessors epilogue) in
    let merged := mkInstr phi kPhi (merged_inputs bbs rets) (Some VReg) in
    rets ≠ [] ∧
    (NoDup (predecessors epilogue) →
     rets = filter (λ p, ends_in_return bbs p = true) (predecessors epilogue)) ∧
    Forall (λ p, is_Some (return_value bbs p)) rets ∧
    length (inputs merged) = 2 * length rets ∧
    basicblocks (caller w') !! Z.to_nat (callee_end_ inl' - 1)
      = Some (setInstructions [merged] epilogue) ∧
    Forall (λ p, ∃ b r b',
              find_block p bbs = Some b ∧
              last (instructions b) = Some r ∧ opcode r = kReturn ∧
              find_block p (basicblocks (caller w')) = Some b' ∧
              map instr_id (instructions b') = map instr_id (removelast (instructions b)) ∧
              Forall (λ i, opcode i ≠ kReturn) (instructions b')) rets ∧
    basicblocks (caller w')
      = modify_instr (call_instr_ inl)
          (λ i, setInputs [Linked phi] (setOpcode kMove i))
          (drop_returns rets
             (<[Z.to_nat (callee_end_ inl' - 1) := setInstructions [merged] epilogue]> bbs)) ∧
    ∃ ci, find_instr (call_instr_ inl) (caller w') = Some ci ∧
          opcode ci = kMove ∧ inputs ci = [Linked phi].
Proof.
  intros Hcall Hfind Hndc Hexit Hc Hcpred Hretc Hretop Hrun.
  destruct (inlineCall_true_inv _ _ _ _ _ _ _ _ Hcall Hfind Hrun)
    as (k & block1 & pre & mid' & post & bb & Hcheck & Hidx & Hfrom & Hb1 & _
        & (b2 & post' & ci & rest & Hpost & Hb2i & Hci)
        & Hcopy & Hlast & Hcall' & Hstart & Hend & Hmerge).
  destruct (spliced_epilogue (caller w) callee bb (bb_id block1) pre mid' post
              Hfrom Hb1 Hcopy Hcheck Hndc Hlast)
    as (cs0 & x & mid0 & epi & Hcs & Hmid & Hc0 & Hie & Hpreds & Honce & Huniq).
  pose proof (spliced_range_block (caller w) callee bb pre mid' post
                Hfrom Hcopy Hcheck Hndc cs0 x mid0 epi) as Hblock.
  destruct (callee_facts callee Hcheck) as (cs0' & x' & Hcs' & Hix & _ & Hall).
  rewrite Hcs in Hcs'. apply app_inj_tail in Hcs' as [<- <-].
  assert (x = exit_block) as ->.
  { rewrite Hcs, last_snoc in Hexit. by injection Hexit. }
  (* the block of the callee that holds the return, and its copy *)
  set (c := returning_block) in *.
  rewrite Hcs in Hc. apply elem_of_app in Hc as [Hc|Hc].
  2:{ apply list_elem_of_singleton in Hc. rewrite Hc, Hix in Hretc.
      by apply elem_of_nil in Hretc. }
  assert (length (basicblocks callee) ≠ 1) as Hmany.
  { rewrite Hcs, length_app. simpl. destruct cs0; [by apply elem_of_nil in Hc|].
    simpl. lia. }
  rewrite bool_decide_false, app_nil_r in Hpreds by done.
  pose proof Hc as Hcj. apply list_elem_of_lookup in Hcj as [j Hj].
  destruct (Forall2_lookup_l _ _ _ _ _ Hc0 Hj) as (b0 & Hb0 & [Hid0 Hd0]).
  assert (b0 ∈ mid0) as Hb0in by (by eapply list_elem_of_lookup_2).
  destruct (Hblock b0 Hcs Hmid Hc0 Hb0in) as (_ & _ & Hret0).
  rewrite Forall_forall in Hall.
  pose proof (Hall c) as Hrl.
  specialize (Hrl ltac:(rewrite Hcs; apply elem_of_app; by left)).
  assert (∃ r, r ∈ instructions b0 ∧ opcode r = kReturn) as Hhas.
  { assert (∃ r, last (instructions c) = Some r ∧ opcode r = kReturn) as Hlc.
    { exists ret. split; [|done]. apply list_elem_of_lookup in Hretc as [n Hn].
      rewrite last_lookup, <- (Hrl n ret Hn Hretop). done. }
    apply (derived_last_return _ _ Hd0 Hrl) in Hlc as (r & Hr & Hrop).
    exists r. split; [by eapply last_Some_elem_of|done]. }
  destruct (Hret0 Hhas) as [Hends0 _].
  assert (pre ++ mid' ++ post = (pre ++ mid0) ++ epi :: post) as Hshape.
  { rewrite Hmid, <- !app_assoc. done. }
  assert (callee_end_ inl' = Z.of_nat (length (pre ++ mid0) + 1)) as Hend'.
  { rewrite Hend, Hmid, !length_app. simpl. lia. }
  assert (Z.to_nat (callee_end_ inl' - 1) = length (pre ++ mid0)) as Hidx' by lia.
  set (bbs := pre ++ mid' ++ post) in *.
  exists bbs, epi, bb.
  split; [done|]. split.
  { rewrite Hshape. replace (callee_end_ inl' - 1)%Z
      with (Z.of_nat (length (pre ++ mid0))) by lia. apply at_index_middle. }
  split; [done|]. split.
  { intros q. by apply (spliced_ends_in_return (caller w)). }
  cbv zeta.
  rewrite Hshape in Hmerge, Honce.
  pose proof (resolveReturnValue_inv inl' (pre ++ mid0) epi post _
                Hend' Hie Honce Huniq Hmerge) as [Hvals Hforms].
  cbv zeta in Hvals, Hforms. rewrite <- Hshape in Hvals, Hforms. fold bbs in Hvals, Hforms.
  set (phi := fresh_instr_id bbs) in *.
  set (rets := returning bbs (predecessors epi)) in *.
  set (merged := mkInstr phi kPhi (merged_inputs bbs rets) (Some VReg)) in *.
  assert (∀ p, p ∈ rets ↔ p ∈ predecessors epi ∧ ends_in_return bbs p = true) as Hin_rets.
  { intros p. unfold rets, returning.
    rewrite elem_of_first_places, list_elem_of_filter.
    split; intros [? ?]; by split. }
  assert (bb_id b0 ∈ rets) as Hb0rets.
  { apply Hin_rets. split; [|done]. rewrite Hpreds, Hid0. by apply list_elem_of_fmap_2. }
  assert (rets ≠ []) as Hne by (intros Hnil; rewrite Hnil in Hb0rets; by apply elem_of_nil in Hb0rets).
  destruct Hforms as [[Hnil _]|[_ Hfinal]]; [done|].
  rewrite Hcall' in Hfinal.
  split; [done|]. split.
  { intros Hnd. unfold rets, returning. apply first_places_NoDup.
    by apply NoDup_filter. }
  split; [done|]. split.
  { simpl. unfold merged_inputs. clear -Hvals.
    induction Hvals as [|p l [v Hv] _ IH]; [done|]. simpl. rewrite Hv. simpl.
    rewrite IH. lia. }
  assert (∀ p, p ∈ rets → bb ≤ p) as Hrets_ge.
  { intros p Hp. apply Hin_rets in Hp as [Hp _]. rewrite Hpreds in Hp.
    apply list_elem_of_fmap in Hp as (q & -> & _). lia. }
  assert (bb_id epi ∉ map bb_id (pre ++ mid0)) as Hupm.
  { intros Hin. apply Huniq. rewrite map_app. apply elem_of_app. by left. }
  assert (bb_id epi ∉ rets) as Hepi.
  { intros H. apply Hin_rets in H as [_ H].
    rewrite Hshape in H. rewrite ends_in_return_epilogue in H; done. }
  assert (b2 ∈ bbs) as Hb2in.
  { unfold bbs. rewrite Hpost. apply elem_of_app. right. apply elem_of_app. right. by left. }
  assert (instr_id ci ≠ phi) as Hciphi.
  { pose proof (instr_id_lt_fresh b2 ci bbs Hb2in) as Hlt.
    rewrite Hb2i in Hlt. specialize (Hlt ltac:(by left)). unfold phi. lia. }
  split; [|split; [|split]].
  - rewrite Hfinal, Hidx'. unfold modify_instr, drop_returns. rewrite map_map.
    change (map ?h ?l !! ?i) with ((h <$> l) !! i).
    rewrite list_lookup_fmap, list_lookup_middle by done. simpl.
    rewrite bool_decide_false by done. f_equal.
    apply modify_in_block_fresh. simpl. constructor; [|constructor]. simpl.
    rewrite <- Hci. done.
  - apply Forall_forall. intros p Hp.
    pose proof (proj1 (Hin_rets p) Hp) as [_ Hends].
    unfold ends_in_return in Hends.
    destruct (find_block p bbs) as [b|] eqn:Hb; [|done]. simpl in Hends.
    unfold getLastInstr in Hends.
    destruct (last (instructions b)) as [r|] eqn:Hr; [|done].
    apply bool_decide_eq_true in Hends.
    assert (returns_last (instructions b)) as Hrlb.
    { destruct (spliced_find_copy (caller w) callee bb pre mid' post Hfrom Hcopy p b)
        as (c0 & Hc0in & _ & [_ Hdc0]); [done|by apply Hrets_ge|].
      eapply derived_returns_last; [exact Hdc0|]. by apply Hall. }
    eexists b, r, _. split; [done|]. split; [done|]. split; [done|].
    assert (p ≠ bb_id epi) as Hpe by (intros ->; done).
    rewrite Hfinal. unfold modify_instr.
    rewrite find_block_map by done. unfold drop_returns.
    rewrite find_block_map
      by (intros y; destruct (bool_decide (bb_id y ∈ rets)); reflexivity).
    assert (find_block p ((pre ++ mid0) ++ setInstructions [merged] epi :: post)
            = Some b) as Hb'.
    { rewrite <- Hb, Hshape. by apply find_block_replace. }
    rewrite Hb'. simpl.
    apply find_block_Some in Hb as [_ Hbid]. rewrite Hbid.
    rewrite bool_decide_true by done. simpl.
    split; [done|]. simpl. split; [by rewrite map_instr_id_modify|].
    apply Forall_fmap, Forall_forall. intros i Hi. simpl.
    destruct (bool_decide (instr_id i = call_instr_ inl)); [done|].
    intros Hop. by eapply (returns_last_removelast (instructions b) i).
  - rewrite Hfinal, Hidx'. rewrite Hshape. by rewrite insert_middle.
  - assert (is_Some (find_instr (call_instr_ inl)
              (mkFunction (drop_returns rets ((pre ++ mid0) ++
                 (setInstructions [merged] epi) :: post))))) as [ci' Hci'].
    { apply (find_instr_is_Some _ _ b2 ci); [|by rewrite Hb2i; left|done].
      unfold drop_returns. apply list_elem_of_fmap. exists b2. split.
      - rewrite bool_decide_false; [done|]. intros Hin. apply Hrets_ge in Hin.
        rewrite Forall_forall in Hfrom. destruct (Hfrom b2) as [Hlt _]; [|lia].
        rewrite Hpost. apply elem_of_app. right. by left.
      - rewrite Hpost. apply elem_of_app. right. right. by left. }
    exists (setInputs [Linked phi] (setOpcode kMove ci')).
    split; [|done]. destruct w' as [[final] cache']. simpl in *.
    rewrite Hfinal. rewrite find_instr_modify by done. by rewrite Hci'.
Qed.

(** C4. The claim fails on a callee that is a single empty block when a
    return of the caller stands directly before the call: the predecessor
    of the epilogue is then the caller's block, its return is merged into
    the phi and removed, and the call becomes a move of the phi, although
    the callee has no return. *)
Lemma inlineCall_void_callee_takes_return_of_caller :
  (∀ instr, instr ∈ all_instructions Examples.empty_callee → opcode instr ≠ kReturn) ∧
  (isInlineable (mkInstr 1 kCall [Imm 4096] (Some VReg)) [] Examples.empty_callee).1
  = true ∧
  ∃ inl' w' phi ci,
    inlineCall (Examples.host_of (Some Examples.empty_callee)) (Examples.inliner_at 1)
      (Examples.world_of Examples.caller_return_then_call) = Ok (true, inl', w') ∧
    find_instr 2 (caller w') = Some phi ∧ opcode phi = kPhi ∧
    inputs phi = [Label 0; Imm 1] ∧
    find_instr 0 (caller w') = None ∧
    find_instr 1 (caller w') = Some ci ∧ opcode ci = kMove ∧
    inputs ci = [Linked 2].
Proof.
  split; [|split].
  - intros instr H. by apply elem_of_nil in H.
  - reflexivity.
  - eexists _, _, _, _. vm_compute. repeat split; reflexivity.
Qed.

(** X25. After a successful inline of a callee without a return
    instruction, no predecessor of the epilogue ends in a return, unless
    the callee is a single block and a return stands directly before the
    call: the phi gets no input and is removed again, so that the caller is
    what it was when return merging started, except that the call
    instruction is a no-op. [bbs] are the blocks of the caller when return
    merging starts. *)
Theorem inlineCall_void_callee
    (host : Host) (inl inl' : LIRInliner) (w w' : World)
    (call_instr : Instruction) (callee : Function) (cache : Cache) :
  find_instr (call_instr_ inl) (caller w) = Some call_instr →
  findFunction host call_instr (name_to_function w) = (Some callee, cache) →
  NoDup (map bb_id (basicblocks (caller w))) →
  NoDup (map bb_id (basicblocks callee)) →
  (∀ instr, instr ∈ all_instructions callee → opcode instr ≠ kReturn) →
  (length (basicblocks callee) = 1 → no_return_before (call_instr_ inl) (caller w)) →
  inlineCall host inl w = Ok (true, inl', w') →
  ∃ bbs epilogue,
    resolveReturnValue inl' bbs = Ok (basicblocks (caller w')) ∧
    at_index bbs (callee_end_ inl' - 1) = Ok epilogue ∧
    instructions epilogue = [] ∧
    returning bbs (predecessors epilogue) = [] ∧
    basicblocks (caller w') = modify_instr (call_instr_ inl) (setOpcode kNop) bbs ∧
    basicblocks (caller w') !! Z.to_nat (callee_end_ inl' - 1) = Some epilogue ∧
    (∀ instr, instr ∈ all_instructions (caller w') →
       instr_id instr ≠ fresh_instr_id bbs) ∧
    ∃ ci, find_instr (call_instr_ inl) (caller w') = Some ci ∧ opcode ci = kNop.
Proof.
  intros Hcall Hfind Hndf Hndc Hvoid Hbefore Hrun.
  destruct (inlineCall_true_inv _ _ _ _ _ _ _ _ Hcall Hfind Hrun)
    as (k & block1 & pre & mid' & post & bb & Hcheck & Hidx & Hfrom & Hb1
        & (pre0 & b1 & Hpre & Hpre0 & Hb1id & Hb1ins)
        & (b2 & post' & ci & rest & Hpost & Hb2i & Hci)
        & Hcopy & Hlast & Hcall' & Hstart & Hend & Hmerge).
  destruct (spliced_epilogue (caller w) callee bb (bb_id block1) pre mid' post
              Hfrom Hb1 Hcopy Hcheck Hndc Hlast)
    as (cs0 & x & mid0 & epi & Hcs & Hmid & Hc0 & Hie & Hpreds & Honce & Huniq).
  assert (pre ++ mid' ++ post = (pre ++ mid0) ++ epi :: post) as Hshape.
  { rewrite Hmid, <- !app_assoc. done. }
  assert (callee_end_ inl' = Z.of_nat (length (pre ++ mid0) + 1)) as Hend'.
  { rewrite Hend, Hmid, !length_app. simpl. lia. }
  assert (Z.to_nat (callee_end_ inl' - 1) = length (pre ++ mid0)) as Hidx' by lia.
  set (bbs := pre ++ mid' ++ post) in *.
  assert (∀ q, ends_in_return (basicblocks callee) q = false) as Hcallee.
  { intros q. unfold ends_in_return.
    destruct (find_block q (basicblocks callee)) as [c|] eqn:Hc; [|done]. simpl.
    destruct (getLastInstr c) as [i|] eqn:Hi; [|done].
    apply bool_decide_eq_false. apply Hvoid.
    apply find_block_Some in Hc as [Hc _].
    eapply elem_of_all_instructions; [done|]. by eapply last_Some_elem_of. }
  assert (returning bbs (predecessors epi) = []) as Hrets.
  { unfold returning. rewrite filter_all_false; [done|]. intros p Hp.
    rewrite Hpreds in Hp. apply elem_of_app in Hp as [Hp|Hp].
    - apply list_elem_of_fmap in Hp as (q & -> & Hq). unfold bbs.
      rewrite (spliced_ends_in_return (caller w) callee bb pre mid' post
                 Hfrom Hcopy Hcheck Hndc).
      by rewrite Hcallee.
    - case_bool_decide as Hone; [|by apply elem_of_nil in Hp].
      apply list_elem_of_singleton in Hp as ->.
      specialize (Hbefore Hone).
      unfold no_return_before, instr_before in Hbefore.
      rewrite Hidx in Hbefore. simpl in Hbefore.
      unfold ends_in_return, bbs. rewrite Hpre.
      rewrite (find_block_before_call _ _ _ _ _ _ _ Hndf Hidx Hpre0 Hb1id).
      simpl. unfold getLastInstr. rewrite Hb1ins.
      destruct (last _) as [r|] eqn:Hr; [|done].
      intros Hret. by apply bool_decide_eq_true in Hret. }
  exists bbs, epi.
  split; [done|]. split.
  { rewrite Hshape. replace (callee_end_ inl' - 1)%Z
      with (Z.of_nat (length (pre ++ mid0))) by lia. apply at_index_middle. }
  split; [done|]. split; [done|].
  rewrite Hshape in Hmerge, Honce.
  pose proof (resolveReturnValue_inv inl' (pre ++ mid0) epi post _
                Hend' Hie Honce Huniq Hmerge) as [_ Hforms].
  cbv zeta in Hforms. rewrite <- Hshape in Hforms. fold bbs in Hforms.
  rewrite Hrets in Hforms.
  destruct Hforms as [[_ Hfinal]|[Hne _]]; [|done].
  rewrite Hcall' in Hfinal.
  split; [done|]. split; [|split].
  - rewrite Hfinal, Hidx', Hshape. unfold modify_instr.
    change (map ?h ?l !! ?i) with ((h <$> l) !! i).
    rewrite list_lookup_fmap, list_lookup_middle by done. simpl. f_equal.
    apply modify_in_block_fresh. by rewrite Hie.
  - intros instr Hinstr. destruct w' as [[final] cache']. simpl in *.
    rewrite Hfinal, all_instructions_modify in Hinstr.
    apply list_elem_of_fmap in Hinstr as (i0 & -> & Hi0).
    apply elem_of_all_instructions_inv in Hi0 as (b & Hb & Hi0). simpl in Hb.
    pose proof (instr_id_lt_fresh b i0 bbs Hb Hi0) as Hlt.
    destruct (bool_decide (instr_id i0 = call_instr_ inl)); simpl; unfold InstrId in *; lia.
  - assert (b2 ∈ bbs) as Hb2in.
    { unfold bbs. rewrite Hpost. apply elem_of_app. right. apply elem_of_app. right.
      by left. }
    destruct (find_instr_is_Some (call_instr_ inl) bbs b2 ci) as [ci' Hci'];
      [done|by rewrite Hb2i; left|done|].
    exists (setOpcode kNop ci'). split; [|done].
    destruct w' as [[final] cache']. simpl in *.
    rewrite Hfinal. rewrite find_instr_modify by done. by rewrite Hci'.
Qed.


Lemma inlineCall_merges_returns_witness :
  ∃ inl' w' bbs ci,
    inlineCall (Examples.host_of (Some Examples.two_returns)) (Examples.inliner_at 1)
      (Examples.world_of Examples.caller_linked) = Ok (true, inl', w') ∧
    resolveReturnValue inl' bbs = Ok (basicblocks (caller w')) ∧
    find_instr 1 (caller w') = Some ci ∧ opcode ci = kMove ∧
    inputs ci = [Linked (fresh_instr_id bbs)].
Proof.
  assert (∃ inl' w',
    inlineCall (Examples.host_of (Some Examples.two_returns)) (Examples.inliner_at 1)
      (Examples.world_of Examples.caller_linked) = Ok (true, inl', w'))
    as (inl' & w' & Hrun) by (vm_compute; eauto).
  destruct (inlineCall_merges_returns
              (Examples.host_of (Some Examples.two_returns)) (Examples.inliner_at 1) inl'
              (Examples.world_of Examples.caller_linked) w'
              (mkInstr 1 kCall [Imm 4096; Linked 0] (Some VReg)) Examples.two_returns
              (<["f" := Some Examples.two_returns]> ∅)
              (mkBlock 3 [] [1; 2] [])
              (mkBlock 1 [ mkInstr 2 kReturn [Imm 10] None ] [0] [3])
              (mkInstr 2 kReturn [Imm 10] None))
    as (bbs & epilogue & block_base & Hmerge & _ & _ & _ & _ & _ & _ & _ & _
        & _ & _ & ci & Hci & Hop & Hin).
  - reflexivity.
  - vm_compute. reflexivity.
  - apply (bool_decide_unpack _). vm_compute. exact I.
  - reflexivity.
  - apply (list_elem_of_lookup_2 _ 1). reflexivity.
  - apply (bool_decide_unpack _). vm_compute. exact I.
  - apply (list_elem_of_lookup_2 _ 0). reflexivity.
  - reflexivity.
  - exact Hrun.
  - exists inl', w', bbs, ci. repeat split; assumption.
Defined.

(** Scenario D: the callee has two return paths; the phi gets the two
    pairs in the order of the predecessors of the exit block, and both
    returns are gone. *)
Example two_return_paths_merge_in_predecessor_order :
  ∃ inl' w',
    inlineCall (Examples.host_of (Some Examples.two_returns)) (Examples.inliner_at 1)
      (Examples.world_of Examples.caller_linked) = Ok (true, inl', w') ∧
    find_instr 7 (caller w')
      = Some (mkInstr 7 kPhi [Label 4; Imm 10; Label 5; Linked 0] (Some VReg)) ∧
    find_instr 1 (caller w') = Some (mkInstr 1 kMove [Linked 7] (Some VReg)) ∧
    (instructions <$> find_block 4 (basicblocks (caller w'))) = Some [] ∧
    (instructions <$> find_block 5 (basicblocks (caller w'))) = Some [].
Proof. eexists _, _. vm_compute. repeat split; reflexivity. Qed.

(** A predecessor of the exit block that is stored twice gives the phi one
    pair, and the inline completes. *)
Example doubled_edge_merges_once :
  (isInlineable (mkInstr 1 kCall [Imm 4096] (Some VReg)) [] Examples.doubled_edge).1 = true ∧
  ∃ inl' w',
    inlineCall (Examples.host_of (Some Examples.doubled_edge)) (Examples.inliner_at 1)
      (Examples.world_of Examples.caller_return_then_call) = Ok (true, inl', w') ∧
    (predecessors <$> basicblocks (caller w') !! 2) = Some [3; 3] ∧
    find_instr 3 (caller w') = Some (mkInstr 3 kPhi [Label 3; Imm 1] (Some VReg)) ∧
    (instructions <$> find_block 3 (basicblocks (caller w'))) = Some [].
Proof. split; [reflexivity|]. eexists _, _. vm_compute. repeat split; reflexivity. Qed.

(** A return in a block that is not among the predecessors of the exit
    block is not merged: it stays in the range. *)
Example return_outside_exit_predecessors_stays :
  (isInlineable (mkInstr 1 kCall [Imm 4096] (Some VReg)) [] Examples.unlisted_return).1
  = true ∧
  ∃ inl' w',
    inlineCall (Examples.host_of (Some Examples.unlisted_return)) (Examples.inliner_at 1)
      (Examples.world_of Examples.caller_return_then_call) = Ok (true, inl', w') ∧
    callee_start_ inl' = 1%Z ∧
    (map opcode ∘ instructions) <$> basicblocks (caller w') !! 1 = Some [kReturn].
Proof. split; [reflexivity|]. eexists _, _. vm_compute. repeat split; reflexivity. Qed.

Lemma inlineCall_void_callee_witness :
  ∃ inl' w' ci,
    inlineCall (Examples.host_of (Some Examples.void_callee)) (Examples.inliner_at 1)
      (Examples.world_of Examples.caller_imm) = Ok (true, inl', w') ∧
    find_instr 1 (caller w') = Some ci ∧ opcode ci = kNop.
Proof.
  assert (∃ inl' w',
    inlineCall (Examples.host_of (Some Examples.void_callee)) (Examples.inliner_at 1)
      (Examples.world_of Examples.caller_imm) = Ok (true, inl', w'))
    as (inl' & w' & Hrun) by (vm_compute; eauto).
  destruct (inlineCall_void_callee
              (Examples.host_of (Some Examples.void_callee)) (Examples.inliner_at 1) inl'
              (Examples.world_of Examples.caller_imm) w'
              Examples.call_one_arg Examples.void_callee
              (<["f" := Some Examples.void_callee]> ∅))
    as (bbs & epilogue & _ & _ & _ & _ & _ & _ & _ & ci & Hci & Hop).
  - reflexivity.
  - vm_compute. reflexivity.
  - apply (bool_decide_unpack _). vm_compute. exact I.
  - apply (bool_decide_unpack _). vm_compute. exact I.
  - intros instr Hin. unfold all_instructions in Hin. simpl in Hin.
    apply elem_of_cons in Hin as [->|Hin]; [discriminate|].
    apply list_elem_of_singleton in Hin as ->. discriminate.
  - simpl. intros Hone. discriminate Hone.
  - exact Hrun.
  - exists inl', w', ci. repeat split; assumption.
Defined.

(** * Further properties of the code *)

(** ** The checker accepts and rejects for these reasons only *)

Section CheckerExact.

Lemma check_returns_false bb exit_block instrs :
  check_returns bb exit_block instrs = false →
  ∃ n instr, instrs !! n = Some instr ∧ opcode instr = kReturn ∧
    ¬ (S n = length instrs ∧ successors bb = [bb_id exit_block]).
Proof.
  induction instrs as [|i rest IH]; simpl; [done|].
  destruct (isReturn i && _) eqn:E.
  - intros _. apply andb_true_iff in E as [Hret E].
    apply bool_decide_eq_true in Hret.
    exists 0, i. split; [done|]. split; [done|]. intros [Hlen Hsucc].
    rewrite Hsucc in E. simpl in E.
    destruct rest; [|simpl in Hlen; lia].
    rewrite !bool_decide_true in E by done. done.
  - intros H. destruct (IH H) as (n & instr & Hn & Hop & Hbad).
    exists (S n), instr. split; [done|]. split; [done|].
    intros [Hlen Hsucc]. apply Hbad. split; [lia|done].
Qed.

Lemma check_blocks_false entry_block exit_block bbs :
  check_blocks entry_block exit_block bbs = false →
  ∃ bb, bb ∈ bbs ∧
    ((predecessors bb = [] ∧ bb_id bb ≠ bb_id entry_block)
     ∨ (successors bb = [] ∧ bb_id bb ≠ bb_id exit_block)
     ∨ check_returns bb exit_block (instructions bb) = false).
Proof.
  induction bbs as [|b rest IH]; simpl; [done|].
  destruct (bool_decide (predecessors b = []) && _) eqn:E1.
  { intros _. apply andb_true_iff in E1 as [Hp Hne].
    apply bool_decide_eq_true in Hp. apply negb_true_iff, bool_decide_eq_false in Hne.
    exists b. split; [by left|]. by left. }
  destruct (bool_decide (successors b = []) && _) eqn:E2.
  { intros _. apply andb_true_iff in E2 as [Hs Hne].
    apply bool_decide_eq_true in Hs. apply negb_true_iff, bool_decide_eq_false in Hne.
    exists b. split; [by left|]. right. by left. }
  destruct (check_returns b exit_block (instructions b)) eqn:E3; simpl.
  - intros H. destruct (IH H) as (bb & Hin & Hbad).
    exists bb. split; [by right|done].
  - intros _. exists b. split; [by left|]. by right; right.
Qed.

Lemma checkArguments_loop_split ins : ∀ args,
  ∃ accepted rest,
    ins = accepted ++ rest ∧
    Forall (λ o, isImm o = true ∨ isVreg o = true) accepted ∧
    (checkArguments_loop ins args).2 = args ++ accepted ∧
    match rest with
    | [] => (checkArguments_loop ins args).1 = true
    | bad :: _ =>
        (checkArguments_loop ins args).1 = false ∧
        isImm bad = false ∧ isVreg bad = false
    end.
Proof.
  induction ins as [|o ins IH]; intros args; simpl.
  - exists [], []. split; [done|]. split; [apply Forall_nil_2|]. by rewrite app_nil_r.
  - destruct (negb (isImm o) && negb (isVreg o)) eqn:E.
    + exists [], (o :: ins).
      apply andb_true_iff in E as [E1 E2]. apply negb_true_iff in E1, E2.
      split; [done|]. split; [apply Forall_nil_2|]. by rewrite app_nil_r.
    + destruct (IH (args ++ [o])) as (accepted & rest & -> & Hall & Hargs & Hrest).
      exists (o :: accepted), rest. split; [done|]. split.
      * constructor; [|done]. destruct (isImm o), (isVreg o); auto.
      * rewrite Hargs, <- app_assoc. done.
Qed.

Lemma checkLoadArg_instrs_rest numInputs instrs :
  Forall (λ i, opcode i ≠ kLoadArg) instrs →
  checkLoadArg_instrs numInputs false instrs = Some false.
Proof.
  induction 1 as [|i rest Hi _ IH]; simpl; [done|].
  unfold isLoadArg. by rewrite bool_decide_false.
Qed.

Lemma checkLoadArg_instrs_complete numInputs instrs :
  (∀ l1 a l2 b l3, instrs = l1 ++ a :: l2 ++ b :: l3 →
     opcode a ≠ kLoadArg → opcode b ≠ kLoadArg) →
  (∀ instr, instr ∈ instrs → opcode instr = kLoadArg →
     ∃ c, getInput instr 0 = Some (Imm c) ∧ (uint64 c < numInputs)%Z) →
  is_Some (checkLoadArg_instrs numInputs true instrs).
Proof.
  induction instrs as [|i rest IH]; intros Hlate Hgood; simpl; [by eexists|].
  unfold isLoadArg. case_bool_decide as Hop.
  - destruct (Hgood i) as (c & Hc & Hlt); [by left|done|].
    rewrite bool_decide_false.
    2:{ unfold getNumInputs, getInput in *. destruct (inputs i); simpl in *; [done|lia]. }
    rewrite Hc. simpl. rewrite bool_decide_false by lia.
    apply IH.
    + intros l1 a l2 b l3 Heq. apply (Hlate (i :: l1) a l2 b l3). by rewrite Heq.
    + intros instr Hin. apply Hgood. by right.
  - rewrite checkLoadArg_instrs_rest; [by eexists|].
    apply Forall_forall. intros b Hb.
    apply list_elem_of_split in Hb as (l2 & l3 & ->).
    by apply (Hlate [] i l2 b l3).
Qed.

(** The instructions that [checkLoadArg] accepts are LoadArgs followed by
    instructions that are none. *)
Lemma checkLoadArg_instrs_prefix numInputs instrs :
  is_Some (checkLoadArg_instrs numInputs true instrs) →
  ∃ las body, instrs = las ++ body ∧
    Forall (λ i, opcode i = kLoadArg) las ∧
    Forall (λ i, opcode i ≠ kLoadArg) body.
Proof.
  induction instrs as [|i rest IH]; intros Hs.
  - exists [], []. by repeat split.
  - simpl in Hs. unfold isLoadArg in Hs. case_bool_decide as Hop.
    + destruct (bool_decide (getNumInputs i < 1)); [by destruct Hs|].
      destruct (getInput i 0) as [o|]; [|by destruct Hs].
      destruct (negb (isImm o)); [by destruct Hs|].
      destruct (bool_decide _); [by destruct Hs|].
      destruct (IH Hs) as (las & body & -> & Hlas & Hbody).
      exists (i :: las), body. split; [done|]. split; [by constructor|done].
    + exists [], (i :: rest). split; [done|]. split; [constructor|].
      constructor; [done|]. by eapply checkLoadArg_instrs_tail.
Qed.

End CheckerExact.

(** X1. [checkEntryExitReturn] rejects a callee exactly when the callee has
    no block, its first block has a predecessor, its last block has a
    successor or an instruction, another block lacks a predecessor or a
    successor, or a return is not the last instruction of a block whose
    only successor is the last block. *)
Theorem checkEntryExitReturn_rejects_exactly (callee : Function) :
  checkEntryExitReturn callee = false ↔
  violates_entry_exit callee
  ∨ ∃ exit_block, last (basicblocks callee) = Some exit_block ∧
                  successors exit_block ≠ [].
Proof.
  split.
  - intros E. unfold checkEntryExitReturn in E.
    destruct (getEntryBlock callee) as [e|] eqn:He.
    2:{ left. left. unfold getEntryBlock in He. by destruct (basicblocks callee). }
    destruct (last (basicblocks callee)) as [x|] eqn:Hx.
    2:{ left. left. by apply last_None in Hx. }
    destruct (bool_decide (predecessors e = [])) eqn:E1; simpl in E.
    2:{ left. right. left. exists e. split; [done|]. by apply bool_decide_eq_false in E1. }
    destruct (bool_decide (successors x = [])) eqn:E2; simpl in E.
    2:{ right. exists x. split; [done|]. by apply bool_decide_eq_false in E2. }
    destruct (check_blocks e x (basicblocks callee)) eqn:E3; simpl in E.
    2:{ left. apply check_blocks_false in E3 as (bb & Hin & [[Hp Hne]|[[Hs Hne]|Hr]]).
        - right. right. left. by exists e, bb.
        - right. right. right. left. by exists x, bb.
        - apply check_returns_false in Hr as (n & instr & Hn & Hop & Hbad).
          right. right. right. right. left. by exists x, bb, n, instr. }
    destruct (bool_decide (instructions x = [])) eqn:E4; simpl in E; [done|].
    left. do 5 right. exists x. split; [done|]. by apply bool_decide_eq_false in E4.
  - intros Hv. destruct (checkEntryExitReturn callee) eqn:E; [exfalso|done].
    apply checkEntryExitReturn_true in E
      as (e & x & He & Hx & Hpe & Hsx & Hcb & Hix).
    destruct Hv as [[Hv|[Hv|[Hv|[Hv|[Hv|Hv]]]]]|Hv].
    + unfold getEntryBlock in He. by rewrite Hv in He.
    + destruct Hv as (e' & He' & Hne). congruence.
    + destruct Hv as (e' & bb & He' & Hin & Hne & Hp).
      assert (e' = e) as -> by congruence.
      by destruct (check_blocks_true _ _ _ Hcb bb Hin) as (H1 & _ & _); auto.
    + destruct Hv as (x' & bb & Hx' & Hin & Hne & Hs).
      assert (x' = x) as -> by congruence.
      by destruct (check_blocks_true _ _ _ Hcb bb Hin) as (_ & H2 & _); auto.
    + destruct Hv as (x' & bb & n & instr & Hx' & Hin & Hn & Hop & Hbad).
      assert (x' = x) as -> by congruence.
      destruct (check_blocks_true _ _ _ Hcb bb Hin) as (_ & _ & H3).
      apply Hbad. by eapply check_returns_true.
    + destruct Hv as (x' & Hx' & Hne). congruence.
    + destruct Hv as (x' & Hx' & Hne). congruence.
Qed.

(** X2. [checkArguments] appends to [arguments_], without clearing it, the
    actual arguments of the call up to the first one that is neither an
    immediate nor a register; it accepts when there is no such argument,
    and when it rejects, the arguments before that one stay appended. *)
Theorem checkArguments_appends_accepted_prefix
    (call_instr : Instruction) (arguments_ : list Operand) :
  ∃ accepted rest,
    actual_arguments call_instr = accepted ++ rest ∧
    Forall (λ o, isImm o = true ∨ isVreg o = true) accepted ∧
    (checkArguments call_instr arguments_).2 = arguments_ ++ accepted ∧
    match rest with
    | [] => (checkArguments call_instr arguments_).1 = true
    | bad :: _ =>
        (checkArguments call_instr arguments_).1 = false ∧
        isImm bad = false ∧ isVreg bad = false
    end.
Proof.
  unfold checkArguments, actual_arguments.
  destruct (checkArguments_loop_split (drop 1 (inputs call_instr)) arguments_)
    as (accepted & rest & Hsplit & Hall & Hargs & Hrest).
  by exists accepted, rest.
Qed.

(** X3. [checkLoadArg] accepts a callee exactly when, in the stored order
    of its blocks and instructions, no LoadArg comes after an instruction
    that is not a LoadArg, and the first input of every LoadArg is an
    immediate below the number of inputs of the call minus one, computed
    in [size_t]. *)
Theorem checkLoadArg_accepts_exactly (call_instr : Instruction) (callee : Function) :
  checkLoadArg call_instr callee = true ↔
  ¬ late_load_arg callee ∧
  ∀ instr, instr ∈ all_instructions callee → opcode instr = kLoadArg →
    ∃ c, getInput instr 0 = Some (Imm c) ∧
         (uint64 c < uint64 (Z.of_nat (getNumInputs call_instr) - 1))%Z.
Proof.
  unfold checkLoadArg. rewrite checkLoadArg_blocks_flat.
  fold (all_instructions callee). split.
  - intros H. apply checkLoadArg_instrs_ok in H as [Hlate Hgood]. split.
    + intros (l1 & a & l2 & b & l3 & Heq & Ha & Hb). by eapply Hlate.
    + by apply Hgood.
  - intros [Hlate Hgood]. apply checkLoadArg_instrs_complete; [|done].
    intros l1 a l2 b l3 Heq Ha Hb. apply Hlate. by exists l1, a, l2, b, l3.
Qed.

(** ** The cache of the resolver *)

Section CacheFacts.

Context (host : Host).

Lemma parseFunction_grows name cache :
  cache ⊆ (parseFunction host name cache).2.
Proof.
  unfold parseFunction.
  destruct (cache !! name) eqn:E; [done|].
  destruct (read_file host (lir_path name)); [|done].
  simpl. by apply insert_subseteq.
Qed.

Lemma parseFunction_again name cache :
  parseFunction host name (parseFunction host name cache).2
  = parseFunction host name cache.
Proof.
  unfold parseFunction at 2 3.
  destruct (cache !! name) as [cached|] eqn:E.
  - simpl. unfold parseFunction. by rewrite E.
  - destruct (read_file host (lir_path name)) as [text|] eqn:Er; simpl.
    + unfold parseFunction. by rewrite lookup_insert_eq.
    + unfold parseFunction. by rewrite E, Er.
Qed.

Lemma findFunction_grows call_instr cache :
  cache ⊆ (findFunction host call_instr cache).2.
Proof.
  unfold findFunction.
  destruct (bool_decide (getNumInputs call_instr < 1)); [done|].
  destruct (getInput call_instr 0) as [dest|]; [|done].
  destruct (negb (isImm dest)); [done|].
  destruct (dladdr host (getConstant dest)) as [name|]; [|done].
  apply parseFunction_grows.
Qed.

Lemma findFunction_again call_instr cache :
  findFunction host call_instr (findFunction host call_instr cache).2
  = findFunction host call_instr cache.
Proof.
  unfold findFunction.
  destruct (bool_decide (getNumInputs call_instr < 1)); [done|].
  destruct (getInput call_instr 0) as [dest|]; [|done].
  destruct (negb (isImm dest)); [done|].
  destruct (dladdr host (getConstant dest)) as [name|]; [|done].
  apply parseFunction_again.
Qed.

End CacheFacts.

(** X4. [findFunction] never removes or replaces an entry of the cache,
    and a second call for the same call instruction returns the same
    function and leaves the cache as the first call left it. *)
Theorem findFunction_grows_cache_and_repeats
    (host : Host) (call_instr : Instruction) (cache : Cache) :
  cache ⊆ (findFunction host call_instr cache).2 ∧
  findFunction host call_instr (findFunction host call_instr cache).2
  = findFunction host call_instr cache.
Proof. split; [apply findFunction_grows|apply findFunction_again]. Qed.

(** X5. For a name that is not in the cache: when its LIR file can be
    read, the result of the parser, a null function included, is stored
    under the name, and every later lookup returns it whatever the file
    system and the parser then are; when the file cannot be read, nothing
    is stored. *)
Theorem parseFunction_remembers_parse_not_missing_file
    (host : Host) (name : string) (cache : Cache) :
  cache !! name = None →
  match read_file host (lir_path name) with
  | Some text =>
      ∀ host', parseFunction host' name (parseFunction host name cache).2
               = (parse host text, <[name := parse host text]> cache)
  | None =>
      parseFunction host name cache = (None, cache)
  end.
Proof.
  intros Hmiss. unfold parseFunction at 2 3. rewrite Hmiss.
  destruct (read_file host (lir_path name)) as [text|]; [|done].
  intros host'. simpl. unfold parseFunction. by rewrite lookup_insert_eq.
Qed.

Lemma parseFunction_remembers_parse_not_missing_file_witness :
  (∀ host', parseFunction host' "f" (parseFunction (Examples.host_of None) "f" ∅).2
            = (None, <["f" := None]> ∅))
  ∧ parseFunction Examples.host_without_file "f" ∅ = (None, ∅).
Proof.
  split.
  - exact (parseFunction_remembers_parse_not_missing_file
             (Examples.host_of None) "f" ∅ eq_refl).
  - exact (parseFunction_remembers_parse_not_missing_file
             Examples.host_without_file "f" ∅ eq_refl).
Defined.

(** X6. [findFunction] returns null exactly when the call has no input,
    its first input is not an immediate, the address has no symbol name,
    the cache holds a null function for the name, or the name is not in the
    cache and its LIR file cannot be read or parses to a null function. *)
Theorem findFunction_fails_exactly
    (host : Host) (call_instr : Instruction) (cache : Cache) :
  (findFunction host call_instr cache).1 = None ↔ unresolved host call_instr cache.
Proof.
  split; [|apply findFunction_unresolved].
  unfold findFunction, unresolved, getNumInputs, getInput.
  destruct (inputs call_instr) as [|dest rest] eqn:E; simpl; [by left|].
  intros H. right. exists dest. split; [done|].
  destruct (isImm dest) eqn:Himm; simpl in H; [|by left]. right.
  destruct (dladdr host (getConstant dest)) as [name|] eqn:Hdl; [|by left]. right.
  exists name. split; [done|].
  unfold parseFunction in H.
  destruct (cache !! name) as [cached|] eqn:Hc.
  - simpl in H. subst cached. by left.
  - right. split; [done|].
    destruct (read_file host (lir_path name)) as [text|] eqn:Hr; [|by left].
    right. exists text. split; [done|]. done.
Qed.

(** ** The uses that argument resolution rewrites *)

Section UsesFacts.

Context (vm : VregMap).

Lemma linked_def_setLinkedOperand o :
  linked_def (setLinkedOperand vm o) = map (replaced_by vm) (linked_def o).
Proof.
  destruct o as [c| |d|b ix|l]; try done.
  simpl. unfold replaced_by. by destruct (vm !! d).
Qed.

Lemma linked_def_resolved o :
  linked_def (if isLinked o then setLinkedOperand vm o else o)
  = map (replaced_by vm) (linked_def o).
Proof.
  destruct (isLinked o) eqn:E; [apply linked_def_setLinkedOperand|].
  destruct o; simpl in *; done.
Qed.

Lemma operand_uses_resolve_input o :
  operand_uses (resolve_input vm o) = map (replaced_by vm) (operand_uses o).
Proof.
  destruct o as [c| |d|b ix|l]; try done.
  - unfold resolve_input, setLinkedOperand, replaced_by. cbn [isLinked operand_uses].
    cbn [map]. by destruct (vm !! d).
  - unfold resolve_input. cbn [isLinked operand_uses].
    rewrite map_app, linked_def_resolved.
    destruct ix as [ix|]; [|done]. by rewrite linked_def_resolved.
Qed.

Lemma uses_resolved instr :
  uses (resolveLinkedArgumentsUses vm instr) = map (replaced_by vm) (uses instr).
Proof.
  unfold uses, resolveLinkedArgumentsUses. simpl.
  induction (inputs instr) as [|o l IH]; [done|].
  simpl. by rewrite map_app, IH, operand_uses_resolve_input.
Qed.

Lemma setLinkedOperand_untouched o :
  (∀ d, d ∈ linked_def o → vm !! d = None) → setLinkedOperand vm o = o.
Proof.
  destruct o as [c| |d|b ix|l]; try done.
  intros H. simpl. rewrite H; [done|]. simpl. apply list_elem_of_singleton. done.
Qed.

Lemma resolve_input_untouched o :
  (∀ d, d ∈ operand_uses o → vm !! d = None) → resolve_input vm o = o.
Proof.
  destruct o as [c| |d|b ix|l]; try done.
  - intros H. apply setLinkedOperand_untouched. done.
  - intros H. unfold resolve_input. cbn [isLinked]. f_equal.
    + destruct (isLinked b); [|done]. apply setLinkedOperand_untouched.
      intros d Hd. apply H. simpl. apply elem_of_app. by left.
    + destruct ix as [ix|]; [|done]. f_equal.
      destruct (isLinked ix); [|done]. apply setLinkedOperand_untouched.
      intros d Hd. apply H. simpl. apply elem_of_app. by right.
Qed.

End UsesFacts.

(** X7. [resolveLinkedArgumentsUses] replaces, in the inputs of an
    instruction, every reference to a definition that is a key of the map
    by a reference to the value of that key, once and not transitively,
    also in the base and index of a memory operand; the address, the
    opcode, the output and the number of inputs of the instruction stay. *)
Theorem resolveLinkedArgumentsUses_replaces_uses
    (vreg_map : VregMap) (instr : Instruction) :
  uses (resolveLinkedArgumentsUses vreg_map instr)
  = map (replaced_by vreg_map) (uses instr) ∧
  instr_id (resolveLinkedArgumentsUses vreg_map instr) = instr_id instr ∧
  opcode (resolveLinkedArgumentsUses vreg_map instr) = opcode instr ∧
  output (resolveLinkedArgumentsUses vreg_map instr) = output instr ∧
  getNumInputs (resolveLinkedArgumentsUses vreg_map instr) = getNumInputs instr.
Proof.
  split; [apply uses_resolved|].
  unfold resolveLinkedArgumentsUses, getNumInputs. simpl.
  by rewrite length_map.
Qed.

(** X8. An instruction none of whose inputs refers to a key of the map
    comes out of [resolveLinkedArgumentsUses] as it went in. *)
Theorem resolveLinkedArgumentsUses_untouched (vreg_map : VregMap) (instr : Instruction) :
  Forall (λ d, vreg_map !! d = None) (uses instr) →
  resolveLinkedArgumentsUses vreg_map instr = instr.
Proof.
  intros H. unfold resolveLinkedArgumentsUses, setInputs.
  destruct instr as [id op ins out]. simpl. f_equal.
  unfold uses in H. simpl in H.
  induction ins as [|o l IH]; [done|].
  simpl in H. apply Forall_app in H as [Ho Hl].
  simpl. f_equal; [|by apply IH].
  apply resolve_input_untouched. by apply Forall_forall.
Qed.

Lemma resolveLinkedArgumentsUses_untouched_witness :
  resolveLinkedArgumentsUses {[ 0 := 9 ]}
    (mkInstr 3 (kOther 1) [Linked 1; Ind (Linked 2) None; Imm 5] (Some VReg))
  = mkInstr 3 (kOther 1) [Linked 1; Ind (Linked 2) None; Imm 5] (Some VReg).
Proof.
  apply resolveLinkedArgumentsUses_untouched.
  repeat constructor.
Defined.

(** ** No use of an erased LoadArg is left *)

Section Substitution.

Context (args : list Operand).

Lemma resolve_instrs_app l1 : ∀ l2 vm,
  resolve_instrs args vm (l1 ++ l2) =
  '(vm1, l1') ← resolve_instrs args vm l1;
  '(vm2, l2') ← resolve_instrs args vm1 l2;
  Ok (vm2, l1' ++ l2').
Proof.
  induction l1 as [|i l1 IH]; intros l2 vm.
  - simpl. by destruct (resolve_instrs args vm l2) as [[??]|].
  - cbn [app resolve_instrs]. destruct (isLoadArg i).
    + destruct (resolveLoadArg args vm i) as [[vm0 here]|]; [|done].
      cbn [mbind Outcome_bind]. rewrite IH.
      destruct (resolve_instrs args vm0 l1) as [[vm1 l1']|]; [|done].
      cbn [mbind Outcome_bind].
      destruct (resolve_instrs args vm1 l2) as [[vm2 l2']|]; [|done].
      cbn [mbind Outcome_bind]. by rewrite app_assoc.
    + rewrite IH.
      destruct (resolve_instrs args vm l1) as [[vm1 l1']|]; [|done].
      cbn [mbind Outcome_bind].
      destruct (resolve_instrs args vm1 l2) as [[vm2 l2']|]; [|done].
      done.
Qed.

(** After the LoadArgs the map does not change any more. *)
Lemma resolve_instrs_body body : ∀ vm,
  Forall (λ i, opcode i ≠ kLoadArg) body →
  resolve_instrs args vm body = Ok (vm, map (resolveLinkedArgumentsUses vm) body).
Proof.
  induction body as [|i body IH]; intros vm Hall; [done|].
  apply Forall_cons in Hall as [Hi Hall].
  cbn [resolve_instrs]. unfold isLoadArg. rewrite bool_decide_false by done.
  by rewrite IH.
Qed.

(** What the LoadArgs leave behind: moves at the addresses of LoadArgs, and
    an entry of the map for every LoadArg that is gone. *)
Lemma resolve_instrs_load_args las : ∀ vm vm' moves,
  Forall (λ i, opcode i = kLoadArg) las →
  resolve_instrs args vm las = Ok (vm', moves) →
  (∀ i', i' ∈ moves → instr_id i' ∈ map instr_id las) ∧
  (∀ la, la ∈ las → is_Some (vm' !! instr_id la) ∨ instr_id la ∈ map instr_id moves) ∧
  (∀ d e, vm' !! d = Some e → vm !! d = Some e ∨ Linked e ∈ args) ∧
  (∀ d, is_Some (vm !! d) → is_Some (vm' !! d)).
Proof.
  induction las as [|i las IH]; intros vm vm' moves Hall Hres.
  - simpl in Hres. injection Hres as <- <-.
    split; [intros ? H; by apply elem_of_nil in H|].
    split; [intros ? H; by apply elem_of_nil in H|]. split; auto.
  - apply Forall_cons in Hall as [Hi Hall].
    cbn [resolve_instrs] in Hres. unfold isLoadArg in Hres.
    rewrite bool_decide_true in Hres by done.
    apply bind_Ok in Hres as ([vm0 here] & Hhere & Hres).
    apply bind_Ok in Hres as ([vm1 rest'] & Hrest & Hres).
    injection Hres as <- <-.
    destruct (IH _ _ _ Hall Hrest) as (IH1 & IH2 & IH3 & IH4).
    unfold resolveLoadArg in Hhere.
    destruct (getInput i 0) as [argument|]; [|done].
    destruct (negb (isImm argument)); [done|].
    apply bind_Ok in Hhere as (param & Hparam & Hhere).
    apply of_option_Ok in Hparam.
    destruct (isImm param) eqn:Himm.
    + injection Hhere as <- <-.
      split; [|split; [|split]].
      * intros i' Hi'. cbn [app] in Hi'. apply elem_of_cons in Hi' as [->|Hi'].
        -- simpl. by left.
        -- simpl. right. by apply IH1.
      * intros la Hla. apply elem_of_cons in Hla as [->|Hla].
        -- right. simpl. by left.
        -- destruct (IH2 la Hla) as [?|?]; [by left|]. right. simpl. by right.
      * done.
      * done.
    + destruct param as [c| |def|b ix|l]; try done.
      injection Hhere as <- <-.
      assert (Linked def ∈ args) as Hargs by (by eapply list_elem_of_lookup_2).
      split; [|split; [|split]].
      * intros i' Hi'. simpl. right. by apply IH1.
      * intros la Hla. apply elem_of_cons in Hla as [->|Hla].
        -- left. apply IH4. unfold emplace.
           destruct (vm !! instr_id i) eqn:E; [by rewrite E|].
           rewrite lookup_insert_eq. by eexists.
        -- destruct (IH2 la Hla) as [?|?]; [by left|]. by right.
      * intros d e Hde. destruct (IH3 d e Hde) as [Hvm|?]; [|by right].
        unfold emplace in Hvm. destruct (vm !! instr_id i) eqn:E; [by left|].
        destruct (decide (d = instr_id i)) as [->|Hne].
        -- rewrite lookup_insert_eq in Hvm. injection Hvm as <-. by right.
        -- rewrite lookup_insert_ne in Hvm by done. by left.
      * intros d Hd. apply IH4. unfold emplace.
        destruct (vm !! instr_id i) eqn:E; [done|].
        destruct (decide (d = instr_id i)) as [->|Hne].
        -- rewrite E in Hd. by destruct Hd.
        -- by rewrite lookup_insert_ne.
Qed.

End Substitution.

Lemma resolveArguments_loop_flat args mid : ∀ pre post vm bbs',
  resolveArguments_loop (length mid) (Z.of_nat (length pre)) args vm
    (pre ++ mid ++ post) = Ok bbs' →
  ∃ mid' vm',
    bbs' = pre ++ mid' ++ post ∧ length mid' = length mid ∧
    resolve_instrs args vm (concat (map instructions mid))
    = Ok (vm', concat (map instructions mid')).
Proof.
  induction mid as [|b mid IH]; intros pre post vm bbs' H.
  - simpl in H. injection H as <-. by exists [], vm.
  - cbn [length resolveArguments_loop] in H.
    simpl in H. rewrite at_index_middle in H. simpl in H.
    apply bind_Ok in H as ([vm1 instrs'] & Hres & H).
    rewrite Nat2Z.id in H.
    assert (<[length pre := setInstructions instrs' b]> (pre ++ b :: mid ++ post)
            = (pre ++ [setInstructions instrs' b]) ++ mid ++ post) as Hins.
    { replace (length pre) with (length pre + 0) at 1 by lia.
      rewrite insert_app_r. simpl. by rewrite <- app_assoc. }
    assert ((Z.of_nat (length pre) + 1)%Z
            = Z.of_nat (length (pre ++ [setInstructions instrs' b]))) as Hlen
      by (rewrite length_app; simpl; lia).
    rewrite Hins, Hlen in H.
    apply IH in H as (mid' & vm' & -> & Hl & Hflat).
    exists (setInstructions instrs' b :: mid'), vm'.
    split; [by rewrite <- app_assoc|]. split; [simpl; lia|].
    cbn [map concat]. rewrite resolve_instrs_app, Hres.
    cbn [mbind Outcome_bind]. by rewrite Hflat.
Qed.



(** ** What a LoadArg is bound to *)

Section BindingFacts.

Context (args : list Operand).

Lemma resolve_instrs_bound las : ∀ vm vm' moves,
  Forall (λ i, opcode i = kLoadArg) las →
  NoDup (map instr_id las) →
  (∀ la, la ∈ las → vm !! instr_id la = None) →
  resolve_instrs args vm las = Ok (vm', moves) →
  (∀ d, d ∉ map instr_id las → vm' !! d = vm !! d) ∧
  (∀ m, m ∈ moves → ∃ la k, la ∈ las ∧ m = bound_move la k) ∧
  ∀ la, la ∈ las → bound args vm' moves la.
Proof.
  induction las as [|i las IH]; intros vm vm' moves Hall Hnd Hvm Hres.
  - simpl in Hres. injection Hres as <- <-.
    split; [done|]. split; intros ? H; by apply elem_of_nil in H.
  - apply Forall_cons in Hall as [Hi Hall].
    apply NoDup_cons in Hnd as [Hid Hnd]. fold (map instr_id las) in Hid, Hnd.
    cbn [resolve_instrs] in Hres. unfold isLoadArg in Hres.
    rewrite bool_decide_true in Hres by done.
    apply bind_Ok in Hres as ([vm0 here] & Hhere & Hres).
    apply bind_Ok in Hres as ([vm1 rest'] & Hrest & Hres).
    injection Hres as <- <-.
    unfold resolveLoadArg in Hhere.
    destruct (getInput i 0) as [argument|] eqn:Hin; [|done].
    destruct argument as [c| | | |]; try done. simpl in Hhere.
    apply bind_Ok in Hhere as (param & Hparam & Hhere). apply of_option_Ok in Hparam.
    assert (vm !! instr_id i = None) as Hvmi by (apply Hvm; by left).
    destruct param as [k| |def|b ix|l]; try done; simpl in Hhere;
      injection Hhere as <- <-.
    + destruct (IH vm vm1 rest' Hall Hnd) as (IH1 & IH2 & IH3); [|done|].
      { intros la Hla. apply Hvm. by right. }
      split; [|split].
      * intros d Hd. apply IH1. intros H. apply Hd. by right.
      * intros m Hm. cbn [app] in Hm. apply elem_of_cons in Hm as [->|Hm].
        -- exists i, k. split; [by left|done].
        -- destruct (IH2 m Hm) as (la & k' & Hla & ->).
           exists la, k'. split; [by right|done].
      * intros la Hla. apply elem_of_cons in Hla as [->|Hla].
        -- exists c, (Imm k). split; [done|]. split; [done|]. split.
           ++ by rewrite IH1.
           ++ by left.
        -- destruct (IH3 la Hla) as (c' & param & H1 & H2 & H3).
           exists c', param. split; [done|]. split; [done|].
           destruct param as [k'| |def'|??|?]; try done.
           ++ destruct H3 as [? ?]. split; [done|]. by right.
           ++ destruct H3 as [? Hnot]. split; [done|].
              intros Hin'. cbn [app map] in Hin'.
              apply elem_of_cons in Hin' as [Hin'|Hin']; [|done].
              simpl in Hin'. apply Hid. rewrite <- Hin'. by apply list_elem_of_fmap_2.
    + assert (emplace (instr_id i) def vm = <[instr_id i := def]> vm) as Hem
        by (unfold emplace; by rewrite Hvmi).
      rewrite Hem in Hrest.
      destruct (IH (<[instr_id i := def]> vm) vm1 rest' Hall Hnd)
        as (IH1 & IH2 & IH3); [|done|].
      { intros la Hla. rewrite lookup_insert_ne; [apply Hvm; by right|].
        intros Heq. apply Hid. rewrite Heq. by apply list_elem_of_fmap_2. }
      split; [|split].
      * intros d Hd. rewrite IH1 by (intros H; apply Hd; by right).
        rewrite lookup_insert_ne; [done|]. intros <-. apply Hd. by left.
      * intros m Hm. destruct (IH2 m Hm) as (la & k' & Hla & ->).
        exists la, k'. split; [by right|done].
      * intros la Hla. apply elem_of_cons in Hla as [->|Hla]; [|by apply IH3].
        exists c, (Linked def). split; [done|]. split; [done|]. split.
        -- rewrite IH1 by done. by rewrite lookup_insert_eq.
        -- intros H. apply list_elem_of_fmap in H as (m & Hm1 & Hm2).
           destruct (IH2 m Hm2) as (la & k' & Hla & ->). simpl in Hm1.
           apply Hid. rewrite Hm1. by apply list_elem_of_fmap_2.
Qed.

End BindingFacts.

(** X10. When [resolveArguments] completes on a range of blocks that
    [checkLoadArg] accepts and whose LoadArgs are distinct instructions, the
    instructions of the range are, in order, the moves that take the place
    of the LoadArgs of immediate arguments, then the other instructions
    with [resolveLinkedArgumentsUses] applied under one and the same map.
    That map sends each LoadArg of a linked argument to the definition the
    argument is linked to and has no entry for a LoadArg of an immediate
    argument; every move is the move of such a LoadArg. *)
Theorem resolveArguments_binds_arguments
    (inl : LIRInliner) (call_instr : Instruction) (pre mid post bbs' : list BasicBlock) :
  callee_start_ inl = Z.of_nat (length pre) →
  callee_end_ inl = Z.of_nat (length pre + length mid) →
  checkLoadArg call_instr (mkFunction mid) = true →
  NoDup (load_arg_ids mid) →
  resolveArguments inl (pre ++ mid ++ post) = Ok bbs' →
  ∃ mid' vreg_map las body moves,
    bbs' = pre ++ mid' ++ post ∧
    all_instructions (mkFunction mid) = las ++ body ∧
    Forall (λ i, opcode i = kLoadArg) las ∧
    Forall (λ i, opcode i ≠ kLoadArg) body ∧
    all_instructions (mkFunction mid')
    = moves ++ map (resolveLinkedArgumentsUses vreg_map) body ∧
    Forall (bound (arguments_ inl) vreg_map moves) las ∧
    Forall (λ m, ∃ la k, la ∈ las ∧ m = bound_move la k) moves.
Proof.
  intros Hstart Hend Hcheck Hnd Hres.
  destruct inl as [call args s e]. simpl in *. subst s e.
  rewrite (resolveArguments_spliced _ _ _ _ _ _ eq_refl) in Hres.
  apply resolveArguments_loop_flat in Hres as (mid' & vm' & -> & Hlen & Hflat).
  unfold checkLoadArg in Hcheck. apply checkLoadArg_blocks_flat in Hcheck.
  apply checkLoadArg_instrs_prefix in Hcheck as (las & body & Hsplit & Hlas & Hbody).
  simpl in Hsplit.
  assert (load_arg_ids mid = map instr_id las) as Hids.
  { unfold load_arg_ids, all_instructions. simpl. rewrite Hsplit.
    rewrite filter_app. f_equal.
    assert (filter (λ i, opcode i = kLoadArg) body = []) as ->.
    { clear -Hbody. induction Hbody as [|i l Hi _ IH]; [done|].
      by rewrite filter_cons_False. }
    rewrite app_nil_r. clear -Hlas. induction Hlas as [|i l Hi _ IH]; [done|].
    rewrite filter_cons_True by done. by rewrite IH. }
  rewrite Hids in Hnd.
  rewrite Hsplit, resolve_instrs_app in Hflat.
  apply bind_Ok in Hflat as ([vm1 moves] & Hmoves & Hflat).
  rewrite (resolve_instrs_body _ _ _ Hbody) in Hflat.
  cbn [mbind Outcome_bind] in Hflat. injection Hflat as <- Hmid'.
  destruct (resolve_instrs_bound args las ∅ vm1 moves Hlas Hnd)
    as (_ & Hmoved & Hbound); [done|done|].
  exists mid', vm1, las, body, moves.
  split; [done|]. split; [done|]. split; [done|]. split; [done|].
  split; [done|]. split; by apply Forall_forall.
Qed.

Lemma resolveArguments_binds_arguments_witness :
  ∃ bbs' mid' vreg_map las body moves,
    resolveArguments Samples.inliner_two_args
      (Samples.before_call ++ Samples.copied_blocks ++ Samples.from_call) = Ok bbs'
    ∧ bbs' = Samples.before_call ++ mid' ++ Samples.from_call
    ∧ all_instructions (mkFunction Samples.copied_blocks) = las ++ body
    ∧ all_instructions (mkFunction mid')
      = moves ++ map (resolveLinkedArgumentsUses vreg_map) body
    ∧ Forall (bound [Linked 0; Imm 7] vreg_map moves) las.
Proof.
  assert (∃ bbs',
    resolveArguments Samples.inliner_two_args
      (Samples.before_call ++ Samples.copied_blocks ++ Samples.from_call) = Ok bbs')
    as [bbs' E] by (vm_compute; eauto).
  destruct (resolveArguments_binds_arguments
              Samples.inliner_two_args Samples.call_two_args
              Samples.before_call Samples.copied_blocks Samples.from_call
              bbs' eq_refl eq_refl eq_refl)
    as (mid' & vm & las & body & moves & Heq & Hsplit & _ & _ & Hall & Hbound & _).
  - apply (bool_decide_unpack _). vm_compute. exact I.
  - exact E.
  - exists bbs', mid', vm, las, body, moves.
    split; [exact E|]. split; [exact Heq|]. split; [exact Hsplit|].
    split; [exact Hall|exact Hbound].
Defined.

(** ** What the two resolution steps leave alone *)

Section Frame.

Lemma at_index_Ok bbs i b :
  at_index bbs i = Ok b → (0 ≤ i)%Z ∧ bbs !! Z.to_nat i = Some b.
Proof.
  unfold at_index. case_bool_decide as Hpos; [|done].
  intros H. by apply of_option_Ok in H.
Qed.

Lemma resolveArguments_loop_frame args n : ∀ i vm bbs bbs',
  resolveArguments_loop n i args vm bbs = Ok bbs' →
  (0 < n → (0 ≤ i)%Z ∧ (i + Z.of_nat n ≤ Z.of_nat (length bbs))%Z) ∧
  length bbs' = length bbs ∧
  ∀ j b, bbs !! j = Some b →
    ∃ b', bbs' !! j = Some b' ∧
      bb_id b' = bb_id b ∧ predecessors b' = predecessors b ∧
      successors b' = successors b ∧
      (¬ (i ≤ Z.of_nat j < i + Z.of_nat n)%Z → b' = b).
Proof.
  induction n as [|n IH]; intros i vm bbs bbs' H.
  - simpl in H. injection H as <-. split; [lia|]. split; [done|].
    intros j b Hj. by exists b.
  - cbn [resolveArguments_loop] in H.
    apply bind_Ok in H as (bb & Hat & H).
    apply bind_Ok in H as ([vm1 instrs'] & Hres & H).
    apply at_index_Ok in Hat as [Hi Hbb].
    apply IH in H as (Hbound & Hlen & Hframe).
    rewrite length_insert in Hbound, Hlen.
    pose proof (lookup_lt_Some _ _ _ Hbb) as Hlt.
    split.
    { intros _. split; [done|]. destruct n as [|n]; [lia|].
      destruct Hbound as [_ ?]; lia. }
    split; [done|].
    intros j b Hj.
    destruct (decide (j = Z.to_nat i)) as [->|Hne].
    + rewrite Hbb in Hj. injection Hj as <-.
      destruct (Hframe (Z.to_nat i) (setInstructions instrs' bb))
        as (b' & Hb' & Hid & Hp & Hs & _).
      { by rewrite list_lookup_insert_eq. }
      exists b'. split; [done|]. repeat split; try done. lia.
    + destruct (Hframe j b) as (b' & Hb' & Hid & Hp & Hs & Hsame).
      { by rewrite list_lookup_insert_ne. }
      exists b'. split; [done|]. repeat split; try done.
      intros Hout. apply Hsame. lia.
Qed.

End Frame.

(** X11. When [resolveArguments] completes, a range that is not empty lies
    within the block list, the list has the blocks it had, each with the
    address, predecessors and successors it had, and the blocks outside
    [callee_start_, callee_end_) are unchanged. *)
Theorem resolveArguments_touches_only_its_range
    (inl : LIRInliner) (bbs bbs' : list BasicBlock) :
  resolveArguments inl bbs = Ok bbs' →
  ((callee_start_ inl < callee_end_ inl)%Z →
   (0 ≤ callee_start_ inl)%Z ∧ (callee_end_ inl ≤ Z.of_nat (length bbs))%Z) ∧
  length bbs' = length bbs ∧
  ∀ j b, bbs !! j = Some b →
    ∃ b', bbs' !! j = Some b' ∧
      bb_id b' = bb_id b ∧ predecessors b' = predecessors b ∧
      successors b' = successors b ∧
      (¬ (callee_start_ inl ≤ Z.of_nat j < callee_end_ inl)%Z → b' = b).
Proof.
  unfold resolveArguments. intros H.
  apply resolveArguments_loop_frame in H as (Hbound & Hlen & Hframe).
  split; [intros Hlt; destruct Hbound; lia|]. split; [done|].
  intros j b Hj. destruct (Hframe j b Hj) as (b' & Hb' & Hid & Hp & Hs & Hsame).
  exists b'. split; [done|]. repeat split; try done.
  intros Hout. apply Hsame. lia.
Qed.

Lemma resolveArguments_touches_only_its_range_witness :
  ∃ bbs',
    resolveArguments Samples.inliner_two_args Samples.spliced = Ok bbs'
    ∧ length bbs' = 4
    ∧ bbs' !! 0 = head Samples.before_call
    ∧ bbs' !! 3 = head Samples.from_call.
Proof.
  assert (∃ bbs',
    resolveArguments Samples.inliner_two_args Samples.spliced = Ok bbs')
    as [bbs' E] by (vm_compute; eauto).
  destruct (resolveArguments_touches_only_its_range _ _ _ E) as (_ & Hlen & Hframe).
  exists bbs'. split; [exact E|]. split; [exact Hlen|]. split.
  - destruct (Hframe 0 _ eq_refl) as (b' & -> & _ & _ & _ & Hsame).
    simpl. f_equal. apply Hsame. simpl. lia.
  - destruct (Hframe 3 _ eq_refl) as (b' & -> & _ & _ & _ & Hsame).
    simpl. f_equal. apply Hsame. simpl. lia.
Defined.

Section Edges.

Lemma edges_update_block p bbs :
  map edges (update_block p removeLastInstr bbs) = map edges bbs.
Proof.
  unfold update_block. rewrite map_map. apply map_ext.
  intros b. by case_bool_decide.
Qed.

Lemma edges_modify_instr id g bbs :
  map edges (modify_instr id g bbs) = map edges bbs.
Proof. unfold modify_instr. rewrite map_map. by apply map_ext. Qed.

Lemma edges_merge_returns phi : ∀ preds bbs bbs',
  merge_returns phi preds bbs = Ok bbs' → map edges bbs' = map edges bbs.
Proof.
  induction preds as [|p rest IH]; intros bbs bbs' H; simpl in H.
  - by injection H as <-.
  - apply bind_Ok in H as (pred_bb & _ & H).
    destruct (getLastInstr pred_bb) as [lastInstr|]; [|by apply IH].
    destruct (isReturn lastInstr); [|by apply IH].
    destruct (getInput lastInstr 0); [|done].
    apply IH in H. by rewrite H, edges_update_block, !edges_modify_instr.
Qed.

End Edges.

(** X12. When [resolveReturnValue] completes, [callee_end_ - 1] is a
    position of the block list, and the list has the blocks it had, each
    with the predecessors and successors it had: the returns are deleted,
    the edges they stood for are not. *)
Theorem resolveReturnValue_keeps_edges
    (inl : LIRInliner) (bbs bbs' : list BasicBlock) :
  resolveReturnValue inl bbs = Ok bbs' →
  (0 < callee_end_ inl ≤ Z.of_nat (length bbs))%Z ∧
  map edges bbs' = map edges bbs.
Proof.
  unfold resolveReturnValue. intros H.
  apply bind_Ok in H as (epilogue & Hat & H).
  apply bind_Ok in H as (bbs2 & Hm & H).
  apply bind_Ok in H as (phi_now & _ & H).
  apply at_index_Ok in Hat as [Hpos Hepi].
  pose proof (lookup_lt_Some _ _ _ Hepi) as Hlt.
  split; [lia|].
  apply edges_merge_returns in Hm.
  assert (map edges bbs2 = map edges bbs) as Hsame.
  { rewrite Hm, list_fmap_insert. apply list_insert_id.
    rewrite list_lookup_fmap, Hepi. done. }
  case_bool_decide; injection H as <-.
  - by rewrite edges_modify_instr, edges_update_block.
  - by rewrite edges_modify_instr.
Qed.

Lemma resolveReturnValue_keeps_edges_witness :
  ∃ bbs',
    resolveReturnValue Samples.inliner_two_args Samples.spliced = Ok bbs'
    ∧ map edges bbs' = map edges Samples.spliced.
Proof.
  assert (∃ bbs',
    resolveReturnValue Samples.inliner_two_args Samples.spliced = Ok bbs')
    as [bbs' E] by (vm_compute; eauto).
  exists bbs'. split; [exact E|].
  exact (proj2 (resolveReturnValue_keeps_edges _ _ _ E)).
Defined.

Section Deletions.

Lemma elem_of_removelast_other {A} (l : list A) (x r : A) :
  last l = Some r → x ∈ l → x ≠ r → x ∈ removelast l.
Proof.
  intros Hl Hx Hne. apply removelast_snoc_last in Hl. rewrite Hl in Hx.
  apply elem_of_app in Hx as [Hx|Hx]; [done|].
  apply list_elem_of_singleton in Hx. done.
Qed.

Lemma elem_of_modify_in_block id g b i :
  i ∈ instructions b → instr_id i ≠ id → i ∈ instructions (modify_in_block id g b).
Proof.
  intros Hi Hne. unfold modify_in_block. simpl.
  apply list_elem_of_fmap. exists i. split; [|done].
  by rewrite bool_decide_false.
Qed.

Lemma last_modify_in_block id g b r :
  (∀ i, opcode (g i) = opcode i ∧ instr_id (g i) = instr_id i) →
  last (instructions b) = Some r →
  ∃ r', last (instructions (modify_in_block id g b)) = Some r' ∧
        opcode r' = opcode r ∧ instr_id r' = instr_id r.
Proof.
  intros Hg Hl. unfold modify_in_block. simpl.
  rewrite fmap_last, Hl. simpl. eexists. split; [done|].
  case_bool_decide; [apply Hg|done].
Qed.

Lemma modify_in_block_keeps id g b x :
  x ∈ instructions b →
  (∀ i, instr_id (g i) = instr_id i ∧ output (g i) = output i) →
  ∃ x', x' ∈ instructions (modify_in_block id g b) ∧
        instr_id x' = instr_id x ∧ output x' = output x ∧
        (instr_id x ≠ id → x' = x).
Proof.
  intros Hx Hg. unfold modify_in_block. simpl.
  exists (if bool_decide (instr_id x = id) then g x else x). split.
  - apply list_elem_of_fmap. by exists x.
  - case_bool_decide; [|done]. destruct (Hg x) as [? ?]. done.
Qed.

Context (phi : InstrId) (epi : BlockId).

Lemma merging_step bbs0 bbs p pred_bb lastInstr ops1 ops2 :
  NoDup (map bb_id bbs0) →
  merging phi epi bbs0 bbs →
  find_block p bbs = Some pred_bb →
  getLastInstr pred_bb = Some lastInstr →
  isReturn lastInstr = true →
  merging phi epi bbs0
    (update_block p removeLastInstr
       (modify_instr phi (appendInputs ops2)
          (modify_instr phi (appendInputs ops1) bbs))).
Proof.
  intros Hnd (Hids & Hepi & Hkeep) Hfind Hlast Hret.
  apply bool_decide_eq_true in Hret.
  assert (NoDup (map bb_id bbs)) as Hnd' by (by rewrite Hids).
  apply find_block_Some in Hfind as [Hin Hp].
  assert (∀ i, opcode (appendInputs ops1 i) = opcode i
               ∧ instr_id (appendInputs ops1 i) = instr_id i) as Hg1 by done.
  assert (∀ i, opcode (appendInputs ops2 i) = opcode i
               ∧ instr_id (appendInputs ops2 i) = instr_id i) as Hg2 by done.
  split; [|split].
  - rewrite map_bb_id_update_block by done.
    by rewrite !map_bb_id_modify_instr.
  - intros b Hb Hbid.
    unfold update_block, modify_instr in Hb.
    apply list_elem_of_fmap in Hb as (b2 & -> & Hb2).
    apply list_elem_of_fmap in Hb2 as (b1 & -> & Hb1).
    apply list_elem_of_fmap in Hb1 as (b0 & -> & Hb0).
    assert (bb_id b0 = epi) as Hb0id.
    { revert Hbid. by case_bool_decide. }
    destruct (Hepi b0 Hb0 Hb0id) as (r & Hr & Hrid & Hrop).
    destruct (last_modify_in_block phi (appendInputs ops1) b0 r Hg1 Hr)
      as (r1 & Hr1 & Hop1 & Hid1).
    destruct (last_modify_in_block phi (appendInputs ops2) _ r1 Hg2 Hr1)
      as (r2 & Hr2 & Hop2 & Hid2).
    simpl in Hbid. rewrite bool_decide_false.
    + exists r2. split; [done|]. split; congruence.
    + simpl. intros Heq.
      assert (b0 = pred_bb) as ->.
      { pose proof (find_block_NoDup bbs b0 Hnd' Hb0) as H1.
        pose proof (find_block_NoDup bbs pred_bb Hnd' Hin) as H2.
        rewrite Heq, <- Hp in H1. congruence. }
      unfold getLastInstr in Hlast. congruence.
  - intros j b i Hj Hi Hop Hid.
    destruct (Hkeep j b i Hj Hi Hop Hid) as (b' & Hb' & Hi').
    unfold update_block, modify_instr. rewrite !list_lookup_fmap, Hb'. simpl.
    eexists. split; [done|].
    pose proof (elem_of_modify_in_block phi (appendInputs ops1) b' i Hi' Hid) as Hi1.
    pose proof (elem_of_modify_in_block phi (appendInputs ops2) _ i Hi1 Hid) as Hi2.
    case_bool_decide as Hbid; [|done].
    assert (b' = pred_bb) as ->.
    { apply list_elem_of_lookup_2 in Hb'.
      pose proof (find_block_NoDup bbs b' Hnd' Hb') as H1.
      pose proof (find_block_NoDup bbs pred_bb Hnd' Hin) as H2.
      simpl in Hbid. rewrite Hbid, <- Hp in H1. congruence. }
    destruct (last_modify_in_block phi (appendInputs ops1) pred_bb lastInstr Hg1 Hlast)
      as (r1 & Hr1 & Hop1 & Hid1).
    destruct (last_modify_in_block phi (appendInputs ops2) _ r1 Hg2 Hr1)
      as (r2 & Hr2 & Hop2 & Hid2).
    unfold removeLastInstr. simpl.
    eapply elem_of_removelast_other; [exact Hr2|exact Hi2|].
    intros ->. congruence.
Qed.

Lemma merging_merge_returns bbs0 : ∀ preds bbs bbs',
  NoDup (map bb_id bbs0) →
  merging phi epi bbs0 bbs →
  merge_returns phi preds bbs = Ok bbs' →
  merging phi epi bbs0 bbs'.
Proof.
  induction preds as [|p rest IH]; intros bbs bbs' Hnd Hinv H; simpl in H.
  - by injection H as <-.
  - apply bind_Ok in H as (pred_bb & Hfind & H). apply of_option_Ok in Hfind.
    destruct (getLastInstr pred_bb) as [lastInstr|] eqn:Hlast; [|by eapply IH].
    destruct (isReturn lastInstr) eqn:Hret; [|by eapply IH].
    destruct (getInput lastInstr 0) as [value|]; [|done].
    eapply IH; [done| |exact H].
    by eapply merging_step.
Qed.

End Deletions.

Section MergedLinks.

Lemma uses_appendInputs ops i :
  uses (appendInputs ops i) = uses i ++ flat_map operand_uses ops.
Proof. unfold uses, appendInputs. simpl. by rewrite flat_map_app. Qed.

Lemma all_instructions_update_removelast p bbs i :
  i ∈ all_instructions (mkFunction (update_block p removeLastInstr bbs)) →
  i ∈ all_instructions (mkFunction bbs).
Proof.
  intros H. apply elem_of_all_instructions_inv in H as (b & Hb & Hi). simpl in Hb.
  unfold update_block in Hb. apply list_elem_of_fmap in Hb as (b0 & -> & Hb0).
  apply (elem_of_all_instructions (mkFunction bbs) b0); [done|].
  revert Hi. case_bool_decide; [|done]. simpl. apply elem_of_removelast.
Qed.

Lemma uses_from_modify l0 phi ops bbs :
  (∀ d, d ∈ flat_map operand_uses ops → ∃ r, r ∈ l0 ∧ d ∈ uses r) →
  uses_from l0 (all_instructions (mkFunction bbs)) →
  uses_from l0 (all_instructions (mkFunction (modify_instr phi (appendInputs ops) bbs))).
Proof.
  intros Hops Hinv i d Hi Hd. rewrite all_instructions_modify in Hi.
  apply list_elem_of_fmap in Hi as (i0 & -> & Hi0).
  revert Hd. case_bool_decide; [|by apply Hinv].
  rewrite uses_appendInputs. intros Hd.
  apply elem_of_app in Hd as [Hd|Hd]; [by eapply Hinv|by apply Hops].
Qed.

Lemma uses_from_merge_returns l0 phi : ∀ preds bbs bbs',
  uses_from l0 (all_instructions (mkFunction bbs)) →
  merge_returns phi preds bbs = Ok bbs' →
  uses_from l0 (all_instructions (mkFunction bbs')).
Proof.
  induction preds as [|p rest IH]; intros bbs bbs' Hinv H; simpl in H.
  - by injection H as <-.
  - apply bind_Ok in H as (pred_bb & Hfind & H). apply of_option_Ok in Hfind.
    destruct (getLastInstr pred_bb) as [lastInstr|] eqn:Hlast; [|by eapply IH].
    destruct (isReturn lastInstr) eqn:Hret; [|by eapply IH].
    destruct (getInput lastInstr 0) as [value|] eqn:Hval; [|done].
    eapply IH; [|exact H].
    intros i d Hi Hd. apply all_instructions_update_removelast in Hi.
    revert i d Hi Hd. apply uses_from_modify; [|apply uses_from_modify; [|done]].
    + intros d Hd. simpl in Hd. rewrite app_nil_r in Hd.
      apply find_block_Some in Hfind as [Hin _].
      apply (Hinv lastInstr d).
      * apply (elem_of_all_instructions (mkFunction bbs) pred_bb); [done|].
        unfold getLastInstr in Hlast. by apply last_Some_elem_of.
      * unfold uses. apply list_elem_of_In, in_flat_map. exists value.
        split; [|by apply list_elem_of_In].
        apply list_elem_of_In. unfold getInput in Hval.
        by eapply list_elem_of_lookup_2.
    + intros d Hd. simpl in Hd. by apply elem_of_nil in Hd.
Qed.

End MergedLinks.

(** [resolveReturnValue], taken apart: the blocks [bbs2] that the loop
    leaves, and the two ways in which the call is rewritten. *)
Lemma resolveReturnValue_stages inl bbs bbs' :
  NoDup (map bb_id bbs) →
  resolveReturnValue inl bbs = Ok bbs' →
  let phi := fresh_instr_id bbs in
  ∃ e epilogue bbs2,
    bbs !! e = Some epilogue ∧
    merging phi (bb_id epilogue) bbs bbs2 ∧
    uses_from (all_instructions (mkFunction bbs)) (all_instructions (mkFunction bbs2)) ∧
    (bbs' = modify_instr (call_instr_ inl) (setOpcode kNop)
              (update_block (bb_id epilogue) removeLastInstr bbs2)
     ∨ bbs' = modify_instr (call_instr_ inl)
                (λ i, setInputs [Linked phi] (setOpcode kMove i)) bbs2).
Proof.
  intros Hnd H phi. unfold resolveReturnValue in H.
  apply bind_Ok in H as (epilogue & Hat & H).
  apply bind_Ok in H as (bbs2 & Hm & H).
  apply bind_Ok in H as (phi_now & _ & H).
  apply at_index_Ok in Hat as [Hpos Hepi].
  fold phi in Hm, H.
  set (e := Z.to_nat (callee_end_ inl - 1)) in *.
  set (bbs1 := <[e := _]> bbs) in *.
  exists e, epilogue, bbs2. split; [done|].
  assert (map bb_id bbs1 = map bb_id bbs) as Hids1.
  { unfold bbs1. rewrite list_fmap_insert. apply list_insert_id.
    by rewrite list_lookup_fmap, Hepi. }
  assert (merging phi (bb_id epilogue) bbs bbs1) as Hinv.
  { split; [done|]. split.
    - intros x Hx Hxid. unfold bbs1 in Hx.
      apply list_elem_of_lookup in Hx as [k Hk].
      destruct (decide (k = e)) as [->|Hne].
      + rewrite list_lookup_insert_eq in Hk by (by eapply lookup_lt_Some).
        injection Hk as <-. simpl. rewrite last_snoc. by eexists.
      + rewrite list_lookup_insert_ne in Hk by done.
        exfalso. apply Hne.
        eapply (NoDup_lookup (map bb_id bbs)); [done| |].
        * by rewrite list_lookup_fmap, Hk.
        * rewrite list_lookup_fmap, Hepi. simpl. by rewrite Hxid.
    - intros k x i Hk Hi _ _. unfold bbs1.
      destruct (decide (k = e)) as [->|Hne].
      + rewrite list_lookup_insert_eq by (by eapply lookup_lt_Some).
        eexists. split; [done|]. simpl. apply elem_of_app. left. congruence.
      + rewrite list_lookup_insert_ne by done. by exists x. }
  assert (uses_from (all_instructions (mkFunction bbs))
            (all_instructions (mkFunction bbs1))) as Hfrom.
  { intros i d Hi Hd.
    apply elem_of_all_instructions_inv in Hi as (b & Hb & Hi). simpl in Hb.
    unfold bbs1 in Hb. apply list_elem_of_lookup in Hb as [k Hk].
    destruct (decide (k = e)) as [->|Hne].
    - rewrite list_lookup_insert_eq in Hk by (by eapply lookup_lt_Some).
      injection Hk as <-. simpl in Hi.
      apply elem_of_app in Hi as [Hi|Hi].
      + exists i. split; [|done].
        apply (elem_of_all_instructions (mkFunction bbs) epilogue); [|done].
        by eapply list_elem_of_lookup_2.
      + apply list_elem_of_singleton in Hi as ->. by apply elem_of_nil in Hd.
    - rewrite list_lookup_insert_ne in Hk by done.
      exists i. split; [|done].
      apply (elem_of_all_instructions (mkFunction bbs) b); [|done].
      by eapply list_elem_of_lookup_2. }
  split; [by eapply merging_merge_returns|].
  split; [by eapply uses_from_merge_returns|].
  case_bool_decide; injection H as <-; [by left|by right].
Qed.

Lemma resolveReturnValue_kept inl bbs bbs' :
  NoDup (map bb_id bbs) →
  resolveReturnValue inl bbs = Ok bbs' →
  ∀ j b instr,
    bbs !! j = Some b → instr ∈ instructions b → opcode instr ≠ kReturn →
    ∃ b' instr',
      bbs' !! j = Some b' ∧ instr' ∈ instructions b' ∧
      instr_id instr' = instr_id instr ∧ output instr' = output instr ∧
      opcode instr' ≠ kReturn ∧
      (instr_id instr ≠ call_instr_ inl → instr' = instr).
Proof.
  intros Hnd H j b instr Hj Hinstr Hop.
  destruct (resolveReturnValue_stages _ _ _ Hnd H)
    as (e & epilogue & bbs2 & Hepi & (Hids2 & Hlast2 & Hkeep2) & _ & Hfinal).
  assert (instr_id instr ≠ fresh_instr_id bbs) as Hfresh.
  { apply list_elem_of_lookup_2 in Hj.
    pose proof (instr_id_lt_fresh b instr bbs Hj Hinstr). lia. }
  destruct (Hkeep2 j b instr Hj Hinstr Hop Hfresh) as (b2 & Hb2 & Hi2).
  assert (∀ g b3,
            instr ∈ instructions b3 →
            (∀ i, instr_id (g i) = instr_id i ∧ output (g i) = output i
                  ∧ opcode (g i) ≠ kReturn) →
            ∃ x', x' ∈ instructions (modify_in_block (call_instr_ inl) g b3) ∧
                  instr_id x' = instr_id instr ∧ output x' = output instr ∧
                  opcode x' ≠ kReturn ∧
                  (instr_id instr ≠ call_instr_ inl → x' = instr)) as Hmod.
  { intros g b3 Hx Hg. unfold modify_in_block. simpl.
    exists (if bool_decide (instr_id instr = call_instr_ inl) then g instr else instr).
    split; [apply list_elem_of_fmap; by exists instr|].
    case_bool_decide; [|done]. destruct (Hg instr) as (? & ? & ?). done. }
  destruct Hfinal as [->| ->].
  - assert (∃ b3, update_block (bb_id epilogue) removeLastInstr bbs2 !! j = Some b3
                  ∧ instr ∈ instructions b3) as (b3 & Hb3 & Hi3).
    { unfold update_block. rewrite list_lookup_fmap, Hb2. simpl.
      eexists. split; [done|].
      case_bool_decide as Hbid; [|done].
      destruct (Hlast2 b2) as (r & Hr & Hrid & Hrop);
        [by eapply list_elem_of_lookup_2|done|].
      unfold removeLastInstr. simpl.
      eapply elem_of_removelast_other; [exact Hr|exact Hi2|].
      intros ->. done. }
    unfold modify_instr. rewrite list_lookup_fmap, Hb3. simpl.
    destruct (Hmod (setOpcode kNop) b3 Hi3) as (x' & Hx'); [done|].
    by exists (modify_in_block (call_instr_ inl) (setOpcode kNop) b3), x'.
  - unfold modify_instr. rewrite list_lookup_fmap, Hb2. simpl.
    destruct (Hmod (λ i, setInputs [Linked (fresh_instr_id bbs)] (setOpcode kMove i))
                b2 Hi2) as (x' & Hx'); [done|].
    by eexists _, x'.
Qed.

(** X13. [resolveReturnValue] deletes no instruction but returns: when the
    blocks are distinct objects and it completes, every instruction that is
    not a return is in the block it was in, with its address and output,
    is no return, and is unchanged unless it is the call instruction. *)
Theorem resolveReturnValue_deletes_only_returns
    (inl : LIRInliner) (bbs bbs' : list BasicBlock) :
  NoDup (map bb_id bbs) →
  resolveReturnValue inl bbs = Ok bbs' →
  ∀ j b instr,
    bbs !! j = Some b → instr ∈ instructions b → opcode instr ≠ kReturn →
    ∃ b' instr',
      bbs' !! j = Some b' ∧ instr' ∈ instructions b' ∧
      instr_id instr' = instr_id instr ∧ output instr' = output instr ∧
      opcode instr' ≠ kReturn ∧
      (instr_id instr ≠ call_instr_ inl → instr' = instr).
Proof.
  intros Hnd H j b instr Hj Hinstr Hop.
  by eapply resolveReturnValue_kept.
Qed.

Lemma resolveReturnValue_deletes_only_returns_witness :
  ∃ bbs' b' instr',
    resolveReturnValue Samples.inliner_two_args Samples.spliced = Ok bbs'
    ∧ bbs' !! 1 = Some b' ∧ instr' ∈ instructions b' ∧ instr_id instr' = 22.
Proof.
  assert (∃ bbs',
    resolveReturnValue Samples.inliner_two_args Samples.spliced = Ok bbs')
    as [bbs' E] by (vm_compute; eauto).
  assert (NoDup (map bb_id Samples.spliced)) as Hnd
    by (apply (bool_decide_unpack _); vm_compute; exact I).
  destruct (resolveReturnValue_deletes_only_returns _ _ _ Hnd E 1 _
              (mkInstr 22 (kOther 1)
                 [Linked 20; Ind (Linked 20) (Some (Linked 21))] (Some VReg))
              eq_refl)
    as (b' & instr' & Hb' & Hin & Hid & _).
  - simpl. right. right. left.
  - discriminate.
  - exists bbs', b', instr'. split; [exact E|]. split; [exact Hb'|]. split; [exact Hin|exact Hid].
Defined.

(** ** The pass as a whole, again *)

Section Accounting.

Lemma splitBefore_length k block1 call bbs bbs1 block2 :
  k < length bbs →
  splitBefore k block1 call bbs = (bbs1, block2) →
  length bbs1 = S (length bbs).
Proof.
  intros Hk H. unfold splitBefore in H. injection H as <- _.
  rewrite length_app. simpl. rewrite !length_map, length_take, length_drop. lia.
Qed.

Lemma copyFrom_length callee block1 block2 bbs bbs' b e :
  copyFrom callee block1 block2 bbs = Ok (bbs', (b, e)) →
  length bbs' = length bbs + length (basicblocks callee) ∧
  (e = b + Z.of_nat (length (basicblocks callee)))%Z.
Proof.
  unfold copyFrom. intros H.
  apply bind_Ok in H as ([k x] & Hk & H). apply of_option_Ok in Hk.
  apply list_find_Some in Hk as (Hk & _).
  apply lookup_lt_Some in Hk.
  destruct (basicblocks callee) as [|c cs] eqn:Hc.
  - simpl in H. injection H as <- <- <-. simpl. split; lia.
  - cbn [map] in H. injection H as <- <- <-.
    rewrite !length_app, wire_length, length_take, length_drop.
    unfold update_block. simpl. rewrite !length_map. split; lia.
Qed.

End Accounting.

(** X14. [inlineCall] returns true only for a callee that [findFunction]
    resolved and [isInlineable] accepted. The caller then has one block
    more for the split and one more for each block of the callee; the range
    [callee_start_, callee_end_) are the positions right after the block
    that held the call, one for each block of the callee; [arguments_] has
    received the actual arguments of the call, and the cache is the one
    [findFunction] left. *)
Theorem inlineCall_block_accounting
    (host : Host) (inl inl' : LIRInliner) (w w' : World) :
  inlineCall host inl w = Ok (true, inl', w') →
  ∃ call_instr callee k block1,
    find_instr (call_instr_ inl) (caller w) = Some call_instr ∧
    findFunction host call_instr (name_to_function w)
    = (Some callee, name_to_function w') ∧
    isInlineable call_instr (arguments_ inl) callee = (true, arguments_ inl') ∧
    arguments_ inl' = arguments_ inl ++ actual_arguments call_instr ∧
    call_instr_ inl' = call_instr_ inl ∧
    block_index_of (call_instr_ inl) (caller w) = Some (k, block1) ∧
    callee_start_ inl' = Z.of_nat (k + 1) ∧
    callee_end_ inl' = Z.of_nat (k + 1 + length (basicblocks callee)) ∧
    length (basicblocks (caller w'))
    = length (basicblocks (caller w)) + 1 + length (basicblocks callee).
Proof.
  intros Hrun.
  destruct (find_instr (call_instr_ inl) (caller w)) as [call_instr|] eqn:Hcall.
  2:{ unfold inlineCall in Hrun. by rewrite Hcall in Hrun. }
  pose proof (inlineCall_cases host inl w call_instr Hcall) as Hc.
  destruct (findFunction host call_instr (name_to_function w))
    as [[callee|] cache] eqn:Hfind; [|by rewrite Hc in Hrun].
  destruct (isInlineable call_instr (arguments_ inl) callee) as [[|] args] eqn:Hinl;
    [|by rewrite Hc in Hrun].
  clear Hc.
  assert (args = arguments_ inl ++ actual_arguments call_instr) as Hargs.
  { assert ((isInlineable call_instr (arguments_ inl) callee).1 = true) as H
      by (by rewrite Hinl).
    apply isInlineable_true_args in H. congruence. }
  unfold inlineCall in Hrun. rewrite Hcall in Hrun.
  cbn [mbind Outcome_bind of_option] in Hrun.
  rewrite Hfind, Hinl in Hrun. cbv zeta in Hrun. cbn [negb call_instr_] in Hrun.
  apply bind_Ok in Hrun as ([k block1] & Hidx & Hrun). apply of_option_Ok in Hidx.
  destruct (splitBefore k block1 (call_instr_ inl) (basicblocks (caller w)))
    as [bbs1 block2] eqn:Hsplit.
  apply bind_Ok in Hrun as ([bbs2 [b e]] & Hcopy & Hrun).
  apply bind_Ok in Hrun as (bbs3 & Hres & Hrun).
  apply bind_Ok in Hrun as (bbs4 & Hmerge & Hrun).
  injection Hrun as <- <-.
  pose proof Hidx as Hk. apply list_find_Some in Hk as (Hk & _).
  apply lookup_lt_Some in Hk.
  pose proof (splitBefore_length _ _ _ _ _ _ Hk Hsplit) as Hl1.
  pose proof (copyFrom_length _ _ _ _ _ _ _ Hcopy) as [Hl2 He].
  apply resolveArguments_loop_frame in Hres as (_ & Hl3 & _).
  apply resolveReturnValue_length in Hmerge.
  exists call_instr, callee, k, block1. simpl.
  split; [done|]. split; [done|]. split; [done|]. split; [done|]. split; [done|].
  split; [done|].
  assert (basicblocks callee ≠ []) as Hne.
  { assert ((isInlineable call_instr (arguments_ inl) callee).1 = true) as H
      by (by rewrite Hinl).
    apply isInlineable_true in H as [H _].
    apply checkEntryExitReturn_true in H as (x & _ & Hx & _).
    unfold getEntryBlock in Hx. intros Hnil. by rewrite Hnil in Hx. }
  destruct (splice_shape _ callee _ _ _ _ _ Hidx Hne Hsplit)
    as (pre & post & bb & ib & Hcopy' & _ & _ & (pre0 & b1 & -> & Hpre0 & _) & _).
  rewrite Hcopy' in Hcopy. injection Hcopy as _ <- <-.
  apply (f_equal length) in Hpre0. rewrite !length_map, length_take in Hpre0.
  rewrite !length_app. simpl. split; [f_equal; lia|]. split; [f_equal; lia|]. lia.
Qed.

Lemma inlineCall_block_accounting_witness :
  ∃ inl' w',
    inlineCall (Examples.host_of (Some Examples.two_returns))
      (Examples.inliner_at 1) (Examples.world_of Examples.caller_imm) = Ok (true, inl', w')
    ∧ length (basicblocks (caller w')) = 2 + 1 + 4
    ∧ callee_start_ inl' = 1%Z ∧ callee_end_ inl' = 5%Z
    ∧ arguments_ inl' = [Imm 7].
Proof.
  assert (∃ inl' w',
    inlineCall (Examples.host_of (Some Examples.two_returns))
      (Examples.inliner_at 1) (Examples.world_of Examples.caller_imm) = Ok (true, inl', w'))
    as (inl' & w' & E) by (vm_compute; eauto).
  destruct (inlineCall_block_accounting _ _ _ _ _ E)
    as (call_instr & callee & k & block1 & Hcall & Hfind & _ & Hargs & _ & Hidx
        & Hs & He & Hlen).
  vm_compute in Hcall. injection Hcall as <-.
  vm_compute in Hfind. injection Hfind as <- _.
  vm_compute in Hidx. injection Hidx as <- _.
  exists inl', w'. split; [exact E|]. split; [exact Hlen|].
  split; [exact Hs|]. split; [exact He|exact Hargs].
Defined.

Lemma isInlineable_arguments call_instr args callee :
  ∃ accepted,
    (isInlineable call_instr args callee).2 = args ++ accepted ∧
    accepted `prefix_of` actual_arguments call_instr.
Proof.
  unfold isInlineable.
  destruct (checkEntryExitReturn callee); simpl.
  2:{ exists []. split; [by rewrite app_nil_r|apply prefix_nil]. }
  destruct (checkArguments_loop_split (drop 1 (inputs call_instr)) args)
    as (accepted & rest & Hsplit & _ & Hargs & _).
  unfold checkArguments.
  destruct (checkArguments_loop (drop 1 (inputs call_instr)) args) as [ok args'].
  simpl in Hargs. subst args'.
  exists accepted. split.
  - destruct ok; simpl; [|done]. by destruct (checkLoadArg call_instr callee).
  - unfold actual_arguments. rewrite Hsplit. by apply prefix_app_r.
Qed.

(** X15. Whatever [inlineCall] returns, the inliner still designates the
    same call instruction, the cache has only grown, and [arguments_] has
    only been extended, by leading actual arguments of the call; when it
    returns false, the range [callee_start_, callee_end_) is what it
    was. *)
Theorem inlineCall_inliner_and_cache
    (host : Host) (inl inl' : LIRInliner) (w w' : World) (inlined : bool) :
  inlineCall host inl w = Ok (inlined, inl', w') →
  call_instr_ inl' = call_instr_ inl ∧
  name_to_function w ⊆ name_to_function w' ∧
  (∃ call_instr accepted,
     find_instr (call_instr_ inl) (caller w) = Some call_instr ∧
     arguments_ inl' = arguments_ inl ++ accepted ∧
     accepted `prefix_of` actual_arguments call_instr) ∧
  (inlined = false →
   callee_start_ inl' = callee_start_ inl ∧ callee_end_ inl' = callee_end_ inl).
Proof.
  intros Hrun. unfold inlineCall in Hrun.
  apply bind_Ok in Hrun as (call_instr & Hcall & Hrun). apply of_option_Ok in Hcall.
  pose proof (findFunction_grows host call_instr (name_to_function w)) as Hgrow.
  destruct (findFunction host call_instr (name_to_function w)) as [[callee|] cache].
  2:{ injection Hrun as <- <- <-. simpl in *. split; [done|]. split; [done|]. split; [|done].
      exists call_instr, []. split; [done|]. split; [by rewrite app_nil_r|apply prefix_nil]. }
  destruct (isInlineable_arguments call_instr (arguments_ inl) callee)
    as (accepted & Hargs & Hprefix).
  destruct (isInlineable call_instr (arguments_ inl) callee) as [ok args].
  simpl in Hargs, Hgrow. subst args. cbv zeta in Hrun.
  destruct ok; cbn [negb] in Hrun.
  - apply bind_Ok in Hrun as ([k block1] & _ & Hrun).
    destruct (splitBefore _ _ _ _) as [bbs1 block2].
    apply bind_Ok in Hrun as ([bbs2 [b e]] & _ & Hrun).
    apply bind_Ok in Hrun as (bbs3 & _ & Hrun).
    apply bind_Ok in Hrun as (bbs4 & _ & Hrun).
    injection Hrun as <- <- <-. simpl.
    split; [done|]. split; [done|]. split; [|done].
    by exists call_instr, accepted.
  - injection Hrun as <- <- <-. simpl.
    split; [done|]. split; [done|]. split; [|done].
    by exists call_instr, accepted.
Qed.

Lemma inlineCall_inliner_and_cache_witness :
  ∃ inl' w',
    inlineCall (Examples.host_of (Some Examples.loads_param1))
      (Examples.inliner_at 1) (Examples.world_of Examples.caller_imm)
    = Ok (false, inl', w')
    ∧ call_instr_ inl' = 1
    ∧ callee_start_ inl' = 0%Z ∧ callee_end_ inl' = 0%Z.
Proof.
  assert (∃ inl' w',
    inlineCall (Examples.host_of (Some Examples.loads_param1))
      (Examples.inliner_at 1) (Examples.world_of Examples.caller_imm)
    = Ok (false, inl', w'))
    as (inl' & w' & E) by (vm_compute; eauto).
  destruct (inlineCall_inliner_and_cache _ _ _ _ _ _ E) as (Hcall & _ & _ & Hrange).
  destruct (Hrange eq_refl) as [Hs He].
  exists inl', w'. split; [exact E|]. split; [exact Hcall|]. split; [exact Hs|exact He].
Defined.

Lemma checkArguments_loop_verdict ins : ∀ args1 args2,
  (checkArguments_loop ins args1).1 = (checkArguments_loop ins args2).1.
Proof.
  induction ins as [|o ins IH]; intros args1 args2; simpl; [done|].
  destruct (negb (isImm o) && negb (isVreg o)); [done|]. apply IH.
Qed.

(** The verdict of [isInlineable] does not depend on [arguments_]. *)
Lemma isInlineable_verdict call_instr args1 args2 callee :
  (isInlineable call_instr args1 callee).1 = (isInlineable call_instr args2 callee).1.
Proof.
  unfold isInlineable.
  destruct (checkEntryExitReturn callee); [|done]. simpl.
  unfold checkArguments.
  pose proof (checkArguments_loop_verdict (drop 1 (inputs call_instr)) args1 args2) as H.
  destruct (checkArguments_loop _ args1) as [ok1 a1],
           (checkArguments_loop _ args2) as [ok2 a2].
  simpl in H. subst ok2. destruct ok1; [|done]. simpl.
  by destruct (checkLoadArg call_instr callee).
Qed.

(** X16. A call for which [inlineCall] returned false is rejected again:
    a second [inlineCall] on the same inliner, in the state the first one
    left, returns false and leaves the caller and the cache as they
    are. *)
Theorem inlineCall_fails_again
    (host : Host) (inl inl' : LIRInliner) (w w' : World) :
  inlineCall host inl w = Ok (false, inl', w') →
  ∃ inl'', inlineCall host inl' w' = Ok (false, inl'', w').
Proof.
  intros Hrun.
  destruct (find_instr (call_instr_ inl) (caller w)) as [call_instr|] eqn:Hcall.
  2:{ unfold inlineCall in Hrun. by rewrite Hcall in Hrun. }
  pose proof (inlineCall_cases host inl w call_instr Hcall) as Hc.
  pose proof (findFunction_again host call_instr (name_to_function w)) as Hrep.
  destruct (findFunction host call_instr (name_to_function w))
    as [[callee|] cache] eqn:Hfind; simpl in Hrep.
  - pose proof (isInlineable_verdict call_instr (arguments_ inl)
                  (isInlineable call_instr (arguments_ inl) callee).2 callee) as Hv.
    destruct (isInlineable call_instr (arguments_ inl) callee) as [[|] args] eqn:Hinl.
    { by destruct (Hc inl' w'). }
    rewrite Hc in Hrun. injection Hrun as <- <-. simpl in Hv.
    pose proof (inlineCall_cases host
                  (mkInliner (call_instr_ inl) args (callee_start_ inl) (callee_end_ inl))
                  (mkWorld (caller w) cache) call_instr Hcall) as Hc2.
    simpl in Hc2. rewrite Hrep in Hc2.
    destruct (isInlineable call_instr args callee) as [ok2 args2].
    simpl in Hv. subst ok2. by eexists.
  - rewrite Hc in Hrun. injection Hrun as <- <-.
    pose proof (inlineCall_cases host inl (mkWorld (caller w) cache) call_instr Hcall)
      as Hc2.
    simpl in Hc2. rewrite Hrep in Hc2. by eexists.
Qed.

Lemma inlineCall_fails_again_witness :
  ∃ inl' w' inl'',
    inlineCall (Examples.host_of (Some Examples.loads_param1))
      (Examples.inliner_at 1) (Examples.world_of Examples.caller_imm)
    = Ok (false, inl', w')
    ∧ inlineCall (Examples.host_of (Some Examples.loads_param1)) inl' w'
      = Ok (false, inl'', w').
Proof.
  assert (∃ inl' w',
    inlineCall (Examples.host_of (Some Examples.loads_param1))
      (Examples.inliner_at 1) (Examples.world_of Examples.caller_imm)
    = Ok (false, inl', w'))
    as (inl' & w' & E) by (vm_compute; eauto).
  destruct (inlineCall_fails_again _ _ _ _ _ E) as [inl'' E2].
  exists inl', w', inl''. split; [exact E|exact E2].
Defined.

(** ** Bounds *)

Section Bounds.

Lemma resolve_instrs_in_bounds args l : ∀ vm,
  Forall (in_bounds args) l →
  resolve_instrs args vm l ≠ Abort OutOfRange.
Proof.
  induction l as [|i l IH]; intros vm Hall; [done|].
  apply Forall_cons in Hall as [Hi Hall].
  cbn [resolve_instrs]. unfold isLoadArg. case_bool_decide as Hop.
  - unfold resolveLoadArg.
    destruct (getInput i 0) as [argument|] eqn:Hin; [|done].
    destruct argument as [c| | | |]; try done. simpl.
    destruct (lookup_lt_is_Some_2 args (Z.to_nat (uint64 c))) as [param Hparam];
      [by apply Hi|].
    rewrite Hparam. simpl.
    destruct (isImm param).
    + cbn [mbind Outcome_bind].
      specialize (IH vm Hall).
      destruct (resolve_instrs args vm l) as [[??]|why]; [done|]. simpl. congruence.
    + destruct param as [?| |def|??|?]; try done.
      cbn [mbind Outcome_bind].
      specialize (IH (emplace (instr_id i) def vm) Hall).
      destruct (resolve_instrs args _ l) as [[??]|why]; [done|]. simpl. congruence.
  - specialize (IH vm Hall).
    destruct (resolve_instrs args vm l) as [[??]|why]; [done|]. simpl. congruence.
Qed.

Lemma resolveArguments_loop_in_bounds args mid : ∀ pre post vm,
  Forall (λ b, Forall (in_bounds args) (instructions b)) mid →
  resolveArguments_loop (length mid) (Z.of_nat (length pre)) args vm
    (pre ++ mid ++ post) ≠ Abort OutOfRange.
Proof.
  induction mid as [|b mid IH]; intros pre post vm Hall; [done|].
  apply Forall_cons in Hall as [Hb Hall].
  cbn [length resolveArguments_loop]. simpl. rewrite at_index_middle. simpl.
  pose proof (resolve_instrs_in_bounds args _ vm Hb) as Hres.
  destruct (resolve_instrs args vm (instructions b)) as [[vm1 instrs']|why];
    [|simpl; congruence].
  simpl. rewrite Nat2Z.id.
  assert (<[length pre := setInstructions instrs' b]> (pre ++ b :: mid ++ post)
          = (pre ++ [setInstructions instrs' b]) ++ mid ++ post) as Hins.
  { replace (length pre) with (length pre + 0) at 1 by lia.
    rewrite insert_app_r. simpl. by rewrite <- app_assoc. }
  assert ((Z.of_nat (length pre) + 1)%Z
          = Z.of_nat (length (pre ++ [setInstructions instrs' b]))) as Hlen
    by (rewrite length_app; simpl; lia).
  rewrite Hins, Hlen. by apply IH.
Qed.

Lemma merge_returns_in_bounds phi : ∀ preds bbs,
  merge_returns phi preds bbs ≠ Abort OutOfRange.
Proof.
  induction preds as [|p rest IH]; intros bbs; [done|]. simpl.
  destruct (find_block p bbs) as [pred_bb|]; [|done]. simpl.
  destruct (getLastInstr pred_bb) as [lastInstr|]; [|apply IH].
  destruct (isReturn lastInstr); [|apply IH].
  destruct (getInput lastInstr 0); [apply IH|done].
Qed.

Lemma resolveReturnValue_in_bounds inl bbs :
  (0 < callee_end_ inl ≤ Z.of_nat (length bbs))%Z →
  resolveReturnValue inl bbs ≠ Abort OutOfRange.
Proof.
  intros Hend. unfold resolveReturnValue, at_index.
  rewrite bool_decide_true by lia.
  destruct (lookup_lt_is_Some_2 bbs (Z.to_nat (callee_end_ inl - 1))) as [epi ->];
    [lia|].
  simpl.
  match goal with |- context [merge_returns ?phi ?preds ?l] =>
    pose proof (merge_returns_in_bounds phi preds l) as Hm;
    destruct (merge_returns phi preds l) as [bbs2|why]; [|simpl; congruence]
  end.
  simpl. destruct (find_instr _ _); [|done]. simpl.
  by case_bool_decide.
Qed.

(** The LoadArgs of the copy of a callee that [checkLoadArg] accepts name
    an element of [arguments_]. *)
Lemma checkLoadArg_in_bounds call_instr callee args bb ib c :
  checkLoadArg call_instr callee = true →
  1 ≤ getNumInputs call_instr →
  c ∈ basicblocks callee →
  Forall (in_bounds (args ++ actual_arguments call_instr))
         (map (copy_instr bb ib) (instructions c)).
Proof.
  intros Hcheck Hn Hc.
  unfold checkLoadArg in Hcheck. apply checkLoadArg_blocks_flat in Hcheck.
  apply checkLoadArg_instrs_ok in Hcheck as [_ Hok]. specialize (Hok eq_refl).
  apply Forall_fmap, Forall_forall. intros i Hi Hop k Hk. simpl in Hop.
  destruct (Hok i) as (k' & Hk' & Hlt); [|done|].
  { by eapply (elem_of_all_instructions callee). }
  unfold getInput in Hk, Hk'. simpl in Hk. rewrite list_lookup_fmap, Hk' in Hk.
  simpl in Hk. injection Hk as <-.
  assert (uint64 (Z.of_nat (getNumInputs call_instr) - 1)
          ≤ Z.of_nat (getNumInputs call_instr) - 1)%Z as Hle.
  { unfold uint64. apply Z.mod_le; lia. }
  assert (0 ≤ uint64 k')%Z as Hpos.
  { unfold uint64. apply Z.mod_pos_bound. lia. }
  rewrite length_app. unfold actual_arguments. rewrite length_drop.
  unfold getNumInputs in *. lia.
Qed.

End Bounds.

(** X17. [inlineCall] never fails a bounds check: the block positions it
    reads with [at] are positions of the block list, and the index of every
    LoadArg it resolves is a position of [arguments_], whatever the state of
    the inliner was. *)
Theorem inlineCall_never_out_of_range (host : Host) (inl : LIRInliner) (w : World) :
  inlineCall host inl w ≠ Abort OutOfRange.
Proof.
  destruct (find_instr (call_instr_ inl) (caller w)) as [call_instr|] eqn:Hcall.
  2:{ unfold inlineCall. by rewrite Hcall. }
  pose proof (inlineCall_cases host inl w call_instr Hcall) as Hc.
  destruct (findFunction host call_instr (name_to_function w))
    as [[callee|] cache] eqn:Hfind; [|by rewrite Hc].
  destruct (isInlineable call_instr (arguments_ inl) callee) as [[|] args] eqn:Hinl;
    [|by rewrite Hc].
  clear Hc.
  assert ((isInlineable call_instr (arguments_ inl) callee).1 = true) as Hok
    by (by rewrite Hinl).
  pose proof (isInlineable_true _ _ _ Hok) as (Hcheck & _ & Hload).
  pose proof (isInlineable_true_args _ _ _ Hok) as Hpair.
  rewrite Hinl in Hpair. injection Hpair as ->.
  destruct (inlineCall_pipeline _ _ _ _ _ _ _ Hcall Hfind Hinl)
    as (k & block1 & pre & post & bb & ib & Hidx & _ & _ & _ & _ & ->).
  cbv zeta.
  set (args := arguments_ inl ++ actual_arguments call_instr).
  set (wired := wire (bb_id block1) (fresh_block_id (basicblocks (caller w)))
                  (map (copy_block bb ib) (basicblocks callee))).
  assert (length wired = length (basicblocks callee)) as Hlen.
  { unfold wired. by rewrite wire_length, length_map. }
  rewrite (resolveArguments_spliced _ _ _ _ _ _ Hlen).
  pose proof (resolveArguments_loop_in_bounds args wired pre post ∅) as Hres.
  destruct (resolveArguments_loop (length wired) (Z.of_nat (length pre)) args ∅
              (pre ++ wired ++ post)) as [bbs3|why] eqn:Hrun.
  2:{ simpl. intros [= ->]. apply Hres; [|done].
      pose proof (wire_same_code (bb_id block1)
                    (fresh_block_id (basicblocks (caller w)))
                    (map (copy_block bb ib) (basicblocks callee))) as Hw.
      apply Forall2_fmap_l in Hw. fold wired in Hw.
      apply Forall_forall. intros b Hb.
      apply list_elem_of_lookup in Hb as [j Hj].
      destruct (Forall2_lookup_r _ _ _ _ _ Hw Hj) as (c & Hc & [_ Hins]).
      rewrite Hins. simpl.
      eapply checkLoadArg_in_bounds; [done| |by eapply list_elem_of_lookup_2].
      by eapply findFunction_Some_inputs. }
  cbn [mbind Outcome_bind].
  apply resolveArguments_loop_frame in Hrun as (_ & Hl3 & _).
  match goal with |- context [resolveReturnValue ?i bbs3] =>
    pose proof (resolveReturnValue_in_bounds i bbs3) as Hm;
    destruct (resolveReturnValue i bbs3) as [bbs4|why]; [done|]
  end.
  simpl. intros [= ->]. apply Hm; [|done].
  simpl. rewrite Hl3, !length_app, Hlen.
  assert (basicblocks callee ≠ []) as Hne.
  { apply checkEntryExitReturn_true in Hcheck as (x & _ & Hx & _).
    unfold getEntryBlock in Hx. intros Hnil. by rewrite Hnil in Hx. }
  destruct (basicblocks callee); [done|]. simpl. lia.
Qed.


(** ** Def-use edges *)

Section LinkFacts.

Lemma elem_of_definitions d l :
  d ∈ definitions l ↔ ∃ j, j ∈ l ∧ opcode j ≠ kReturn ∧ instr_id j = d.
Proof.
  unfold definitions. rewrite list_elem_of_fmap. split.
  - intros (j & -> & Hj). apply list_elem_of_filter in Hj as [Hop Hj]. by exists j.
  - intros (j & Hj & Hop & <-). exists j. split; [done|].
    by apply list_elem_of_filter.
Qed.

Lemma linked_within_alt defs l :
  linked_within defs l ↔
  ∀ i d, i ∈ l → d ∈ uses i → ∃ j, j ∈ defs ∧ opcode j ≠ kReturn ∧ instr_id j = d.
Proof.
  unfold linked_within. rewrite Forall_forall. split.
  - intros H i d Hi Hd. apply elem_of_definitions.
    specialize (H i Hi). rewrite Forall_forall in H. by apply H.
  - intros H i Hi. apply Forall_forall. intros d Hd.
    apply elem_of_definitions. by eapply H.
Qed.

Lemma uses_move ins c id out :
  (∃ k, ins !! 0 = Some (Imm k)) →
  uses (mkInstr id kMove (<[0 := Imm c]> ins) out) = flat_map operand_uses ins.
Proof.
  intros [k Hk]. unfold uses. simpl.
  destruct ins as [|a rest]; [done|]. simpl in Hk. injection Hk as ->. done.
Qed.

(** The moves that the LoadArgs leave behind are moves, and refer to what
    the LoadArgs referred to. *)
Lemma resolve_instrs_moves args las : ∀ vm vm' moves,
  Forall (λ i, opcode i = kLoadArg) las →
  resolve_instrs args vm las = Ok (vm', moves) →
  ∀ m, m ∈ moves →
    opcode m = kMove ∧ ∃ la, la ∈ las ∧ instr_id m = instr_id la ∧ uses m = uses la.
Proof.
  induction las as [|i las IH]; intros vm vm' moves Hall Hres m Hm.
  - simpl in Hres. injection Hres as <- <-. by apply elem_of_nil in Hm.
  - apply Forall_cons in Hall as [Hi Hall].
    cbn [resolve_instrs] in Hres. unfold isLoadArg in Hres.
    rewrite bool_decide_true in Hres by done.
    apply bind_Ok in Hres as ([vm0 here] & Hhere & Hres).
    apply bind_Ok in Hres as ([vm1 rest'] & Hrest & Hres).
    injection Hres as <- <-.
    unfold resolveLoadArg in Hhere.
    destruct (getInput i 0) as [argument|] eqn:Hin; [|done].
    destruct argument as [k| | | |]; try done. simpl in Hhere.
    apply bind_Ok in Hhere as (param & Hparam & Hhere).
    assert (∀ m, m ∈ rest' →
              opcode m = kMove ∧
              ∃ la, la ∈ i :: las ∧ instr_id m = instr_id la ∧ uses m = uses la) as Hrest'.
    { intros m' Hm'. destruct (IH _ _ _ Hall Hrest m' Hm') as (Hop & la & Hla & Hid & Hu).
      split; [done|]. exists la. split; [by right|done]. }
    destruct (isImm param).
    + injection Hhere as <- <-. cbn [app] in Hm.
      apply elem_of_cons in Hm as [->|Hm]; [|by apply Hrest'].
      split; [done|]. exists i. split; [by left|]. split; [done|].
      unfold setInputs, setOpcode. simpl.
      rewrite uses_move by (by exists k). done.
    + destruct param as [?| |def|??|?]; try done.
      injection Hhere as <- <-. by apply Hrest'.
Qed.

End LinkFacts.

(** Argument resolution keeps the def-use edges within the function. *)
Section ResolvedLinks.

Context (args : list Operand) (outside copies resolved : list Instruction).
Context (vm' : VregMap).
Context (las body : list Instruction).
Context (Hsplit : copies = las ++ body).
Context (Hlas : Forall (λ i, opcode i = kLoadArg) las).
Context (Hbody : Forall (λ i, opcode i ≠ kLoadArg) body).
Context (Hargs : ∀ e, Linked e ∈ args → e ∈ definitions outside).
Context (Hlinked : linked_within copies copies).
Context (Hnouse : Forall (λ i, opcode i = kLoadArg → uses i = []) copies).
Context (Hres : resolve_instrs args ∅ copies = Ok (vm', resolved)).

Lemma resolved_links : linked_within (outside ++ resolved) resolved.
Proof.
  rewrite Hsplit, resolve_instrs_app in Hres.
  apply bind_Ok in Hres as ([vm1 moves] & Hmoves & Hflat).
  rewrite (resolve_instrs_body _ _ _ Hbody) in Hflat.
  cbn [mbind Outcome_bind] in Hflat. injection Hflat as <- Hmid.
  destruct (resolve_instrs_load_args _ _ _ _ _ Hlas Hmoves) as (H1 & H2 & H3 & _).
  pose proof (resolve_instrs_moves _ _ _ _ _ Hlas Hmoves) as Hm.
  apply linked_within_alt. intros i d Hi Hd. rewrite <- Hmid in Hi.
  apply elem_of_app in Hi as [Hi|Hi].
  { destruct (Hm i Hi) as (_ & la & Hla & _ & Hu).
    rewrite Forall_forall in Hnouse. rewrite Hu, Hnouse in Hd.
    - by apply elem_of_nil in Hd.
    - rewrite Hsplit. apply elem_of_app. by left.
    - rewrite Forall_forall in Hlas. by apply Hlas. }
  apply list_elem_of_fmap in Hi as (j & -> & Hj).
  rewrite uses_resolved in Hd.
  apply list_elem_of_fmap in Hd as (d0 & -> & Hd0).
  unfold replaced_by. destruct (vm1 !! d0) as [e|] eqn:E; simpl.
  - destruct (H3 _ _ E) as [Hempty|Harg]; [by rewrite lookup_empty in Hempty|].
    apply Hargs, elem_of_definitions in Harg as (x & Hx & Hop & Hid).
    exists x. split; [|done]. apply elem_of_app. by left.
  - pose proof (proj1 (linked_within_alt _ _) Hlinked) as Hl.
    destruct (Hl j d0) as (x & Hx & Hop & Hid).
    { rewrite Hsplit. apply elem_of_app. by right. }
    { done. }
    rewrite Hsplit in Hx. apply elem_of_app in Hx as [Hx|Hx].
    + destruct (H2 x Hx) as [[? Hsome]|Hmove]; [congruence|].
      apply list_elem_of_fmap in Hmove as (m & Hmid' & Hmm).
      destruct (Hm m Hmm) as (Hmop & _).
      exists m. split; [|split].
      * apply elem_of_app. right. rewrite <- Hmid. apply elem_of_app. by left.
      * congruence.
      * congruence.
    + exists (resolveLinkedArgumentsUses vm1 x). split; [|done].
      apply elem_of_app. right. rewrite <- Hmid. apply elem_of_app. right.
      by apply list_elem_of_fmap_2.
Qed.

End ResolvedLinks.

(** Return merging keeps the def-use edges within the function. *)
Lemma resolveReturnValue_links inl bbs bbs' :
  NoDup (map bb_id bbs) →
  well_linked (mkFunction bbs) →
  resolveReturnValue inl bbs = Ok bbs' →
  well_linked (mkFunction bbs').
Proof.
  intros Hnd Hwl H.
  destruct (resolveReturnValue_stages _ _ _ Hnd H)
    as (e & epilogue & bbs2 & Hepi & (Hids2 & Hlast2 & _) & Hfrom & Hfinal).
  set (phi := fresh_instr_id bbs) in *.
  pose proof (proj1 (linked_within_alt _ _) Hwl) as Hl.
  assert (∀ r d, r ∈ all_instructions (mkFunction bbs) → d ∈ uses r →
            ∃ j', j' ∈ all_instructions (mkFunction bbs') ∧
                  opcode j' ≠ kReturn ∧ instr_id j' = d) as Hkept.
  { intros r d Hr Hd. destruct (Hl r d Hr Hd) as (j & Hj & Hop & Hid).
    apply elem_of_all_instructions_inv in Hj as (b & Hb & Hjb). simpl in Hb.
    apply list_elem_of_lookup in Hb as [k Hk].
    destruct (resolveReturnValue_kept _ _ _ Hnd H k b j Hk Hjb Hop)
      as (b' & j' & Hb' & Hj' & Hid' & _ & Hop' & _).
    exists j'. split; [|split; [done|congruence]].
    apply (elem_of_all_instructions (mkFunction bbs') b'); [|done].
    by eapply list_elem_of_lookup_2. }
  apply linked_within_alt. intros i' d Hi' Hd.
  destruct Hfinal as [Hvoid|Hmove].
  - rewrite Hvoid, all_instructions_modify in Hi'.
    apply list_elem_of_fmap in Hi' as (i & -> & Hi).
    apply all_instructions_update_removelast in Hi.
    assert (d ∈ uses i) as Hdi by (revert Hd; by case_bool_decide).
    destruct (Hfrom i d Hi Hdi) as (r & Hr & Hdr). by eapply Hkept.
  - rewrite Hmove, all_instructions_modify in Hi'.
    apply list_elem_of_fmap in Hi' as (i & -> & Hi).
    revert Hd. case_bool_decide as Hcall.
    2:{ intros Hd. destruct (Hfrom i d Hi Hd) as (r & Hr & Hdr). by eapply Hkept. }
    unfold uses. simpl. intros Hd.
    apply list_elem_of_singleton in Hd as ->.
    assert (∃ b2, bbs2 !! e = Some b2 ∧ bb_id b2 = bb_id epilogue) as (b2 & Hb2 & Hb2id).
    { assert (map bb_id bbs2 !! e = Some (bb_id epilogue)) as Hlk
        by (by rewrite Hids2, list_lookup_fmap, Hepi).
      rewrite list_lookup_fmap in Hlk.
      destruct (bbs2 !! e) as [b2|]; [|done]. simpl in Hlk.
      exists b2. split; [done|congruence]. }
    destruct (Hlast2 b2) as (r & Hr & Hrid & Hrop);
      [by eapply list_elem_of_lookup_2|done|].
    exists (if bool_decide (instr_id r = call_instr_ inl)
            then setInputs [Linked phi] (setOpcode kMove r) else r).
    split; [|split].
    + rewrite Hmove, all_instructions_modify. apply list_elem_of_fmap.
      exists r. split; [done|].
      apply (elem_of_all_instructions (mkFunction bbs2) b2).
      * by eapply list_elem_of_lookup_2.
      * by apply last_Some_elem_of.
    + case_bool_decide; simpl; congruence.
    + by case_bool_decide.
Qed.

Section MergedPhi.

Lemma merged_from_step l0 phi p value lastInstr bbs :
  (∀ i, i ∈ l0 → instr_id i ≠ phi) →
  lastInstr ∈ all_instructions (mkFunction bbs) →
  opcode lastInstr = kReturn → getInput lastInstr 0 = Some value →
  merged_from phi l0 (all_instructions (mkFunction bbs)) →
  merged_from phi l0
    (all_instructions
       (mkFunction
          (update_block p removeLastInstr
             (modify_instr phi (appendInputs [value])
                (modify_instr phi (appendInputs [Label p]) bbs))))).
Proof.
  intros Hfresh Hlast Hop Hval [Hrets Hphi].
  assert (lastInstr ∈ l0) as Hlast0 by (by apply Hrets).
  assert (∀ i, i ∈ all_instructions
                     (mkFunction
                        (update_block p removeLastInstr
                           (modify_instr phi (appendInputs [value])
                              (modify_instr phi (appendInputs [Label p]) bbs)))) →
            ∃ i0, i0 ∈ all_instructions (mkFunction bbs) ∧
                  i = (if bool_decide (instr_id i0 = phi)
                       then appendInputs [Label p; value] i0 else i0)) as Horigin.
  { intros i Hi. apply all_instructions_update_removelast in Hi.
    rewrite modify_instr_twice, all_instructions_modify in Hi.
    apply list_elem_of_fmap in Hi as (i0 & -> & Hi0). by exists i0. }
  split.
  - intros i Hi Hret. destruct (Horigin i Hi) as (i0 & Hi0 & ->).
    case_bool_decide as Hid.
    + exfalso. apply (Hfresh i0); [|done]. by apply Hrets.
    + by apply Hrets.
  - intros i d Hi Hid Hd. destruct (Horigin i Hi) as (i0 & Hi0 & ->).
    case_bool_decide as Hid0; [|by eapply Hphi].
    rewrite uses_appendInputs in Hd. apply elem_of_app in Hd as [Hd|Hd].
    + by eapply Hphi.
    + exists lastInstr. split; [done|]. split; [done|].
      simpl in Hd. rewrite app_nil_r in Hd.
      unfold uses. apply list_elem_of_In, in_flat_map. exists value.
      split; [|by apply list_elem_of_In].
      apply list_elem_of_In. unfold getInput in Hval.
      by eapply list_elem_of_lookup_2.
Qed.

Lemma merged_from_merge_returns l0 phi : ∀ preds bbs bbs',
  (∀ i, i ∈ l0 → instr_id i ≠ phi) →
  merged_from phi l0 (all_instructions (mkFunction bbs)) →
  merge_returns phi preds bbs = Ok bbs' →
  merged_from phi l0 (all_instructions (mkFunction bbs')).
Proof.
  induction preds as [|p rest IH]; intros bbs bbs' Hfresh Hinv H; simpl in H.
  - by injection H as <-.
  - apply bind_Ok in H as (pred_bb & Hfind & H). apply of_option_Ok in Hfind.
    destruct (getLastInstr pred_bb) as [lastInstr|] eqn:Hlast; [|by eapply IH].
    destruct (isReturn lastInstr) eqn:Hret; [|by eapply IH].
    destruct (getInput lastInstr 0) as [value|] eqn:Hval; [|done].
    eapply IH; [done| |exact H].
    apply find_block_Some in Hfind as [Hin _].
    eapply merged_from_step; [done| | |done|done].
    + apply (elem_of_all_instructions (mkFunction bbs) pred_bb); [done|].
      unfold getLastInstr in Hlast. by apply last_Some_elem_of.
    + by apply bool_decide_eq_true in Hret.
Qed.

(** What the phi refers to when [resolveReturnValue] completes. *)
Lemma resolveReturnValue_phi inl bbs bbs' :
  call_instr_ inl ≠ fresh_instr_id bbs →
  resolveReturnValue inl bbs = Ok bbs' →
  ∀ p d, p ∈ all_instructions (mkFunction bbs') →
         instr_id p = fresh_instr_id bbs → d ∈ uses p →
    ∃ ret, ret ∈ all_instructions (mkFunction bbs) ∧
           opcode ret = kReturn ∧ d ∈ uses ret.
Proof.
  intros Hcall H p d Hp Hid Hd. unfold resolveReturnValue in H.
  apply bind_Ok in H as (epilogue & Hat & H).
  apply bind_Ok in H as (bbs2 & Hm & H).
  apply bind_Ok in H as (phi_now & _ & H).
  apply at_index_Ok in Hat as [Hpos Hepi].
  set (phi := fresh_instr_id bbs) in *.
  set (e := Z.to_nat (callee_end_ inl - 1)) in *.
  assert (∀ i, i ∈ all_instructions (mkFunction bbs) → instr_id i ≠ phi) as Hfresh.
  { intros i Hi. apply elem_of_all_instructions_inv in Hi as (b & Hb & Hi).
    pose proof (instr_id_lt_fresh b i bbs Hb Hi). unfold phi. lia. }
  apply (merged_from_merge_returns (all_instructions (mkFunction bbs))) in Hm
    as [_ Hphi]; [|done|].
  2:{ assert (∀ i, i ∈ all_instructions
                         (mkFunction
                            (<[e := setInstructions
                                      (instructions epilogue
                                       ++ [mkInstr phi kPhi [] (Some VReg)]) epilogue]>
                               bbs)) →
                i ∈ all_instructions (mkFunction bbs)
                ∨ i = mkInstr phi kPhi [] (Some VReg)) as Horigin.
      { intros i Hi. apply elem_of_all_instructions_inv in Hi as (b & Hb & Hi).
        simpl in Hb. apply list_elem_of_lookup in Hb as [k Hk].
        destruct (decide (k = e)) as [->|Hne].
        - rewrite list_lookup_insert_eq in Hk by (by eapply lookup_lt_Some).
          injection Hk as <-. simpl in Hi. apply elem_of_app in Hi as [Hi|Hi].
          + left. apply (elem_of_all_instructions (mkFunction bbs) epilogue); [|done].
            by eapply list_elem_of_lookup_2.
          + right. by apply list_elem_of_singleton in Hi.
        - rewrite list_lookup_insert_ne in Hk by done. left.
          apply (elem_of_all_instructions (mkFunction bbs) b); [|done].
          by eapply list_elem_of_lookup_2. }
      split.
      - intros i Hi Hop. by destruct (Horigin i Hi) as [?| ->].
      - intros i d' Hi Hidi Hd'. destruct (Horigin i Hi) as [Hi0| ->].
        + by destruct (Hfresh i Hi0).
        + by apply elem_of_nil in Hd'. }
  assert (p ∈ all_instructions (mkFunction bbs2)) as Hp2.
  { revert H. case_bool_decide; intros [= <-];
      rewrite all_instructions_modify in Hp;
      apply list_elem_of_fmap in Hp as (i0 & -> & Hi0).
    - apply all_instructions_update_removelast in Hi0.
      revert Hid. case_bool_decide as Hc; [|done]. simpl. intros Hid. congruence.
    - revert Hid. case_bool_decide as Hc; [|done]. simpl. intros Hid. congruence. }
  by eapply Hphi.
Qed.

End MergedPhi.

(** X18. [resolveReturnValue] keeps the def-use edges within the function:
    when the blocks are distinct objects and every input refers to an
    instruction of the function that is no return, the same holds after
    return merging. When the call instruction is one of the function, it
    is then a no-op, or a move whose only input is linked to the phi, which
    is an instruction of the function; and every definition that the phi
    refers to is one that a return instruction of the function referred
    to. *)
Theorem resolveReturnValue_keeps_def_use_edges
    (inl : LIRInliner) (bbs bbs' : list BasicBlock) :
  NoDup (map bb_id bbs) →
  well_linked (mkFunction bbs) →
  resolveReturnValue inl bbs = Ok bbs' →
  well_linked (mkFunction bbs') ∧
  (call_instr_ inl ∈ map instr_id (all_instructions (mkFunction bbs)) →
   (∀ ci, ci ∈ all_instructions (mkFunction bbs') → instr_id ci = call_instr_ inl →
      opcode ci = kNop ∨
      (opcode ci = kMove ∧ inputs ci = [Linked (fresh_instr_id bbs)] ∧
       ∃ phi, phi ∈ all_instructions (mkFunction bbs') ∧
              instr_id phi = fresh_instr_id bbs ∧ opcode phi = kPhi)) ∧
   (∀ phi d, phi ∈ all_instructions (mkFunction bbs') →
      instr_id phi = fresh_instr_id bbs → d ∈ uses phi →
      ∃ ret, ret ∈ all_instructions (mkFunction bbs) ∧
             opcode ret = kReturn ∧ d ∈ uses ret)).
Proof.
  intros Hnd Hwl H. split; [by eapply resolveReturnValue_links|].
  intros Hcall.
  assert (call_instr_ inl ≠ fresh_instr_id bbs) as Hne.
  { apply list_elem_of_fmap in Hcall as (ci & Hid & Hci).
    apply elem_of_all_instructions_inv in Hci as (b & Hb & Hci).
    pose proof (instr_id_lt_fresh b ci bbs Hb Hci). lia. }
  split; [|by apply (resolveReturnValue_phi inl)].
  destruct (resolveReturnValue_stages _ _ _ Hnd H)
    as (e & epilogue & bbs2 & Hepi & (Hids2 & Hlast2 & _) & _ & Hfinal).
  intros ci Hci Hid.
  destruct Hfinal as [->| ->]; rewrite all_instructions_modify in Hci;
    apply list_elem_of_fmap in Hci as (i0 & -> & Hi0).
  - left. revert Hid. case_bool_decide; [done|]. simpl. congruence.
  - right. revert Hid. case_bool_decide as Hc; [|simpl; congruence]. intros _.
    split; [done|]. split; [done|].
    assert (∃ b2, bbs2 !! e = Some b2 ∧ bb_id b2 = bb_id epilogue) as (b2 & Hb2 & Hb2id).
    { assert (map bb_id bbs2 !! e = Some (bb_id epilogue)) as Hlk
        by (by rewrite Hids2, list_lookup_fmap, Hepi).
      rewrite list_lookup_fmap in Hlk.
      destruct (bbs2 !! e) as [b2|]; [|done]. simpl in Hlk.
      exists b2. split; [done|congruence]. }
    destruct (Hlast2 b2) as (r & Hr & Hrid & Hrop);
      [by eapply list_elem_of_lookup_2|done|].
    exists r. split; [|done].
    rewrite all_instructions_modify. apply list_elem_of_fmap.
    exists r. split.
    + rewrite bool_decide_false; [done|]. congruence.
    + apply (elem_of_all_instructions (mkFunction bbs2) b2).
      * by eapply list_elem_of_lookup_2.
      * by apply last_Some_elem_of.
Qed.

Lemma resolveReturnValue_keeps_def_use_edges_witness :
  ∃ bbs',
    resolveReturnValue Samples.inliner_two_args Samples.linked_blocks = Ok bbs'
    ∧ well_linked (mkFunction bbs')
    ∧ ∀ phi d, phi ∈ all_instructions (mkFunction bbs') →
        instr_id phi = fresh_instr_id Samples.linked_blocks → d ∈ uses phi →
        ∃ ret, ret ∈ all_instructions (mkFunction Samples.linked_blocks) ∧
               opcode ret = kReturn ∧ d ∈ uses ret.
Proof.
  assert (∃ bbs',
    resolveReturnValue Samples.inliner_two_args Samples.linked_blocks = Ok bbs')
    as [bbs' E] by (vm_compute; eauto).
  exists bbs'. split; [exact E|].
  destruct (resolveReturnValue_keeps_def_use_edges
              Samples.inliner_two_args Samples.linked_blocks bbs')
    as (Hwl & Hphi).
  - apply (bool_decide_unpack _). vm_compute. exact I.
  - apply (bool_decide_unpack _). vm_compute. exact I.
  - exact E.
  - split; [exact Hwl|]. apply Hphi.
    apply (bool_decide_unpack _). vm_compute. exact I.
Defined.

Section CopyUses.

Context (bb ib : nat).

Lemma linked_def_copy o :
  linked_def (copy_operand bb ib o) = map (Nat.add ib) (linked_def o).
Proof. by destruct o. Qed.

Lemma operand_uses_copy o :
  operand_uses (copy_operand bb ib o) = map (Nat.add ib) (operand_uses o).
Proof.
  destruct o as [c| |d|b ix|l]; try done.
  simpl. rewrite map_app, linked_def_copy.
  destruct ix as [ix|]; [|done]. by rewrite linked_def_copy.
Qed.

Lemma uses_copy i :
  uses (copy_instr bb ib i) = map (Nat.add ib) (uses i).
Proof.
  unfold uses. simpl. induction (inputs i) as [|o l IH]; [done|].
  simpl. by rewrite map_app, IH, operand_uses_copy.
Qed.

End CopyUses.

Lemma instrs_before_take call l :
  instrs_before call l ++ drop (length (instrs_before call l)) l = l.
Proof.
  induction l as [|i l IH]; [done|]. simpl.
  case_bool_decide; [done|]. simpl. by rewrite IH.
Qed.

Lemma instructions_retarget_pred old new l :
  map instructions (map (retarget_pred old new) l) = map instructions l.
Proof. rewrite map_map. by apply map_ext. Qed.

(** Splitting a block neither adds nor removes an instruction. *)
Lemma splitBefore_instructions k block1 call bbs bbs1 block2 :
  bbs !! k = Some block1 →
  splitBefore k block1 call bbs = (bbs1, block2) →
  concat (map instructions bbs1) = concat (map instructions bbs).
Proof.
  intros Hk H. unfold splitBefore in H. injection H as <- _.
  pose proof (take_drop_middle bbs k block1 Hk) as Hmid.
  apply (f_equal (λ l, concat (map instructions l))) in Hmid.
  rewrite <- Hmid.
  rewrite !map_app, !concat_app. simpl.
  rewrite !instructions_retarget_pred. f_equal.
  by rewrite app_assoc, instrs_before_take.
Qed.

Lemma splitBefore_ids k block1 call bbs bbs1 block2 :
  bbs !! k = Some block1 →
  splitBefore k block1 call bbs = (bbs1, block2) →
  block2 = fresh_block_id bbs ∧
  map bb_id bbs1
  = map bb_id (take k bbs) ++ bb_id block1 :: block2 :: map bb_id (drop (S k) bbs).
Proof.
  intros Hk H. unfold splitBefore in H. injection H as <- <-.
  split; [done|].
  rewrite map_app. simpl. rewrite !map_map. simpl. done.
Qed.

Lemma copyFrom_shape callee block1 block2 bbs1 bbs2 b e :
  basicblocks callee ≠ [] →
  copyFrom callee block1 block2 bbs1 = Ok (bbs2, (b, e)) →
  ∃ P Q,
    bbs2 = P ++ wire block1 block2
                  (map (copy_block (fresh_block_id bbs1) (fresh_instr_id bbs1))
                       (basicblocks callee)) ++ Q ∧
    b = Z.of_nat (length P) ∧
    e = Z.of_nat (length P + length (basicblocks callee)) ∧
    map bb_id (P ++ Q) = map bb_id bbs1 ∧
    map instructions (P ++ Q) = map instructions bbs1.
Proof.
  intros Hne H. unfold copyFrom in H.
  apply bind_Ok in H as ([k x] & Hk & H). apply of_option_Ok in Hk.
  apply list_find_Some in Hk as (Hk & _). apply lookup_lt_Some in Hk.
  destruct (basicblocks callee) as [|c cs] eqn:Hc; [done|].
  cbn [map] in H. injection H as <- <- <-.
  set (bbs' := update_block block2 _ (update_block block1 _ bbs1)).
  exists (take k bbs'), (drop k bbs').
  assert (length bbs' = length bbs1) as Hlen.
  { unfold bbs', update_block. by rewrite !length_map. }
  split; [done|]. split; [by rewrite length_take_le by lia|].
  split; [rewrite length_take_le by lia; simpl; by rewrite length_map|].
  rewrite take_drop. unfold bbs', update_block. rewrite !map_map. split.
  - apply map_ext. intros a. simpl. by repeat case_bool_decide.
  - apply map_ext. intros a. simpl. by repeat case_bool_decide.
Qed.

Lemma wire_ids block1 block2 l :
  map bb_id (wire block1 block2 l) = map bb_id l.
Proof.
  pose proof (wire_same_code block1 block2 l) as H.
  induction H as [|x y l l' [Hid _] _ IH]; [done|]. simpl. by rewrite Hid, IH.
Qed.

Lemma wire_instructions block1 block2 l :
  map instructions (wire block1 block2 l) = map instructions l.
Proof.
  pose proof (wire_same_code block1 block2 l) as H.
  induction H as [|x y l l' [_ Hi] _ IH]; [done|]. simpl. by rewrite Hi, IH.
Qed.

Lemma NoDup_spliced (A B C : list nat) :
  NoDup (A ++ C) → NoDup B → (∀ x, x ∈ A ++ C → x ∈ B → False) →
  NoDup (A ++ B ++ C).
Proof.
  intros HAC HB Hdis.
  assert (A ++ B ++ C ≡ₚ B ++ (A ++ C)) as ->.
  { rewrite !app_assoc. rewrite (Permutation_app_comm A B). done. }
  apply NoDup_app. split; [done|]. split; [|done].
  intros x HxB HxAC. by eapply Hdis.
Qed.


Section PassLinks.

Lemma resolveArguments_loop_ids args n : ∀ i vm bbs bbs',
  resolveArguments_loop n i args vm bbs = Ok bbs' →
  map bb_id bbs' = map bb_id bbs.
Proof.
  induction n as [|n IH]; intros i vm bbs bbs' H.
  - simpl in H. by injection H as <-.
  - cbn [resolveArguments_loop] in H.
    apply bind_Ok in H as (bb & Hat & H).
    apply bind_Ok in H as ([vm1 instrs'] & Hres & H).
    apply at_index_Ok in Hat as [Hi Hbb].
    apply IH in H. rewrite H, list_fmap_insert. apply list_insert_id.
    by rewrite list_lookup_fmap, Hbb.
Qed.

Lemma copied_instructions bb ib l :
  concat (map instructions (map (copy_block bb ib) l))
  = map (copy_instr bb ib) (concat (map instructions l)).
Proof.
  induction l as [|b l IH]; [done|]. simpl. by rewrite map_app, IH.
Qed.

Lemma NoDup_insert_fresh (A C : list nat) (x y : nat) :
  NoDup (A ++ x :: C) → y ∉ A ++ x :: C → NoDup (A ++ x :: y :: C).
Proof.
  intros Hnd Hy.
  assert (A ++ x :: y :: C ≡ₚ y :: (A ++ x :: C)) as ->.
  { rewrite (Permutation_middle A (x :: C) y).
    apply Permutation_app_head. apply perm_swap. }
  by apply NoDup_cons.
Qed.

Lemma fresh_block_id_not_in bbs : fresh_block_id bbs ∉ map bb_id bbs.
Proof.
  intros H. apply list_elem_of_fmap in H as (b & Hid & Hb).
  pose proof (bb_id_lt_fresh b bbs Hb). lia.
Qed.

(** The copy of a function whose def-use edges stay within it has its
    def-use edges within the copy. *)
Lemma copied_links bb ib callee :
  well_linked callee →
  linked_within (map (copy_instr bb ib) (all_instructions callee))
                (map (copy_instr bb ib) (all_instructions callee)).
Proof.
  intros Hwl. pose proof (proj1 (linked_within_alt _ _) Hwl) as Hl.
  apply linked_within_alt. intros i d Hi Hd.
  apply list_elem_of_fmap in Hi as (i0 & -> & Hi0).
  rewrite uses_copy in Hd. apply list_elem_of_fmap in Hd as (d0 & -> & Hd0).
  destruct (Hl i0 d0 Hi0 Hd0) as (j & Hj & Hop & Hid).
  exists (copy_instr bb ib j). split; [by apply list_elem_of_fmap_2|].
  split; [done|]. simpl. by rewrite Hid.
Qed.

Lemma definitions_sub l1 l2 d :
  (∀ i, i ∈ l1 → i ∈ l2) → d ∈ definitions l1 → d ∈ definitions l2.
Proof.
  intros Hsub Hd. apply elem_of_definitions in Hd as (j & Hj & Hop & Hid).
  apply elem_of_definitions. exists j. split; [by apply Hsub|done].
Qed.

End PassLinks.

(** X19. [inlineCall] keeps the def-use edges within the caller: for a
    fresh inliner, a caller and a callee whose blocks are distinct objects
    and whose inputs refer to instructions of their own that are no
    returns, and a callee whose LoadArgs refer to nothing, every input of
    the caller after a successful [inlineCall] refers to an instruction of
    the caller that is no return; no reference to an erased LoadArg or to
    a deleted return is left. *)
Theorem inlineCall_keeps_def_use_edges
    (host : Host) (inl inl' : LIRInliner) (w w' : World)
    (call_instr : Instruction) (callee : Function) (cache : Cache) :
  find_instr (call_instr_ inl) (caller w) = Some call_instr →
  findFunction host call_instr (name_to_function w) = (Some callee, cache) →
  arguments_ inl = [] →
  NoDup (map bb_id (basicblocks (caller w))) →
  NoDup (map bb_id (basicblocks callee)) →
  well_linked (caller w) →
  well_linked callee →
  Forall (λ i, opcode i = kLoadArg → uses i = []) (all_instructions callee) →
  inlineCall host inl w = Ok (true, inl', w') →
  well_linked (caller w').
Proof.
  intros Hcall Hfind Hargs0 Hndc Hndf Hwlc Hwlf Hnouse Hrun.
  pose proof (inlineCall_cases host inl w call_instr Hcall) as Hc. rewrite Hfind in Hc.
  destruct (isInlineable call_instr (arguments_ inl) callee) as [[|] args] eqn:Hinl;
    [|by rewrite Hc in Hrun].
  clear Hc.
  assert ((isInlineable call_instr (arguments_ inl) callee).1 = true) as Hok
    by (by rewrite Hinl).
  pose proof (isInlineable_true _ _ _ Hok) as (Hcheck & _ & Hload).
  pose proof (isInlineable_true_args _ _ _ Hok) as Hpair.
  rewrite Hinl, Hargs0 in Hpair. injection Hpair as ->. simpl.
  assert (basicblocks callee ≠ []) as Hne.
  { apply checkEntryExitReturn_true in Hcheck as (x & _ & Hx & _).
    unfold getEntryBlock in Hx. intros Hnil. by rewrite Hnil in Hx. }
  unfold inlineCall in Hrun. rewrite Hcall in Hrun.
  cbn [mbind Outcome_bind of_option] in Hrun.
  rewrite Hfind, Hinl in Hrun. cbv zeta in Hrun. cbn [negb call_instr_] in Hrun.
  apply bind_Ok in Hrun as ([k block1] & Hidx & Hrun). apply of_option_Ok in Hidx.
  destruct (splitBefore k block1 (call_instr_ inl) (basicblocks (caller w)))
    as [bbs1 block2] eqn:Hsplit.
  apply bind_Ok in Hrun as ([bbs2 [b e]] & Hcopy & Hrun).
  apply bind_Ok in Hrun as (bbs3 & Hres & Hrun).
  apply bind_Ok in Hrun as (bbs4 & Hmerge & Hrun).
  injection Hrun as _ <-. simpl.
  apply list_find_Some in Hidx as (Hk & _).
  pose proof (splitBefore_instructions _ _ _ _ _ _ Hk Hsplit) as Hinstrs1.
  destruct (splitBefore_ids _ _ _ _ _ _ Hk Hsplit) as [Hb2 Hids1].
  destruct (copyFrom_shape _ _ _ _ _ _ _ Hne Hcopy)
    as (P & Q & -> & -> & -> & HidsPQ & HinstrsPQ).
  set (bb := fresh_block_id bbs1) in *.
  set (ib := fresh_instr_id bbs1) in *.
  set (copies := map (copy_block bb ib) (basicblocks callee)) in *.
  set (wired := wire (bb_id block1) block2 copies) in *.
  assert (length wired = length (basicblocks callee)) as Hlen.
  { unfold wired, copies. by rewrite wire_length, length_map. }
  rewrite (resolveArguments_spliced _ _ _ _ _ _ Hlen) in Hres.
  pose proof (resolveArguments_loop_ids _ _ _ _ _ _ Hres) as Hids3.
  apply resolveArguments_loop_flat in Hres as (mid' & vm' & -> & Hlen' & Hflat).
  (* the instructions of the three parts *)
  assert (concat (map instructions (P ++ Q)) = all_instructions (caller w)) as Hout.
  { by rewrite HinstrsPQ, Hinstrs1. }
  assert (concat (map instructions wired)
          = map (copy_instr bb ib) (all_instructions callee)) as Hin.
  { unfold wired. rewrite wire_instructions. apply copied_instructions. }
  rewrite Hin in Hflat.
  assert (∀ i, i ∈ all_instructions (mkFunction (P ++ mid' ++ Q)) ↔
               i ∈ all_instructions (caller w) ∨ i ∈ concat (map instructions mid'))
    as Hall3.
  { intros i. unfold all_instructions at 1. simpl.
    rewrite <- Hout, !map_app, !concat_app, !elem_of_app. tauto. }
  (* the blocks are distinct objects *)
  assert (NoDup (map bb_id (P ++ mid' ++ Q))) as Hnd3.
  { rewrite Hids3, !map_app. apply NoDup_spliced.
    - rewrite <- map_app, HidsPQ, Hids1.
      assert (map bb_id (take k (basicblocks (caller w)))
                ++ bb_id block1 :: map bb_id (drop (S k) (basicblocks (caller w)))
              = map bb_id (basicblocks (caller w))) as Eids.
      { pose proof (take_drop_middle _ _ _ Hk) as Hm.
        apply (f_equal (map bb_id)) in Hm. by rewrite map_app in Hm. }
      pose proof (fresh_block_id_not_in (basicblocks (caller w))) as Hfresh.
      rewrite <- Eids in Hndc, Hfresh. rewrite <- Hb2 in Hfresh.
      apply NoDup_insert_fresh; [exact Hndc|exact Hfresh].
    - unfold wired. rewrite wire_ids. unfold copies. rewrite map_map. simpl.
      rewrite <- (map_map bb_id (Nat.add bb)). by apply (NoDup_fmap_2 (Nat.add bb)).
    - intros x HxPQ HxW. rewrite <- map_app, HidsPQ in HxPQ.
      apply list_elem_of_fmap in HxPQ as (y & -> & Hy).
      pose proof (bb_id_lt_fresh y bbs1 Hy) as Hlt. fold bb in Hlt.
      unfold wired in HxW. rewrite wire_ids in HxW. unfold copies in HxW.
      rewrite map_map in HxW. apply list_elem_of_fmap in HxW as (c & Hc & _).
      simpl in Hc. unfold bb, fresh_block_id in Hlt. lia. }
  (* the def-use edges before the returns are merged *)
  assert (well_linked (mkFunction (P ++ mid' ++ Q))) as Hwl3.
  { unfold checkLoadArg in Hload. apply checkLoadArg_blocks_flat in Hload.
    apply checkLoadArg_instrs_prefix in Hload as (las & body & Hsp & Hlas & Hbody).
    fold (all_instructions callee) in Hsp.
    assert (linked_within (all_instructions (caller w) ++ concat (map instructions mid'))
              (concat (map instructions mid'))) as Hmid.
    { eapply (resolved_links (actual_arguments call_instr) (all_instructions (caller w))
                (map (copy_instr bb ib) (all_instructions callee))
                (concat (map instructions mid')) vm'
                (map (copy_instr bb ib) las) (map (copy_instr bb ib) body)).
      - by rewrite Hsp, map_app.
      - by apply Forall_fmap.
      - by apply Forall_fmap.
      - intros e' He'.
        pose proof (proj1 (linked_within_alt _ _) Hwlc) as Hl.
        apply elem_of_definitions. apply (Hl call_instr e').
        + unfold find_instr in Hcall. apply find_some in Hcall as [Hc _].
          by apply list_elem_of_In.
        + unfold uses. apply list_elem_of_In, in_flat_map. exists (Linked e').
          split; [|by left]. apply list_elem_of_In.
          unfold actual_arguments in He'. by eapply elem_of_drop_sub.
      - by apply copied_links.
      - apply Forall_fmap. rewrite Forall_forall in Hnouse.
        apply Forall_forall. intros i Hi Hop. simpl in Hop.
        rewrite uses_copy, (Hnouse i Hi Hop). done.
      - done. }
    pose proof (proj1 (linked_within_alt _ _) Hmid) as Hl2.
    pose proof (proj1 (linked_within_alt _ _) Hwlc) as Hl1.
    apply linked_within_alt. intros i d Hi Hd.
    apply Hall3 in Hi as [Hi|Hi].
    - destruct (Hl1 i d Hi Hd) as (j & Hj & Hop & Hid).
      exists j. split; [|done]. apply Hall3. by left.
    - destruct (Hl2 i d Hi Hd) as (j & Hj & Hop & Hid).
      exists j. split; [|done]. apply Hall3. by apply elem_of_app in Hj. }
  by eapply resolveReturnValue_links.
Qed.

Lemma inlineCall_keeps_def_use_edges_witness :
  ∃ inl' w',
    inlineCall (Examples.host_of (Some Examples.two_returns))
      (Examples.inliner_at 1) (Examples.world_of Examples.caller_linked)
    = Ok (true, inl', w')
    ∧ well_linked (caller w').
Proof.
  assert (∃ inl' w',
    inlineCall (Examples.host_of (Some Examples.two_returns))
      (Examples.inliner_at 1) (Examples.world_of Examples.caller_linked)
    = Ok (true, inl', w'))
    as (inl' & w' & E) by (vm_compute; eauto).
  exists inl', w'. split; [exact E|].
  apply (inlineCall_keeps_def_use_edges
           (Examples.host_of (Some Examples.two_returns))
           (Examples.inliner_at 1) inl' (Examples.world_of Examples.caller_linked) w'
           (mkInstr 1 kCall [Imm 4096; Linked 0] (Some VReg))
           Examples.two_returns
           (<["f" := Some Examples.two_returns]> ∅)).
  - reflexivity.
  - reflexivity.
  - reflexivity.
  - apply (bool_decide_unpack _). vm_compute. exact I.
  - apply (bool_decide_unpack _). vm_compute. exact I.
  - apply (bool_decide_unpack _). vm_compute. exact I.
  - apply (bool_decide_unpack _). vm_compute. exact I.
  - apply (bool_decide_unpack _). vm_compute. exact I.
  - exact E.
Defined.

(** ** The basic block builder *)

Section CopyChains.

Context (copies : gmap Register Register).

Lemma follow_copies_chain reg path : 
  copy_chain copies reg path →
  ∀ fuel def_reg, length path ≤ fuel →
    follow_copies fuel copies def_reg (copies !! reg)
    = Some (match last path with Some r => Some r | None => def_reg end).
Proof.
  induction 1 as [reg Hend|reg from rest Hstep Hchain IH]; intros fuel def_reg Hfuel.
  - rewrite Hend. by destruct fuel.
  - rewrite Hstep. destruct fuel as [|fuel]; [simpl in Hfuel; lia|].
    simpl. rewrite IH by (simpl in Hfuel; lia).
    f_equal. destruct rest as [|r rest]; [done|].
    change (last (from :: r :: rest)) with (last (r :: rest)).
    destruct (proj2 (last_is_Some (r :: rest))) as [x ->]; done.
Qed.

(** A set of registers that the copies never leave. *)
Lemma follow_copies_trapped (trap : Register → Prop) :
  (∀ r, trap r → ∃ r', copies !! r = Some r' ∧ trap r') →
  ∀ fuel def_reg r, trap r →
    follow_copies fuel copies def_reg (copies !! r) = None.
Proof.
  intros Htrap. induction fuel as [|fuel IH]; intros def_reg r Hr.
  - destruct (Htrap r Hr) as (r' & -> & _). done.
  - destruct (Htrap r Hr) as (r' & -> & Hr'). simpl. by apply IH.
Qed.

End CopyChains.

Lemma getDefInstr_chain env_ reg path fuel :
  copy_chain (copy_propagation_map env_) reg path →
  length path ≤ fuel →
  getDefInstr fuel env_ reg
  = Some (match output_map env_ !! reg with
          | Some def_instr => Some def_instr
          | None => last path ≫= λ r, output_map env_ !! r
          end).
Proof.
  intros Hchain Hfuel. unfold getDefInstr.
  destruct (output_map env_ !! reg) as [def_instr|]; [done|].
  rewrite (follow_copies_chain _ _ _ Hchain) by done. simpl.
  by destruct (last path).
Qed.

(** X20. When a register has no defining instruction, [getDefInstr]
    follows the copies from it to the register that is no copy, and
    returns the defining instruction of that one, or null when it has
    none; the registers in between are not looked up. It returns as soon
    as the fuel covers the chain. *)
Theorem getDefInstr_follows_copies_to_the_end
    (env_ : Environ) (reg : Register) (path : list Register) (fuel : nat) :
  copy_chain (copy_propagation_map env_) reg path →
  length path ≤ fuel →
  getDefInstr fuel env_ reg
  = Some (match output_map env_ !! reg with
          | Some def_instr => Some def_instr
          | None => last path ≫= λ r, output_map env_ !! r
          end).
Proof. intros Hchain Hfuel. by apply getDefInstr_chain. Qed.

Lemma getDefInstr_follows_copies_to_the_end_witness :
  getDefInstr 2 Samples.env_chain 5 = Some None.
Proof.
  refine (eq_trans
            (getDefInstr_follows_copies_to_the_end
               Samples.env_chain 5 [1; 2] 2 _ _)
            _).
  - apply copy_chain_step with (from := 1); [reflexivity|].
    apply copy_chain_step with (from := 2); [reflexivity|].
    apply copy_chain_end. reflexivity.
  - simpl. lia.
  - reflexivity.
Defined.

(** X21. When a register has no defining instruction and the copies from
    it never reach a register that is no copy, the loop of [getDefInstr]
    does not end. *)
Theorem getDefInstr_never_returns_on_a_cycle
    (env_ : Environ) (reg : Register) (cycle : list Register) :
  output_map env_ !! reg = None →
  reg ∈ cycle →
  Forall (λ r, ∃ r', copy_propagation_map env_ !! r = Some r' ∧ r' ∈ cycle) cycle →
  ∀ fuel, getDefInstr fuel env_ reg = None.
Proof.
  intros Hout Hin Hcycle fuel. unfold getDefInstr. rewrite Hout.
  rewrite (follow_copies_trapped _ (λ r, r ∈ cycle)); [done| |done].
  intros r Hr. rewrite Forall_forall in Hcycle. by apply Hcycle.
Qed.

Lemma getDefInstr_never_returns_on_a_cycle_witness :
  getDefInstr 1000 Samples.env_cycle 1 = None.
Proof.
  apply (getDefInstr_never_returns_on_a_cycle Samples.env_cycle 1 [1; 2]).
  - reflexivity.
  - by left.
  - repeat constructor.
    + exists 2. split; [reflexivity|]. right. by left.
    + exists 1. split; [reflexivity|]. by left.
Defined.

(** X22. [createInstrOutput] on a register gives it its defining
    instruction: [getDefInstr] returned null for a register whose copies
    lead to it and returns that instruction afterwards; a second
    [createInstrOutput] on the register fails its check. *)
Theorem createInstrOutput_defines_register
    (env_ env' : Environ) (instr instr' : Instruction) (dst reg : Register)
    (path : list Register) (fuel : nat) :
  createInstrOutput env_ instr dst = Ok (env', instr') →
  copy_chain (copy_propagation_map env_) reg path →
  last (reg :: path) = Some dst →
  output_map env_ !! reg = None →
  length path ≤ fuel →
  getDefInstr fuel env_ reg = Some None ∧
  getDefInstr fuel env' reg = Some (Some (instr_id instr)) ∧
  ∀ other, createInstrOutput env' other dst = Abort DCheckFailed.
Proof.
  intros Hcreate Hchain Hlast Hreg Hfuel.
  unfold createInstrOutput in Hcreate.
  destruct (output_map env_ !! dst) eqn:Hdst; [done|].
  injection Hcreate as <- <-.
  split; [|split].
  - rewrite (getDefInstr_chain env_ reg path fuel Hchain Hfuel), Hreg.
    destruct path as [|r path]; [done|].
    change (last (reg :: r :: path)) with (last (r :: path)) in Hlast.
    rewrite Hlast. simpl. by rewrite Hdst.
  - rewrite (getDefInstr_chain (mkEnviron _ _) reg path fuel Hchain Hfuel). simpl.
    destruct path as [|r path].
    + simpl in Hlast. injection Hlast as ->. by rewrite lookup_insert_eq.
    + change (last (reg :: r :: path)) with (last (r :: path)) in Hlast.
      rewrite Hlast. simpl. rewrite lookup_insert_eq.
      destruct (decide (reg = dst)) as [->|Hne].
      * by rewrite lookup_insert_eq.
      * by rewrite lookup_insert_ne, Hreg.
  - intros other. unfold createInstrOutput. simpl. by rewrite lookup_insert_eq.
Qed.

Lemma createInstrOutput_defines_register_witness :
  ∃ env' instr',
    createInstrOutput Samples.env_chain
      (mkInstr 200 kMove [Imm 0] None) 2 = Ok (env', instr')
    ∧ getDefInstr 2 Samples.env_chain 5 = Some None
    ∧ getDefInstr 2 env' 5 = Some (Some 200).
Proof.
  assert (∃ env' instr',
    createInstrOutput Samples.env_chain
      (mkInstr 200 kMove [Imm 0] None) 2 = Ok (env', instr'))
    as (env' & instr' & E) by (vm_compute; eauto).
  exists env', instr'. split; [exact E|].
  destruct (createInstrOutput_defines_register _ _ _ _ 2 5 [1; 2] 2 E)
    as (H1 & H2 & _).
  - apply copy_chain_step with (from := 1); [reflexivity|].
    apply copy_chain_step with (from := 2); [reflexivity|].
    apply copy_chain_end. reflexivity.
  - reflexivity.
  - reflexivity.
  - simpl. lia.
  - split; [exact H1|exact H2].
Defined.

Section LabelFacts.

Context {F : Type} (allocateBasicBlock : F → BlockId * F).

Lemma allocateBlock_getBasicBlockByLabel label (b : BasicBlockBuilder F) :
  allocateBlock allocateBasicBlock label b
  = getBasicBlockByLabel allocateBasicBlock label b.
Proof.
  unfold allocateBlock, getBasicBlockByLabel.
  destruct (label_to_bb_ b !! label); [done|].
  destruct (allocateBasicBlock (func_ b)) as [bb func].
  by rewrite insert_insert_eq.
Qed.

End LabelFacts.

(** X23. [allocateBlock] and [getBasicBlockByLabel] do the same. The block
    they return is the one the label table holds for the label afterwards;
    the other labels keep their blocks; when the label was in the table
    nothing changes, so that a second call returns the same block and
    allocates none. *)
Theorem allocateBlock_once_per_label
    {F : Type} (allocateBasicBlock : F → BlockId * F)
    (label : string) (b : BasicBlockBuilder F) :
  let '(block, b') := allocateBlock allocateBasicBlock label b in
  getBasicBlockByLabel allocateBasicBlock label b = (block, b') ∧
  label_to_bb_ b' !! label = Some block ∧
  (∀ other, other ≠ label → label_to_bb_ b' !! other = label_to_bb_ b !! other) ∧
  (is_Some (label_to_bb_ b !! label) → b' = b) ∧
  allocateBlock allocateBasicBlock label b' = (block, b') ∧
  bbs_ b' = bbs_ b ∧ cur_bb_ b' = cur_bb_ b.
Proof.
  rewrite <- allocateBlock_getBasicBlockByLabel.
  unfold allocateBlock.
  destruct (label_to_bb_ b !! label) as [second|] eqn:E.
  - rewrite E. done.
  - destruct (allocateBasicBlock (func_ b)) as [bb func]. simpl.
    rewrite !lookup_insert_eq. repeat split; try done.
    intros other Hne. by rewrite !lookup_insert_ne.
Qed.

(** ** The scope stack *)

Section ScopeNames.

Lemma string_app_nil_r (s : string) : s +:+ "" = s.
Proof.
  induction s as [|a s IH]; [done|].
  change (String a (s +:+ "") = String a s). by rewrite IH.
Qed.

Lemma string_app_assoc (s1 s2 s3 : string) : (s1 +:+ s2) +:+ s3 = s1 +:+ (s2 +:+ s3).
Proof.
  induction s1 as [|a s1 IH]; [done|].
  change (String a ((s1 +:+ s2) +:+ s3) = String a (s1 +:+ (s2 +:+ s3))).
  by rewrite IH.
Qed.

Lemma qualified_from_concat scopes :
  qualified_from scopes = String.concat "." (map getScopeName scopes).
Proof.
  induction scopes as [|s [|s' rest] IH]; [done| |].
  - simpl. by rewrite !string_app_nil_r.
  - change (qualified_from (s :: s' :: rest))
      with (getScopeName s +:+ "." +:+ qualified_from (s' :: rest)).
    rewrite IH. done.
Qed.

Lemma qualified_from_snoc scopes s' s :
  qualified_from ((s' :: scopes) ++ [s])
  = qualified_from (s' :: scopes) +:+ "." +:+ getScopeName s.
Proof.
  revert s'. induction scopes as [|x scopes IH]; intros s'.
  - simpl. by rewrite !string_app_nil_r.
  - change (qualified_from ((s' :: x :: scopes) ++ [s]))
      with (getScopeName s' +:+ "." +:+ qualified_from ((x :: scopes) ++ [s])).
    rewrite IH.
    change (qualified_from (s' :: x :: scopes))
      with (getScopeName s' +:+ "." +:+ qualified_from (x :: scopes)).
    by rewrite !string_app_assoc.
Qed.

End ScopeNames.

(** X24. The qualified name of a scope stack is the names of its scopes
    but the first, whatever that one is called, with a dot between two of
    them; a scope pushed on the stack adds a dot and its name, or its name
    alone when the stack held one scope. *)
Theorem getQualifiedScopeName_joins_inner_scopes
    (top : Scope) (inner : list Scope) (current : option string) :
  getQualifiedScopeName (mkScopeStack (top :: inner) current)
  = Ok (String.concat "." (map getScopeName inner))
  ∧ ∀ scope,
      getQualifiedScopeName (mkScopeStack ((top :: inner) ++ [scope]) current)
      = Ok (match inner with
            | [] => getScopeName scope
            | _ :: _ =>
                String.concat "." (map getScopeName inner) +:+ "." +:+ getScopeName scope
            end).
Proof.
  unfold getQualifiedScopeName. simpl. split.
  - by rewrite qualified_from_concat.
  - intros scope. destruct inner as [|s' inner].
    + simpl. by rewrite !string_app_nil_r.
    + rewrite qualified_from_snoc. by rewrite qualified_from_concat.
Qed.
